(** * Pebble: sstable footer framing, value separation and the external
    merging iterator.

    A shallow embedding of
    - the sstable footer codec ([readFooter], [parseFooter], [footer.encode]),
    - the two value-separation policies of the compaction write path
      ([writeNewBlobFiles] and [preserveBlobReferences]),
    - the read-path scenario of [testdata/external_iterator].

    Go's machine integers are modelled as [Z] with the wrap-around written
    out ([u64], [u32]); byte slices are lists of [Z] in [0, 256). *)

From Stdlib Require Import String ZArith List Lia Bool Arith.
Import ListNotations.

Local Open Scope Z_scope.

(** ** Errors, panics and results *)

(** The error values the modelled code produces.  [base.CorruptionErrorf]
    builds a [CorruptionError]; [errors.Wrap]/[errors.Wrapf] keep the cause,
    so that a wrapped corruption error still is one. *)
Inductive error : Type :=
| CorruptionError (msg : string)
| AssertionFailed (msg : string)
| Wrapped (msg : string) (cause : error)
| ExternalError (msg : string).

Fixpoint IsCorruptionError (e : error) : bool :=
  match e with
  | CorruptionError _ => true
  | Wrapped _ cause => IsCorruptionError cause
  | _ => false
  end.

(** What a Go call can do: return a value, return an error, or panic. *)
Inductive result (A : Type) : Type :=
| Ok (a : A)
| Err (e : error)
| Panic (msg : string).

Arguments Ok {A} a.
Arguments Err {A} e.
Arguments Panic {A} msg.

Definition bind {A B : Type} (r : result A) (k : A -> result B) : result B :=
  match r with
  | Ok a => k a
  | Err e => Err e
  | Panic m => Panic m
  end.

Notation "x <- r ;; k" := (bind r (fun x => k))
  (at level 61, r at next level, right associativity).
Notation "' pat <- r ;; k" := (bind r (fun x => match x with pat => k end))
  (at level 61, pat pattern, r at next level, right associativity).

(** ** Machine integers and byte slices *)

Definition u64 (x : Z) : Z := x mod 2 ^ 64.
Definition u32 (x : Z) : Z := x mod 2 ^ 32.

Definition bytes := list Z.

Definition len {A : Type} (l : list A) : Z := Z.of_nat (length l).

(** [buf[lo:]] for [0 <= lo <= len(buf)]. *)
Definition slice_from {A : Type} (buf : list A) (lo : Z) : list A :=
  skipn (Z.to_nat lo) buf.

(** [buf[lo:hi]] for [0 <= lo <= hi <= len(buf)]. *)
Definition slice {A : Type} (buf : list A) (lo hi : Z) : list A :=
  firstn (Z.to_nat (hi - lo)) (skipn (Z.to_nat lo) buf).

(** [copy(buf[at:], data)]: overwrites in place, copying no more than fits. *)
Definition copy_at (buf : bytes) (at_ : Z) (data : bytes) : bytes :=
  let pre := firstn (Z.to_nat at_) buf in
  let room := skipn (Z.to_nat at_) buf in
  let n := Nat.min (length room) (length data) in
  pre ++ firstn n data ++ skipn n room.

Fixpoint bytes_eqb (a b : bytes) : bool :=
  match a, b with
  | [], [] => true
  | x :: a', y :: b' => (x =? y) && bytes_eqb a' b'
  | _, _ => false
  end.

(** ** encoding/binary: varints and little-endian words *)

Definition MaxVarintLen64 : Z := 10.

(** [binary.Uvarint]: the loop over [buf], with the index [i], the
    accumulator [x] and the shift [s] as arguments. *)
Fixpoint Uvarint_loop (buf : bytes) (i x s : Z) : Z * Z :=
  match buf with
  | [] => (0, 0)
  | b :: rest =>
      if i =? MaxVarintLen64 then (0, - (i + 1))
      else if b <? 128 then
        if (i =? MaxVarintLen64 - 1) && (1 <? b) then (0, - (i + 1))
        else (Z.lor x (u64 (Z.shiftl b s)), i + 1)
      else Uvarint_loop rest (i + 1) (Z.lor x (u64 (Z.shiftl (Z.land b 127) s))) (s + 7)
  end.

Definition Uvarint (buf : bytes) : Z * Z := Uvarint_loop buf 0 0 0.

(** [binary.PutUvarint], as the bytes it stores.  A uint64 needs at most
    nine continuation bytes, which is the fuel [PutUvarint] gives. *)
Fixpoint PutUvarint_loop (fuel : nat) (x : Z) : bytes :=
  match fuel with
  | O => [x mod 256]
  | S fuel' =>
      if 128 <=? x
      then Z.lor (x mod 256) 128 :: PutUvarint_loop fuel' (Z.shiftr x 7)
      else [x mod 256]
  end.

Definition PutUvarint (x : Z) : bytes := PutUvarint_loop 9 x.

(** [binary.LittleEndian.Uint32] of a four-byte slice. *)
Definition LittleEndian_Uint32 (b : bytes) : Z :=
  match b with
  | [b0; b1; b2; b3] =>
      Z.lor (Z.lor (Z.lor b0 (Z.shiftl b1 8)) (Z.shiftl b2 16)) (Z.shiftl b3 24)
  | _ => 0
  end.

(** [binary.LittleEndian.PutUint32], as the four bytes it stores. *)
Definition LittleEndian_PutUint32 (v : Z) : bytes :=
  [v mod 256; Z.shiftr v 8 mod 256; Z.shiftr v 16 mod 256; Z.shiftr v 24 mod 256].

(** ** sstable: constants of the footer framing *)

Definition blockHandleMaxLenWithoutProperties : Z := 10 + 10.

Definition levelDBMagic : bytes := [0x57; 0xfb; 0x80; 0x8b; 0x24; 0x75; 0x47; 0xdb].
Definition rocksDBMagic : bytes := [0xf7; 0xcf; 0xf4; 0x85; 0xb7; 0x41; 0xe2; 0x88].
Definition pebbleDBMagic : bytes := [0xf0; 0x9f; 0xaa; 0xb3; 0xf0; 0x9f; 0xaa; 0xb3].

Definition levelDBFooterLen : Z := 48.
Definition levelDBMagicOffset : Z := levelDBFooterLen - len levelDBMagic.

Definition rocksDBFooterLen : Z := 1 + 2 * blockHandleMaxLenWithoutProperties + 4 + 8.
Definition rocksDBMagicOffset : Z := rocksDBFooterLen - len rocksDBMagic.
Definition rocksDBVersionOffset : Z := rocksDBMagicOffset - 4.

Definition minFooterLen : Z := levelDBFooterLen.
Definition maxFooterLen : Z := rocksDBFooterLen.

Definition levelDBFormatVersion : Z := 0.
Definition rocksDBFormatVersion2 : Z := 2.

(** Modelled from the spec: the [TableFormat] enumeration and its
    [AsTuple]/[ParseTableFormat] conversions live in the sstable package's
    format file, which is not among the sources.  The formats are the ones
    [supportsTwoLevelIndex] names; each is a (magic, version) pair, the magic
    "format-specific" and the version present "for non-legacy formats". *)
Inductive TableFormat : Type :=
| TableFormatUnspecified
| TableFormatLevelDB
| TableFormatRocksDBv2
| TableFormatPebblev1
| TableFormatPebblev2
| TableFormatPebblev3
| TableFormatPebblev4.

(** Modelled from the spec: [TableFormat.AsTuple], absent from the sources;
    [None] stands for its panic on an unspecified format. *)
Definition AsTuple (f : TableFormat) : option (bytes * Z) :=
  match f with
  | TableFormatUnspecified => None
  | TableFormatLevelDB => Some (levelDBMagic, levelDBFormatVersion)
  | TableFormatRocksDBv2 => Some (rocksDBMagic, rocksDBFormatVersion2)
  | TableFormatPebblev1 => Some (pebbleDBMagic, 1)
  | TableFormatPebblev2 => Some (pebbleDBMagic, 2)
  | TableFormatPebblev3 => Some (pebbleDBMagic, 3)
  | TableFormatPebblev4 => Some (pebbleDBMagic, 4)
  end.

(** Modelled from the spec: [ParseTableFormat], absent from the sources; the
    inverse of [AsTuple], a corruption error on any other pair. *)
Definition ParseTableFormat (magic : bytes) (version : Z) : result TableFormat :=
  if bytes_eqb magic levelDBMagic then Ok TableFormatLevelDB
  else if bytes_eqb magic rocksDBMagic then
    if version =? rocksDBFormatVersion2 then Ok TableFormatRocksDBv2
    else Err (CorruptionError "pebble/table: unsupported rocksdb format version")
  else if bytes_eqb magic pebbleDBMagic then
    if version =? 1 then Ok TableFormatPebblev1
    else if version =? 2 then Ok TableFormatPebblev2
    else if version =? 3 then Ok TableFormatPebblev3
    else if version =? 4 then Ok TableFormatPebblev4
    else Err (CorruptionError "pebble/table: unsupported pebble format version")
  else Err (CorruptionError "pebble/table: invalid table (bad magic number)").

(** Modelled from the spec: the block package's [ChecksumType] byte and its
    four constants, absent from the sources ("checksum type byte"). *)
Abbreviation ChecksumType := Z (only parsing).
Definition ChecksumTypeNone : ChecksumType := 0.
Definition ChecksumTypeCRC32c : ChecksumType := 1.
Definition ChecksumTypeXXHash : ChecksumType := 2.
Definition ChecksumTypeXXHash64 : ChecksumType := 3.

(** Modelled from the spec: [block.Handle], whose declaration is absent from
    the sources: "an offset, a length", both uint64. *)
Record Handle : Type := mkHandle { Offset : Z; Length : Z }.

Definition zeroHandle : Handle := mkHandle 0 0.

(** Modelled from the spec: [block.DecodeHandle], absent from the sources.
    A block handle is "an offset, a length ... varint-encoded, with no
    padding between the two values"; the decoder returns the handle and the
    number of bytes read, zero on invalid input. *)
Definition DecodeHandle (src : bytes) : Handle * Z :=
  let '(offset, n) := Uvarint src in
  if n <=? 0 then (zeroHandle, 0)
  else
    let '(length, m) := Uvarint (slice_from src n) in
    if m <=? 0 then (zeroHandle, 0)
    else (mkHandle offset length, n + m).

(** Modelled from the spec: [block.Handle.EncodeVarints], absent from the
    sources: the two varints, as the bytes stored at the start of [dst]. *)
Definition EncodeVarints (h : Handle) : bytes :=
  PutUvarint (Offset h) ++ PutUvarint (Length h).

Record footer : Type := mkFooter {
  format : TableFormat;
  checksum : ChecksumType;
  metaindexBH : Handle;
  indexBH : Handle;
  footerBH : Handle
}.

Definition zeroFooter : footer :=
  mkFooter TableFormatUnspecified ChecksumTypeNone zeroHandle zeroHandle zeroHandle.

(** ** sstable: parsing the footer *)

(** The closing block of [parseFooter]: the two block handles, each checked
    against the end of the file in uint64 arithmetic. *)
Definition parseFooter_handles (f : footer) (buf : bytes) (size : Z) : result footer :=
  let end_ := u64 size in
  let '(mBH, n) := DecodeHandle buf in
  if (n =? 0) || (end_ <? u64 (Offset mBH + Length mBH))
  then Err (CorruptionError "(bad metaindex block handle)")
  else
    let buf := slice_from buf n in
    let '(iBH, n) := DecodeHandle buf in
    if (n =? 0) || (end_ <? u64 (Offset iBH + Length iBH))
    then Err (CorruptionError "(bad index block handle)")
    else Ok (mkFooter (format f) (checksum f) mBH iBH (footerBH f)).

Definition parseFooter (buf : bytes) (off size : Z) : result footer :=
  if len buf <? len rocksDBMagic then Panic "slice bounds out of range"
  else
    let magic := slice_from buf (len buf - len rocksDBMagic) in
    if bytes_eqb magic levelDBMagic then
      if len buf <? levelDBFooterLen
      then Err (CorruptionError "(footer too short)")
      else
        let fOffset := u64 (u64 (off + len buf) - levelDBFooterLen) in
        let buf := slice_from buf (len buf - levelDBFooterLen) in
        let f := mkFooter TableFormatLevelDB ChecksumTypeCRC32c zeroHandle zeroHandle
                          (mkHandle fOffset (u64 (len buf))) in
        parseFooter_handles f buf size
    else if bytes_eqb magic rocksDBMagic || bytes_eqb magic pebbleDBMagic then
      if len buf <? rocksDBFooterLen
      then Err (CorruptionError "(footer too short)")
      else
        let fOffset := u64 (u64 (off + len buf) - rocksDBFooterLen) in
        let buf := slice_from buf (len buf - rocksDBFooterLen) in
        let fBH := mkHandle fOffset (u64 (len buf)) in
        let version := LittleEndian_Uint32 (slice buf rocksDBVersionOffset rocksDBMagicOffset) in
        fmt <- ParseTableFormat magic version ;;
        let c := nth 0 buf 0 in
        if c =? ChecksumTypeCRC32c then
          parseFooter_handles
            (mkFooter fmt ChecksumTypeCRC32c zeroHandle zeroHandle fBH) (slice_from buf 1) size
        else if c =? ChecksumTypeXXHash64 then
          parseFooter_handles
            (mkFooter fmt ChecksumTypeXXHash64 zeroHandle zeroHandle fBH) (slice_from buf 1) size
        else Err (CorruptionError "(unsupported checksum type)")
    else Err (CorruptionError "(bad magic number)").

(** An [objstorage.Readable]: the bytes of the object and whether reading
    them fails.  A read handle reads the same object and may fail on its
    own. *)
Record Readable : Type := mkReadable { data : bytes; readError : option error }.
Record ReadHandle : Type := mkReadHandle { handleError : option error }.

Definition Size (f : Readable) : Z := len (data f).

(** [ReadAt(ctx, buf, off)] with [len(buf) = n]: the bytes read. *)
Definition ReadAt (f : Readable) (failure : option error) (n off : Z) : result bytes :=
  match failure with
  | Some e => Err e
  | None => Ok (slice (data f) off (off + n))
  end.

(** [readFooter]; the logger only traces slow reads and the file number only
    labels the error, neither is modelled. *)
Definition readFooter (f : Readable) (readHandle : option ReadHandle) : result footer :=
  let size := Size f in
  if size <? minFooterLen
  then Err (CorruptionError "pebble/table: invalid table (file size is too small)")
  else
    let off := size - maxFooterLen in
    let '(off, n) := if off <? 0 then (0, size) else (off, maxFooterLen) in
    let read :=
      match readHandle with
      | Some rh => ReadAt f (handleError rh) n off
      | None => ReadAt f (readError f) n off
      end in
    match read with
    | Err e => Err (Wrapped "pebble/table: invalid table (could not read footer)" e)
    | Panic m => Panic m
    | Ok buf =>
        match parseFooter buf off size with
        | Err e => Err (Wrapped "pebble/table: invalid table" e)
        | r => r
        end
    end.

(** ** sstable: encoding the footer *)

(** [footer.encode].  [buf] is the caller's scratch buffer: only its
    capacity matters, as the slice taken from it is cleared.  The handles'
    varints take at most 2 * 10 bytes each, so that [copy_at] never cuts
    them. *)
Definition footer_encode (f : footer) (buf : bytes) : result bytes :=
  match AsTuple (format f) with
  | None => Panic "sstable: unspecified table format version"
  | Some (magic, version) =>
      if bytes_eqb magic levelDBMagic then
        if len buf <? levelDBFooterLen then Panic "slice bounds out of range"
        else
          let buf := repeat 0 (Z.to_nat levelDBFooterLen) in
          let m := EncodeVarints (metaindexBH f) in
          let buf := copy_at buf 0 m in
          let n := len m in
          let buf := copy_at buf n (EncodeVarints (indexBH f)) in
          Ok (copy_at buf (len buf - len levelDBMagic) levelDBMagic)
      else if bytes_eqb magic rocksDBMagic || bytes_eqb magic pebbleDBMagic then
        if len buf <? rocksDBFooterLen then Panic "slice bounds out of range"
        else
          let buf := repeat 0 (Z.to_nat rocksDBFooterLen) in
          if (checksum f =? ChecksumTypeNone) || (checksum f =? ChecksumTypeCRC32c)
             || (checksum f =? ChecksumTypeXXHash) || (checksum f =? ChecksumTypeXXHash64)
          then
            let buf := copy_at buf 0 [checksum f] in
            let n := 1 in
            let m := EncodeVarints (metaindexBH f) in
            let buf := copy_at buf n m in
            let n := n + len m in
            let i := EncodeVarints (indexBH f) in
            let buf := copy_at buf n i in
            let buf := copy_at buf rocksDBVersionOffset (LittleEndian_PutUint32 version) in
            Ok (copy_at buf (len buf - len rocksDBMagic) magic)
          else Panic "unknown checksum type"
      else Panic "sstable: unspecified table format version"
  end.

(** The checksum types [parseFooter] yields for a format: the legacy layout
    has no checksum byte and always reads as CRC32c; the other layouts accept
    CRC32c and XXHash64. *)
Definition checksumValidFor (fmt : TableFormat) (c : ChecksumType) : bool :=
  match fmt with
  | TableFormatUnspecified => false
  | TableFormatLevelDB => c =? ChecksumTypeCRC32c
  | _ => (c =? ChecksumTypeCRC32c) || (c =? ChecksumTypeXXHash64)
  end.

Definition recognizedMagic (magic : bytes) : bool :=
  bytes_eqb magic levelDBMagic || bytes_eqb magic rocksDBMagic
  || bytes_eqb magic pebbleDBMagic.

(** The trailing magic of a buffer, as [parseFooter] slices it. *)
Definition trailingMagic (buf : bytes) : bytes :=
  slice_from buf (len buf - len rocksDBMagic).

(** *** Facts about the varint codec *)

Lemma low7_high_split (x : Z) :
  0 <= x -> Z.lor (Z.land x 127) (Z.shiftl (Z.shiftr x 7) 7) = x.
Proof.
  intros Hx. apply Z.bits_inj'. intros n Hn.
  rewrite Z.lor_spec, Z.land_spec.
  change 127 with (Z.ones 7).
  destruct (Z.ltb_spec n 7) as [Hlt | Hge].
  - rewrite Z.ones_spec_low by lia.
    rewrite Z.shiftl_spec_low by lia.
    now rewrite andb_true_r, orb_false_r.
  - rewrite Z.ones_spec_high by lia.
    rewrite Z.shiftl_spec by lia.
    rewrite Z.shiftr_spec by lia.
    rewrite andb_false_r. simpl. f_equal. lia.
Qed.

Lemma continuation_low7 (x : Z) :
  0 <= x -> Z.land (Z.lor (x mod 256) 128) 127 = Z.land x 127.
Proof.
  intros Hx. apply Z.bits_inj'. intros n Hn.
  rewrite !Z.land_spec, Z.lor_spec.
  change 127 with (Z.ones 7). change 128 with (2 ^ 7). change 256 with (2 ^ 8).
  destruct (Z.ltb_spec n 7) as [Hlt | Hge].
  - rewrite Z.ones_spec_low by lia.
    rewrite Z.mod_pow2_bits_low by lia.
    rewrite Z.pow2_bits_false by lia.
    now rewrite orb_false_r.
  - rewrite Z.ones_spec_high by lia. now rewrite !andb_false_r.
Qed.

Lemma continuation_ge_128 (x : Z) : 0 <= x -> 128 <= Z.lor (x mod 256) 128 < 256.
Proof.
  intros Hx.
  assert (Hm : 0 <= x mod 256 < 256) by (apply Z.mod_pos_bound; lia).
  assert (Hnn : 0 <= Z.lor (x mod 256) 128) by (apply Z.lor_nonneg; lia).
  assert (Hlog : Z.log2 (Z.lor (x mod 256) 128) = Z.max (Z.log2 (x mod 256)) 7).
  { rewrite Z.log2_lor by lia. reflexivity. }
  split.
  - assert (Hpos : 0 < Z.lor (x mod 256) 128).
    { destruct (Z.eq_dec (Z.lor (x mod 256) 128) 0) as [E | NE]; [| lia].
      rewrite E in Hlog. simpl in Hlog. lia. }
    pose proof (Z.log2_spec _ Hpos) as [Hlo _].
    assert (2 ^ 7 <= 2 ^ Z.log2 (Z.lor (x mod 256) 128)).
    { apply Z.pow_le_mono_r; lia. }
    lia.
  - destruct (Z.eq_dec (Z.lor (x mod 256) 128) 0) as [E | NE]; [lia |].
    change (Z.lor (x mod 256) 128 < 2 ^ 8).
    apply Z.log2_lt_pow2; [lia |].
    rewrite Hlog.
    apply Z.max_lub_lt; [| reflexivity].
    destruct (Z.eq_dec (x mod 256) 0) as [E0 | NE0].
    + rewrite E0. reflexivity.
    + apply Z.log2_lt_pow2; [lia |]. change (2 ^ 8) with 256. lia.
Qed.

Lemma lor_lt_pow2 (a b n : Z) :
  0 <= n -> 0 <= a < 2 ^ n -> 0 <= b < 2 ^ n -> 0 <= Z.lor a b < 2 ^ n.
Proof.
  intros Hn Ha Hb.
  assert (Hnn : 0 <= Z.lor a b) by (apply Z.lor_nonneg; lia).
  split; [exact Hnn |].
  destruct (Z.eq_dec (Z.lor a b) 0) as [E | NE].
  - rewrite E. apply Z.pow_pos_nonneg; lia.
  - assert (Hn0 : 0 < n).
    { destruct (Z.eq_dec n 0) as [-> | ]; [| lia].
      simpl in Ha, Hb. assert (a = 0) by lia. assert (b = 0) by lia.
      subst. simpl in NE. congruence. }
    apply Z.log2_lt_pow2; [lia |].
    rewrite Z.log2_lor by lia.
    apply Z.max_lub_lt.
    + destruct (Z.eq_dec a 0) as [-> | Na]; [simpl; lia |].
      apply Z.log2_lt_pow2; lia.
    + destruct (Z.eq_dec b 0) as [-> | Nb]; [simpl; lia |].
      apply Z.log2_lt_pow2; lia.
Qed.

Lemma shiftl_lt_pow2 (x s n : Z) :
  0 <= s -> 0 <= n -> 0 <= x < 2 ^ n -> 0 <= Z.shiftl x s < 2 ^ (n + s).
Proof.
  intros Hs Hn Hx. rewrite Z.shiftl_mul_pow2 by lia.
  rewrite Z.pow_add_r by lia.
  assert (0 < 2 ^ s) by (apply Z.pow_pos_nonneg; lia).
  nia.
Qed.

Lemma u64_small (x : Z) : 0 <= x < 2 ^ 64 -> u64 x = x.
Proof. intros H. unfold u64. apply Z.mod_small. exact H. Qed.

Lemma land127_bound (x : Z) : 0 <= x -> 0 <= Z.land x 127 < 2 ^ 7.
Proof.
  intros Hx. change 127 with (Z.ones 7). rewrite Z.land_ones by lia.
  apply Z.mod_pos_bound. reflexivity.
Qed.

Lemma len_app {A : Type} (l1 l2 : list A) : len (l1 ++ l2) = len l1 + len l2.
Proof. unfold len. rewrite length_app. lia. Qed.

Lemma len_cons {A : Type} (a : A) (l : list A) : len (a :: l) = 1 + len l.
Proof. unfold len. simpl length. lia. Qed.

Lemma len_nonneg {A : Type} (l : list A) : 0 <= len l.
Proof. unfold len. lia. Qed.

(** Decoding what [PutUvarint_loop] stored, from inside the loop of
    [Uvarint] at index [i]: the accumulator gains [x] at shift [7 * i]. *)
Lemma Uvarint_loop_PutUvarint_loop (fuel : nat) :
  forall (x i acc : Z) (rest : bytes),
    0 <= i <= 9 ->
    0 <= x < 2 ^ (64 - 7 * i) ->
    0 <= acc < 2 ^ (7 * i) ->
    9 <= Z.of_nat fuel + i ->
    Uvarint_loop (PutUvarint_loop fuel x ++ rest) i acc (7 * i)
    = (Z.lor acc (Z.shiftl x (7 * i)), i + len (PutUvarint_loop fuel x)).
Proof.
  assert (Hlast : forall x i acc rest,
    0 <= i <= 9 -> 0 <= x < 2 ^ (64 - 7 * i) -> 0 <= acc < 2 ^ (7 * i) ->
    x < 128 ->
    Uvarint_loop ([x mod 256] ++ rest) i acc (7 * i)
    = (Z.lor acc (Z.shiftl x (7 * i)), i + len [x mod 256])).
  { intros x i acc rest Hi Hx Hacc Hsmall.
    rewrite (Z.mod_small x 256) by lia.
    change ([x] ++ rest) with (x :: rest).
    cbn [Uvarint_loop]. unfold MaxVarintLen64.
    destruct (Z.eqb_spec i 10) as [E | _]; [lia |].
    destruct (Z.ltb_spec x 128) as [_ | C]; [| lia].
    assert (Hb : (i =? 10 - 1) && (1 <? x) = false).
    { destruct (Z.eqb_spec i (10 - 1)) as [E | _]; [| reflexivity].
      assert (x < 2) by (subst i; simpl in Hx; lia).
      cbn [andb]. apply Z.ltb_ge. lia. }
    rewrite Hb.
    rewrite u64_small; [unfold len; simpl; reflexivity |].
    pose proof (shiftl_lt_pow2 x (7 * i) (64 - 7 * i)) as Hs.
    replace (64 - 7 * i + 7 * i) with 64 in Hs by lia.
    apply Hs; lia. }
  induction fuel as [| fuel IH]; intros x i acc rest Hi Hx Hacc Hfuel.
  - assert (i = 9) by lia. subst i.
    apply Hlast; simpl in Hx; lia.
  - simpl PutUvarint_loop.
    destruct (Z.leb_spec 128 x) as [Hbig | Hsmall]; [| apply Hlast; lia].
    assert (Hi8 : i <= 8).
    { destruct (Z.le_gt_cases i 8) as [L | G]; [exact L |].
      assert (i = 9) by lia. subst i. simpl in Hx. lia. }
    pose proof (continuation_ge_128 x ltac:(lia)) as Hc.
    rewrite <- app_comm_cons. cbn [Uvarint_loop]. unfold MaxVarintLen64.
    destruct (Z.eqb_spec i 10) as [E | _]; [lia |].
    destruct (Z.ltb_spec (Z.lor (x mod 256) 128) 128) as [C | _]; [lia |].
    rewrite continuation_low7 by lia.
    pose proof (land127_bound x ltac:(lia)) as Hl7.
    pose proof (shiftl_lt_pow2 (Z.land x 127) (7 * i) 7 ltac:(lia) ltac:(lia) Hl7) as Hsh.
    assert (Hle : 2 ^ (7 + 7 * i) <= 2 ^ 64) by (apply Z.pow_le_mono_r; lia).
    rewrite u64_small by lia.
    replace (7 * i + 7) with (7 * (i + 1)) by lia.
    rewrite IH.
    + rewrite len_cons. f_equal; [| lia].
      rewrite <- Z.lor_assoc. f_equal.
      replace (7 * (i + 1)) with (7 + 7 * i) by lia.
      rewrite <- Z.shiftl_shiftl by lia.
      rewrite <- Z.shiftl_lor.
      rewrite low7_high_split by lia. reflexivity.
    + lia.
    + rewrite Z.shiftr_div_pow2 by lia. split.
      * apply Z.div_pos; lia.
      * apply Z.div_lt_upper_bound; [lia |].
        rewrite <- Z.pow_add_r by lia.
        replace (7 + (64 - 7 * (i + 1))) with (64 - 7 * i) by lia. lia.
    + replace (7 * (i + 1)) with (7 + 7 * i) by lia.
      apply lor_lt_pow2; [lia | | lia].
      split; [lia |].
      assert (2 ^ (7 * i) <= 2 ^ (7 + 7 * i)) by (apply Z.pow_le_mono_r; lia).
      lia.
    + lia.
Qed.

Lemma PutUvarint_loop_len (fuel : nat) (x : Z) :
  1 <= len (PutUvarint_loop fuel x) <= Z.of_nat fuel + 1.
Proof.
  revert x. induction fuel as [| fuel IH]; intros x.
  - simpl. unfold len. simpl. lia.
  - simpl PutUvarint_loop. destruct (128 <=? x).
    + rewrite len_cons. specialize (IH (Z.shiftr x 7)). lia.
    + unfold len. simpl. lia.
Qed.

Lemma PutUvarint_len (x : Z) : 1 <= len (PutUvarint x) <= 10.
Proof. unfold PutUvarint. pose proof (PutUvarint_loop_len 9 x). lia. Qed.

(** A uint64 stored by [PutUvarint] is read back by [Uvarint], which
    consumes exactly the bytes stored. *)
Lemma Uvarint_PutUvarint (x : Z) (rest : bytes) :
  0 <= x < 2 ^ 64 ->
  Uvarint (PutUvarint x ++ rest) = (x, len (PutUvarint x)).
Proof.
  intros Hx. unfold Uvarint, PutUvarint.
  pose proof (Uvarint_loop_PutUvarint_loop 9 x 0 0 rest) as H.
  change (7 * 0) with 0 in H. change (64 - 0) with 64 in H.
  rewrite H.
  - rewrite Z.shiftl_0_r. rewrite Z.lor_0_l. reflexivity.
  - lia.
  - exact Hx.
  - change (2 ^ 0) with 1. lia.
  - change (Z.of_nat 9) with 9. lia.
Qed.

(** *** Facts about slices and in-place copies *)

Lemma slice_from_app {A : Type} (a b : list A) : slice_from (a ++ b) (len a) = b.
Proof.
  unfold slice_from, len. rewrite Nat2Z.id.
  rewrite skipn_app, Nat.sub_diag, skipn_all. reflexivity.
Qed.

Lemma slice_from_app_at {A : Type} (a b : list A) (n : Z) :
  n = len a -> slice_from (a ++ b) n = b.
Proof. intros ->. apply slice_from_app. Qed.

Lemma slice_app_mid {A : Type} (a b c : list A) (lo hi : Z) :
  lo = len a -> hi = len a + len b -> slice (a ++ b ++ c) lo hi = b.
Proof.
  intros -> ->. unfold slice, len.
  replace (Z.of_nat (length a) + Z.of_nat (length b) - Z.of_nat (length a))
    with (Z.of_nat (length b)) by lia.
  rewrite !Nat2Z.id.
  rewrite skipn_app, Nat.sub_diag, skipn_all. simpl.
  rewrite firstn_app, Nat.sub_diag, firstn_all. simpl.
  apply app_nil_r.
Qed.

Lemma len_repeat (k : nat) : len (repeat 0 k) = Z.of_nat k.
Proof. unfold len. now rewrite repeat_length. Qed.

(** Writing [d] right after the part [w] already written, into the zeroes
    that follow. *)
Lemma copy_at_zeros (w d : bytes) (k : nat) :
  (length d <= k)%nat ->
  copy_at (w ++ repeat 0 k) (len w) d = (w ++ d) ++ repeat 0 (k - length d).
Proof.
  intros Hk. unfold copy_at, len. rewrite Nat2Z.id.
  rewrite firstn_app, Nat.sub_diag, firstn_all. simpl firstn. rewrite app_nil_r.
  rewrite skipn_app, Nat.sub_diag, skipn_all. simpl.
  rewrite repeat_length.
  rewrite (Nat.min_r k (length d)) by exact Hk.
  rewrite firstn_all.
  replace k with (length d + (k - length d))%nat at 1 by lia.
  rewrite repeat_app.
  rewrite skipn_app, repeat_length, Nat.sub_diag.
  rewrite skipn_all2 by (rewrite repeat_length; lia).
  simpl. now rewrite <- app_assoc.
Qed.

Lemma bytes_eqb_refl (a : bytes) : bytes_eqb a a = true.
Proof. induction a as [| x a IH]; simpl; [reflexivity |]. now rewrite Z.eqb_refl. Qed.

Lemma bytes_eqb_eq (a b : bytes) : bytes_eqb a b = true <-> a = b.
Proof.
  split.
  - revert b. induction a as [| x a IH]; intros [| y b] H; simpl in H;
      try discriminate; [reflexivity |].
    apply andb_true_iff in H as [Hxy Hab].
    apply Z.eqb_eq in Hxy. subst y. f_equal. now apply IH.
  - intros ->. apply bytes_eqb_refl.
Qed.

(** *** Facts about block handles *)

Definition handle_is_u64 (h : Handle) : Prop :=
  0 <= Offset h < 2 ^ 64 /\ 0 <= Length h < 2 ^ 64.

Lemma EncodeVarints_len (h : Handle) : 2 <= len (EncodeVarints h) <= 20.
Proof.
  unfold EncodeVarints. rewrite len_app.
  pose proof (PutUvarint_len (Offset h)). pose proof (PutUvarint_len (Length h)). lia.
Qed.

Lemma DecodeHandle_EncodeVarints (h : Handle) (rest : bytes) :
  handle_is_u64 h ->
  DecodeHandle (EncodeVarints h ++ rest) = (h, len (EncodeVarints h)).
Proof.
  intros [Ho Hl]. unfold DecodeHandle, EncodeVarints.
  rewrite <- app_assoc.
  rewrite Uvarint_PutUvarint by exact Ho.
  pose proof (PutUvarint_len (Offset h)) as Hn.
  destruct (Z.leb_spec (len (PutUvarint (Offset h))) 0) as [C | _]; [lia |].
  rewrite slice_from_app.
  rewrite Uvarint_PutUvarint by exact Hl.
  pose proof (PutUvarint_len (Length h)) as Hm.
  destruct (Z.leb_spec (len (PutUvarint (Length h))) 0) as [C | _]; [lia |].
  rewrite len_app. destruct h; reflexivity.
Qed.

(** *** The bytes [footer.encode] produces *)

Definition padding (used : nat) : bytes := repeat 0 (40 - used).

Lemma EncodeVarints_length (h : Handle) : (2 <= length (EncodeVarints h) <= 20)%nat.
Proof. pose proof (EncodeVarints_len h) as H. unfold len in H. lia. Qed.

Lemma footer_encode_levelDB (f : footer) (buf : bytes) (version : Z) :
  AsTuple (format f) = Some (levelDBMagic, version) ->
  levelDBFooterLen <= len buf ->
  footer_encode f buf
  = Ok ((EncodeVarints (metaindexBH f) ++ EncodeVarints (indexBH f)
         ++ padding (length (EncodeVarints (metaindexBH f))
                     + length (EncodeVarints (indexBH f))))
        ++ levelDBMagic).
Proof.
  intros Hfmt Hcap. unfold footer_encode. rewrite Hfmt.
  rewrite bytes_eqb_refl.
  destruct (Z.ltb_spec (len buf) levelDBFooterLen) as [C | _]; [lia |].
  change (Z.to_nat levelDBFooterLen) with 48%nat.
  set (m := EncodeVarints (metaindexBH f)).
  set (i := EncodeVarints (indexBH f)).
  pose proof (EncodeVarints_length (metaindexBH f)) as Hm. fold m in Hm.
  pose proof (EncodeVarints_length (indexBH f)) as Hi. fold i in Hi.
  set (w := m ++ i ++ padding (length m + length i)).
  assert (Hw : len w = 40).
  { unfold w, padding. rewrite !len_app, len_repeat. unfold len. lia. }
  assert (E1 : copy_at (repeat 0 48) 0 m = m ++ repeat 0 (48 - length m)).
  { apply (copy_at_zeros [] m 48). lia. }
  assert (E2 : copy_at (m ++ repeat 0 (48 - length m)) (len m) i = w ++ repeat 0 8).
  { rewrite copy_at_zeros by lia. unfold w, padding.
    rewrite <- !app_assoc. do 2 f_equal.
    rewrite <- repeat_app. f_equal. lia. }
  assert (E3 : copy_at (w ++ repeat 0 8) (len (w ++ repeat 0 8) - len levelDBMagic)
                 levelDBMagic = w ++ levelDBMagic).
  { replace (len (w ++ repeat 0 8) - len levelDBMagic) with (len w)
      by (rewrite len_app, len_repeat, Hw; reflexivity).
    rewrite copy_at_zeros by (simpl; lia).
    change (8 - length levelDBMagic)%nat with 0%nat. simpl repeat.
    apply app_nil_r. }
  cbv zeta. rewrite E1, E2, E3.
  reflexivity.
Qed.

Lemma footer_encode_rocksDB (f : footer) (buf magic : bytes) (version : Z) :
  AsTuple (format f) = Some (magic, version) ->
  bytes_eqb magic levelDBMagic = false ->
  bytes_eqb magic rocksDBMagic || bytes_eqb magic pebbleDBMagic = true ->
  (checksum f =? ChecksumTypeNone) || (checksum f =? ChecksumTypeCRC32c)
  || (checksum f =? ChecksumTypeXXHash) || (checksum f =? ChecksumTypeXXHash64) = true ->
  rocksDBFooterLen <= len buf ->
  footer_encode f buf
  = Ok ((([checksum f] ++ EncodeVarints (metaindexBH f) ++ EncodeVarints (indexBH f)
          ++ padding (length (EncodeVarints (metaindexBH f))
                      + length (EncodeVarints (indexBH f))))
         ++ LittleEndian_PutUint32 version) ++ magic).
Proof.
  intros Hfmt Hnl Hrp Hck Hcap. unfold footer_encode. rewrite Hfmt, Hnl, Hrp, Hck.
  assert (Hmagic : length magic = 8%nat).
  { apply orb_true_iff in Hrp as [H | H]; apply bytes_eqb_eq in H; subst magic;
      reflexivity. }
  destruct (Z.ltb_spec (len buf) rocksDBFooterLen) as [C | _]; [lia |].
  change (Z.to_nat rocksDBFooterLen) with 53%nat.
  set (m := EncodeVarints (metaindexBH f)).
  set (i := EncodeVarints (indexBH f)).
  pose proof (EncodeVarints_length (metaindexBH f)) as Hm. fold m in Hm.
  pose proof (EncodeVarints_length (indexBH f)) as Hi. fold i in Hi.
  set (w := [checksum f] ++ m ++ i ++ padding (length m + length i)).
  assert (Hw : len w = 41).
  { unfold w, padding. rewrite !len_app, len_repeat. unfold len.
    change (length [checksum f]) with 1%nat. lia. }
  set (w2 := w ++ LittleEndian_PutUint32 version).
  assert (Hw2 : len w2 = 45).
  { unfold w2. rewrite len_app, Hw. reflexivity. }
  assert (E0 : copy_at (repeat 0 53) 0 [checksum f] = [checksum f] ++ repeat 0 52).
  { apply (copy_at_zeros [] [checksum f] 53). simpl. lia. }
  assert (E1 : copy_at ([checksum f] ++ repeat 0 52) 1 m
               = ([checksum f] ++ m) ++ repeat 0 (52 - length m)).
  { apply (copy_at_zeros [checksum f] m 52). lia. }
  assert (E2 : copy_at (([checksum f] ++ m) ++ repeat 0 (52 - length m)) (1 + len m) i
               = w ++ repeat 0 12).
  { replace (1 + len m) with (len ([checksum f] ++ m))
      by (rewrite len_app; reflexivity).
    rewrite copy_at_zeros by lia. unfold w, padding.
    rewrite <- !app_assoc. do 3 f_equal.
    rewrite <- repeat_app. f_equal. lia. }
  assert (E3 : copy_at (w ++ repeat 0 12) rocksDBVersionOffset
                 (LittleEndian_PutUint32 version) = w2 ++ repeat 0 8).
  { replace rocksDBVersionOffset with (len w) by (rewrite Hw; reflexivity).
    rewrite copy_at_zeros by (simpl; lia). reflexivity. }
  assert (E4 : copy_at (w2 ++ repeat 0 8) (len (w2 ++ repeat 0 8) - len rocksDBMagic)
                 magic = w2 ++ magic).
  { replace (len (w2 ++ repeat 0 8) - len rocksDBMagic) with (len w2)
      by (rewrite len_app, len_repeat, Hw2; reflexivity).
    rewrite copy_at_zeros by lia.
    rewrite Hmagic. simpl repeat. apply app_nil_r. }
  cbv zeta. rewrite E0, E1, E2, E3, E4.
  reflexivity.
Qed.

(** *** Parsing what was encoded *)

(** A handle lies within a file of [size] bytes. *)
Definition handleWithin (h : Handle) (size : Z) : Prop :=
  0 <= Offset h /\ 0 <= Length h /\ Offset h + Length h <= size.

Lemma handleWithin_u64 (h : Handle) (size : Z) :
  handleWithin h size -> size < 2 ^ 63 -> handle_is_u64 h.
Proof.
  intros (Ho & Hl & Hs) Hsz. unfold handle_is_u64.
  assert (2 ^ 63 < 2 ^ 64) by reflexivity. lia.
Qed.

Lemma parseFooter_handles_encoded (f0 : footer) (m i : Handle) (rest : bytes) (size : Z) :
  0 <= size < 2 ^ 63 ->
  handleWithin m size -> handleWithin i size ->
  parseFooter_handles f0 (EncodeVarints m ++ EncodeVarints i ++ rest) size
  = Ok (mkFooter (format f0) (checksum f0) m i (footerBH f0)).
Proof.
  intros Hsz Hm Hi.
  assert (H64 : 2 ^ 63 < 2 ^ 64) by reflexivity.
  pose proof (handleWithin_u64 m size Hm ltac:(lia)) as Hmu.
  pose proof (handleWithin_u64 i size Hi ltac:(lia)) as Hiu.
  destruct Hm as (Hm1 & Hm2 & Hm3). destruct Hi as (Hi1 & Hi2 & Hi3).
  unfold parseFooter_handles.
  rewrite DecodeHandle_EncodeVarints by exact Hmu.
  pose proof (EncodeVarints_len m) as Lm. pose proof (EncodeVarints_len i) as Li.
  destruct (Z.eqb_spec (len (EncodeVarints m)) 0) as [C | _]; [lia |].
  rewrite (u64_small size) by lia.
  rewrite (u64_small (Offset m + Length m)) by lia.
  destruct (Z.ltb_spec size (Offset m + Length m)) as [C | _]; [lia |].
  cbn [orb]. rewrite slice_from_app.
  rewrite DecodeHandle_EncodeVarints by exact Hiu.
  destruct (Z.eqb_spec (len (EncodeVarints i)) 0) as [C | _]; [lia |].
  rewrite (u64_small (Offset i + Length i)) by lia.
  destruct (Z.ltb_spec size (Offset i + Length i)) as [C | _]; [lia |].
  reflexivity.
Qed.

Lemma padding_len (used : nat) : len (padding used) = Z.of_nat (40 - used).
Proof. unfold padding. apply len_repeat. Qed.

Lemma parseFooter_levelDB_layout (pre : bytes) (m i : Handle) (off size : Z) :
  0 <= size < 2 ^ 63 ->
  handleWithin m size -> handleWithin i size ->
  let body := EncodeVarints m ++ EncodeVarints i
              ++ padding (length (EncodeVarints m) + length (EncodeVarints i)) in
  parseFooter (pre ++ body ++ levelDBMagic) off size
  = Ok (mkFooter TableFormatLevelDB ChecksumTypeCRC32c m i
          (mkHandle (u64 (u64 (off + (len pre + 48)) - levelDBFooterLen)) 48)).
Proof.
  intros Hsz Hm Hi body.
  pose proof (EncodeVarints_length m) as Lm. pose proof (EncodeVarints_length i) as Li.
  assert (Hbody : len body = 40).
  { unfold body. rewrite !len_app, padding_len. unfold len. lia. }
  assert (Hlen : len (pre ++ body ++ levelDBMagic) = len pre + 48).
  { rewrite !len_app, Hbody. change (len levelDBMagic) with 8. lia. }
  pose proof (len_nonneg pre) as Hpre.
  unfold parseFooter. rewrite Hlen.
  change (len rocksDBMagic) with 8. unfold levelDBFooterLen.
  destruct (Z.ltb_spec (len pre + 48) 8) as [C | _]; [lia |].
  assert (Emagic : slice_from (pre ++ body ++ levelDBMagic) (len pre + 48 - 8)
                   = levelDBMagic).
  { rewrite app_assoc. apply slice_from_app_at. rewrite len_app, Hbody. lia. }
  rewrite Emagic. rewrite bytes_eqb_refl.
  destruct (Z.ltb_spec (len pre + 48) 48) as [C | _]; [lia |].
  assert (Ebuf : slice_from (pre ++ body ++ levelDBMagic) (len pre + 48 - 48)
                 = body ++ levelDBMagic).
  { apply slice_from_app_at. lia. }
  rewrite Ebuf.
  assert (Elen : u64 (len (body ++ levelDBMagic)) = 48).
  { rewrite len_app, Hbody. reflexivity. }
  rewrite Elen.
  unfold body. rewrite <- !app_assoc.
  rewrite parseFooter_handles_encoded by assumption.
  reflexivity.
Qed.

Lemma parseFooter_rocksDB_layout (pre magic : bytes) (version c : Z) (fmt : TableFormat)
      (m i : Handle) (off size : Z) :
  bytes_eqb magic levelDBMagic = false ->
  bytes_eqb magic rocksDBMagic || bytes_eqb magic pebbleDBMagic = true ->
  ParseTableFormat magic (LittleEndian_Uint32 (LittleEndian_PutUint32 version)) = Ok fmt ->
  (c =? ChecksumTypeCRC32c) || (c =? ChecksumTypeXXHash64) = true ->
  0 <= size < 2 ^ 63 ->
  handleWithin m size -> handleWithin i size ->
  let body := [c] ++ EncodeVarints m ++ EncodeVarints i
              ++ padding (length (EncodeVarints m) + length (EncodeVarints i)) in
  parseFooter (pre ++ (body ++ LittleEndian_PutUint32 version) ++ magic) off size
  = Ok (mkFooter fmt c m i
          (mkHandle (u64 (u64 (off + (len pre + 53)) - rocksDBFooterLen)) 53)).
Proof.
  intros Hnl Hrp Hfmt Hc Hsz Hm Hi body.
  pose proof (EncodeVarints_length m) as Lm. pose proof (EncodeVarints_length i) as Li.
  assert (Hmagic : len magic = 8).
  { apply orb_true_iff in Hrp as [H | H]; apply bytes_eqb_eq in H; subst magic;
      reflexivity. }
  assert (Hbody : len body = 41).
  { unfold body. rewrite !len_app, padding_len. unfold len.
    change (length [c]) with 1%nat. lia. }
  set (ver := LittleEndian_PutUint32 version) in *.
  assert (Hver : len ver = 4) by reflexivity.
  assert (Hlen : len (pre ++ (body ++ ver) ++ magic) = len pre + 53).
  { rewrite !len_app, Hbody, Hver, Hmagic. lia. }
  pose proof (len_nonneg pre) as Hpre.
  unfold parseFooter. rewrite Hlen.
  change (len rocksDBMagic) with 8. change rocksDBFooterLen with 53.
  destruct (Z.ltb_spec (len pre + 53) 8) as [C | _]; [lia |].
  assert (Emagic : slice_from (pre ++ (body ++ ver) ++ magic) (len pre + 53 - 8) = magic).
  { rewrite app_assoc. apply slice_from_app_at. rewrite !len_app, Hbody, Hver. lia. }
  rewrite Emagic, Hnl, Hrp.
  destruct (Z.ltb_spec (len pre + 53) 53) as [C | _]; [lia |].
  assert (Ebuf : slice_from (pre ++ (body ++ ver) ++ magic) (len pre + 53 - 53)
                 = (body ++ ver) ++ magic).
  { apply slice_from_app_at. lia. }
  rewrite Ebuf.
  assert (Elen : u64 (len ((body ++ ver) ++ magic)) = 53).
  { rewrite !len_app, Hbody, Hver, Hmagic. reflexivity. }
  rewrite Elen.
  assert (Ever : slice ((body ++ ver) ++ magic) rocksDBVersionOffset rocksDBMagicOffset
                 = ver).
  { rewrite <- app_assoc. apply slice_app_mid.
    - rewrite Hbody. reflexivity.
    - rewrite Hbody, Hver. reflexivity. }
  rewrite Ever. rewrite Hfmt. cbn [bind].
  assert (Enth : nth 0 ((body ++ ver) ++ magic) 0 = c) by reflexivity.
  rewrite Enth.
  assert (Erest : slice_from ((body ++ ver) ++ magic) 1
                  = EncodeVarints m ++ EncodeVarints i
                    ++ (padding (length (EncodeVarints m) + length (EncodeVarints i))
                        ++ ver ++ magic)).
  { unfold body. rewrite <- !app_assoc. reflexivity. }
  rewrite Erest.
  rewrite !parseFooter_handles_encoded by assumption.
  apply orb_true_iff in Hc as [H | H]; apply Z.eqb_eq in H; subst c; reflexivity.
Qed.

(** *** Round trip of the footer codec *)

Definition wf_footer : footer :=
  mkFooter TableFormatPebblev3 ChecksumTypeXXHash64
           (mkHandle 1000 200) (mkHandle 1300 77) zeroHandle.

(** C9.  Round trip: a footer with a recognized table format, a checksum
    type valid for that format, and metaindex/index handles within the file,
    once encoded, parses back (at the footer's offset in a file of that size,
    whatever bytes precede it in the buffer read) to the same table format,
    checksum type, metaindex handle and index handle. *)
Theorem footer_encode_parse_roundtrip (f : footer) (scratch pre : bytes) (size : Z) :
  AsTuple (format f) <> None ->
  checksumValidFor (format f) (checksum f) = true ->
  0 <= size < 2 ^ 63 ->
  handleWithin (metaindexBH f) size ->
  handleWithin (indexBH f) size ->
  maxFooterLen <= len scratch ->
  exists enc f',
    footer_encode f scratch = Ok enc /\
    parseFooter (pre ++ enc) (size - len (pre ++ enc)) size = Ok f' /\
    format f' = format f /\ checksum f' = checksum f /\
    metaindexBH f' = metaindexBH f /\ indexBH f' = indexBH f.
Proof.
  intros Hfmt Hck Hsz Hm Hi Hcap.
  destruct f as [fmt c m i fb]. cbn [format checksum metaindexBH indexBH] in *.
  change maxFooterLen with 53 in Hcap.
  assert (Hrocks : forall magic version,
    AsTuple fmt = Some (magic, version) ->
    bytes_eqb magic levelDBMagic = false ->
    bytes_eqb magic rocksDBMagic || bytes_eqb magic pebbleDBMagic = true ->
    ParseTableFormat magic (LittleEndian_Uint32 (LittleEndian_PutUint32 version)) = Ok fmt ->
    (c =? ChecksumTypeCRC32c) || (c =? ChecksumTypeXXHash64) = true ->
    exists enc f',
      footer_encode (mkFooter fmt c m i fb) scratch = Ok enc /\
      parseFooter (pre ++ enc) (size - len (pre ++ enc)) size = Ok f' /\
      format f' = fmt /\ checksum f' = c /\ metaindexBH f' = m /\ indexBH f' = i).
  { intros magic version Ht Hnl Hrp Hp Hc.
    eexists. eexists. split.
    - apply (footer_encode_rocksDB _ scratch magic version); cbn [format checksum];
        try assumption; change rocksDBFooterLen with 53; lia.
    - cbn [metaindexBH indexBH checksum].
      rewrite (parseFooter_rocksDB_layout pre magic version c fmt m i) by assumption.
      cbn [format checksum metaindexBH indexBH]. repeat split; reflexivity. }
  destruct fmt; cbn [checksumValidFor] in Hck; cbn [AsTuple] in Hfmt.
  - congruence.
  - apply Z.eqb_eq in Hck. subst c.
    eexists. eexists. split.
    + apply (footer_encode_levelDB _ scratch levelDBFormatVersion);
        [reflexivity | change levelDBFooterLen with 48; lia].
    + cbn [metaindexBH indexBH].
      rewrite (parseFooter_levelDB_layout pre m i) by assumption.
      cbn [format checksum metaindexBH indexBH]. repeat split; reflexivity.
  - apply (Hrocks rocksDBMagic rocksDBFormatVersion2); try reflexivity; assumption.
  - apply (Hrocks pebbleDBMagic 1); try reflexivity; assumption.
  - apply (Hrocks pebbleDBMagic 2); try reflexivity; assumption.
  - apply (Hrocks pebbleDBMagic 3); try reflexivity; assumption.
  - apply (Hrocks pebbleDBMagic 4); try reflexivity; assumption.
Qed.

Lemma footer_encode_parse_roundtrip_witness :
  exists enc f',
    footer_encode wf_footer (repeat 0 53) = Ok enc /\
    parseFooter ([9; 9] ++ enc) (5000 - len ([9; 9] ++ enc)) 5000 = Ok f' /\
    format f' = format wf_footer /\ checksum f' = checksum wf_footer /\
    metaindexBH f' = metaindexBH wf_footer /\ indexBH f' = indexBH wf_footer.
Proof.
  apply footer_encode_parse_roundtrip.
  - discriminate.
  - reflexivity.
  - split; [discriminate | reflexivity].
  - unfold handleWithin. cbn. repeat split; discriminate.
  - unfold handleWithin. cbn. repeat split; discriminate.
  - discriminate.
Defined.

(** *** What a successful parse went through *)

Lemma len_slice_from {A : Type} (buf : list A) (lo : Z) :
  0 <= lo <= len buf -> len (slice_from buf lo) = len buf - lo.
Proof. intros H. unfold slice_from, len in *. rewrite length_skipn. lia. Qed.

Lemma parseFooter_handles_Ok_inv (f0 f : footer) (buf : bytes) (size : Z) :
  parseFooter_handles f0 buf size = Ok f ->
  exists n1 n2,
    DecodeHandle buf = (metaindexBH f, n1) /\ n1 <> 0 /\
    u64 (Offset (metaindexBH f) + Length (metaindexBH f)) <= u64 size /\
    DecodeHandle (slice_from buf n1) = (indexBH f, n2) /\ n2 <> 0 /\
    u64 (Offset (indexBH f) + Length (indexBH f)) <= u64 size /\
    format f = format f0 /\ checksum f = checksum f0 /\ footerBH f = footerBH f0.
Proof.
  unfold parseFooter_handles.
  destruct (DecodeHandle buf) as [mBH n1] eqn:E1.
  destruct (Z.eqb_spec n1 0) as [| N1]; [discriminate |].
  destruct (Z.ltb_spec (u64 size) (u64 (Offset mBH + Length mBH))) as [| L1];
    [discriminate |].
  cbn [orb].
  destruct (DecodeHandle (slice_from buf n1)) as [iBH n2] eqn:E2.
  destruct (Z.eqb_spec n2 0) as [| N2]; [discriminate |].
  destruct (Z.ltb_spec (u64 size) (u64 (Offset iBH + Length iBH))) as [| L2];
    [discriminate |].
  cbn [orb]. intros H. injection H as <-.
  exists n1, n2. cbn [metaindexBH indexBH format checksum footerBH].
  repeat split; assumption.
Qed.

(** The last [n] bytes of a buffer, as [parseFooter] reslices it. *)
Definition lastBytes (buf : bytes) (n : Z) : bytes := slice_from buf (len buf - n).

Lemma parseFooter_Ok_inv (buf : bytes) (off size : Z) (f : footer) :
  parseFooter buf off size = Ok f ->
  8 <= len buf /\
  ((trailingMagic buf = levelDBMagic /\ levelDBFooterLen <= len buf /\
    exists f0,
      format f0 = TableFormatLevelDB /\ checksum f0 = ChecksumTypeCRC32c /\
      Length (footerBH f0) = levelDBFooterLen /\
      parseFooter_handles f0 (lastBytes buf levelDBFooterLen) size = Ok f)
   \/
   ((trailingMagic buf = rocksDBMagic \/ trailingMagic buf = pebbleDBMagic) /\
    rocksDBFooterLen <= len buf /\
    exists f0,
      ParseTableFormat (trailingMagic buf)
        (LittleEndian_Uint32
           (slice (lastBytes buf rocksDBFooterLen) rocksDBVersionOffset rocksDBMagicOffset))
      = Ok (format f0) /\
      checksum f0 = nth 0 (lastBytes buf rocksDBFooterLen) 0 /\
      (checksum f0 = ChecksumTypeCRC32c \/ checksum f0 = ChecksumTypeXXHash64) /\
      Length (footerBH f0) = rocksDBFooterLen /\
      parseFooter_handles f0 (slice_from (lastBytes buf rocksDBFooterLen) 1) size = Ok f)).
Proof.
  unfold parseFooter, trailingMagic, lastBytes.
  change (len rocksDBMagic) with 8.
  destruct (Z.ltb_spec (len buf) 8) as [| H8]; [discriminate |].
  set (magic := slice_from buf (len buf - 8)).
  destruct (bytes_eqb magic levelDBMagic) eqn:El.
  - destruct (Z.ltb_spec (len buf) levelDBFooterLen) as [| H48]; [discriminate |].
    intros H. split; [exact H8 |]. left.
    apply bytes_eqb_eq in El. split; [exact El |]. split; [exact H48 |].
    refine (ex_intro _ _ (conj _ (conj _ (conj _ H)))); [reflexivity .. |].
    cbn [footerBH Length]. rewrite len_slice_from.
    + replace (len buf - (len buf - levelDBFooterLen)) with levelDBFooterLen by lia.
      reflexivity.
    + unfold levelDBFooterLen in *. lia.
  - destruct (bytes_eqb magic rocksDBMagic || bytes_eqb magic pebbleDBMagic) eqn:Erp;
      [| discriminate].
    destruct (Z.ltb_spec (len buf) rocksDBFooterLen) as [| H53]; [discriminate |].
    unfold bind.
    destruct (ParseTableFormat magic _) as [fmt | e | msg] eqn:Ep; try discriminate.
    assert (Hlen : u64 (len (slice_from buf (len buf - rocksDBFooterLen)))
                   = rocksDBFooterLen).
    { rewrite len_slice_from by (change rocksDBFooterLen with 53 in *; lia).
      replace (len buf - (len buf - rocksDBFooterLen)) with rocksDBFooterLen by lia.
      reflexivity. }
    assert (Hm : magic = rocksDBMagic \/ magic = pebbleDBMagic).
    { apply orb_true_iff in Erp as [H | H]; apply bytes_eqb_eq in H; auto. }
    destruct (Z.eqb_spec (nth 0 (slice_from buf (len buf - rocksDBFooterLen)) 0)
                ChecksumTypeCRC32c) as [Ec | Nc].
    + intros H. split; [exact H8 |]. right. split; [exact Hm |]. split; [exact H53 |].
      match type of H with parseFooter_handles ?f0 _ _ = _ => exists f0 end.
      cbn [format checksum footerBH Length].
      split; [reflexivity |]. split; [symmetry; exact Ec |].
      split; [left; reflexivity |]. split; [exact Hlen | exact H].
    + destruct (Z.eqb_spec (nth 0 (slice_from buf (len buf - rocksDBFooterLen)) 0)
                  ChecksumTypeXXHash64) as [Ex | Nx]; [| discriminate].
      intros H. split; [exact H8 |]. right. split; [exact Hm |]. split; [exact H53 |].
      match type of H with parseFooter_handles ?f0 _ _ = _ => exists f0 end.
      cbn [format checksum footerBH Length].
      split; [reflexivity |]. split; [symmetry; exact Ex |].
      split; [right; reflexivity |]. split; [exact Hlen | exact H].
Qed.

Lemma parseFooter_layout (buf : bytes) (off size : Z) (f : footer) :
  parseFooter buf off size = Ok f ->
  (trailingMagic buf = levelDBMagic /\
   Length (footerBH f) = levelDBFooterLen /\
   format f = TableFormatLevelDB /\ checksum f = ChecksumTypeCRC32c /\
   exists n, DecodeHandle (lastBytes buf levelDBFooterLen) = (metaindexBH f, n))
  \/
  ((trailingMagic buf = rocksDBMagic \/ trailingMagic buf = pebbleDBMagic) /\
   Length (footerBH f) = rocksDBFooterLen /\
   checksum f = nth 0 (lastBytes buf rocksDBFooterLen) 0 /\
   ParseTableFormat (trailingMagic buf)
     (LittleEndian_Uint32
        (slice (lastBytes buf rocksDBFooterLen) rocksDBVersionOffset rocksDBMagicOffset))
   = Ok (format f) /\
   exists n, DecodeHandle (slice_from (lastBytes buf rocksDBFooterLen) 1)
             = (metaindexBH f, n)).
Proof.
  intros H. apply parseFooter_Ok_inv in H as [_ [H | H]].
  - destruct H as (Hm & _ & f0 & Hf & Hc & Hl & Hh).
    apply parseFooter_handles_Ok_inv in Hh
      as (n1 & n2 & D1 & _ & _ & _ & _ & _ & Ef & Ec & Eb).
    left. rewrite Ef, Ec, Eb. repeat split; try assumption. now exists n1.
  - destruct H as (Hm & _ & f0 & Hp & Hc & _ & Hl & Hh).
    apply parseFooter_handles_Ok_inv in Hh
      as (n1 & n2 & D1 & _ & _ & _ & _ & _ & Ef & Ec & Eb).
    right. rewrite Ef, Ec, Eb. repeat split; try assumption. now exists n1.
Qed.

(** Whatever the magic, a parse that fails for an unrecognized magic says so,
    and no other failure does. *)
Lemma parseFooter_bad_magic (buf : bytes) (off size : Z) :
  8 <= len buf ->
  recognizedMagic (trailingMagic buf) = false ->
  parseFooter buf off size = Err (CorruptionError "(bad magic number)").
Proof.
  intros H8 Hr. unfold parseFooter. fold (trailingMagic buf).
  change (len rocksDBMagic) with 8.
  destruct (Z.ltb_spec (len buf) 8) as [| _]; [lia |].
  unfold recognizedMagic in Hr.
  apply orb_false_iff in Hr as [Hr Hp]. apply orb_false_iff in Hr as [Hl Hr].
  now rewrite Hl, Hr, Hp.
Qed.

Lemma parseFooter_handles_not_bad_magic (f0 : footer) (buf : bytes) (size : Z) :
  parseFooter_handles f0 buf size <> Err (CorruptionError "(bad magic number)").
Proof.
  unfold parseFooter_handles.
  destruct (DecodeHandle buf) as [mBH n1].
  destruct ((n1 =? 0) || _); [discriminate |].
  destruct (DecodeHandle (slice_from buf n1)) as [iBH n2].
  destruct ((n2 =? 0) || _); discriminate.
Qed.

Lemma parseFooter_recognized_not_bad_magic (buf : bytes) (off size : Z) :
  recognizedMagic (trailingMagic buf) = true ->
  parseFooter buf off size <> Err (CorruptionError "(bad magic number)").
Proof.
  intros Hr. unfold parseFooter. fold (trailingMagic buf).
  destruct (len buf <? len rocksDBMagic); [discriminate |].
  unfold recognizedMagic in Hr.
  destruct (bytes_eqb (trailingMagic buf) levelDBMagic) eqn:El.
  - destruct (len buf <? levelDBFooterLen); [discriminate |].
    apply parseFooter_handles_not_bad_magic.
  - cbn [orb] in Hr. rewrite Hr.
    destruct (len buf <? rocksDBFooterLen); [discriminate |].
    unfold ParseTableFormat. rewrite El.
    destruct (bytes_eqb (trailingMagic buf) rocksDBMagic) eqn:Er.
    + destruct (_ =? rocksDBFormatVersion2); [| discriminate].
      cbn [bind].
      destruct (_ =? ChecksumTypeCRC32c);
        [apply parseFooter_handles_not_bad_magic |].
      destruct (_ =? ChecksumTypeXXHash64);
        [apply parseFooter_handles_not_bad_magic | discriminate].
    + cbn [orb] in Hr. rewrite Hr.
      repeat (match goal with
              | |- context [if ?v =? ?k then Ok _ else _] => destruct (v =? k)
              end;
              [cbn [bind];
               destruct (_ =? ChecksumTypeCRC32c);
                 [apply parseFooter_handles_not_bad_magic |];
               destruct (_ =? ChecksumTypeXXHash64);
                 [apply parseFooter_handles_not_bad_magic | discriminate] |]).
      discriminate.
Qed.

(** *** Validation performed by footer parsing *)

Lemma readFooter_too_small (f : Readable) (rh : option ReadHandle) :
  Size f < minFooterLen ->
  exists e, readFooter f rh = Err e /\ IsCorruptionError e = true.
Proof.
  intros H. unfold readFooter.
  destruct (Z.ltb_spec (Size f) minFooterLen) as [_ | C]; [| lia].
  eexists. split; reflexivity.
Qed.

(** The bound a parsed handle is known to meet: its end, computed in uint64
    arithmetic, does not pass the file size. *)
Lemma parseFooter_Ok_handles_u64 (buf : bytes) (off size : Z) (f : footer) :
  parseFooter buf off size = Ok f ->
  u64 (Offset (metaindexBH f) + Length (metaindexBH f)) <= u64 size /\
  u64 (Offset (indexBH f) + Length (indexBH f)) <= u64 size.
Proof.
  intros H. apply parseFooter_Ok_inv in H as [_ [H | H]].
  - destruct H as (_ & _ & f0 & _ & _ & _ & Hh).
    apply parseFooter_handles_Ok_inv in Hh as (n1 & n2 & _ & _ & B1 & _ & _ & B2 & _).
    now split.
  - destruct H as (_ & _ & f0 & _ & _ & _ & _ & Hh).
    apply parseFooter_handles_Ok_inv in Hh as (n1 & n2 & _ & _ & B1 & _ & _ & B2 & _).
    now split.
Qed.

Lemma readFooter_bad_magic (f : Readable) :
  minFooterLen <= Size f ->
  readError f = None ->
  recognizedMagic (trailingMagic (data f)) = false ->
  exists e, readFooter f None = Err e /\ IsCorruptionError e = true.
Proof.
  intros Hsize Hread Hmagic. unfold readFooter.
  destruct (Z.ltb_spec (Size f) minFooterLen) as [C | _]; [lia |].
  unfold Size, minFooterLen, levelDBFooterLen, maxFooterLen in *.
  change rocksDBFooterLen with 53.
  set (off := len (data f) - 53).
  assert (Hbuf : forall o n, o = len (data f) - n -> 8 <= n -> 0 <= o ->
            8 <= len (slice (data f) o (o + n)) /\
            trailingMagic (slice (data f) o (o + n)) = trailingMagic (data f)).
  { intros o n Ho Hn Hpos. unfold slice.
    replace (o + n - o) with n by lia.
    assert (Hl : length (skipn (Z.to_nat o) (data f)) = Z.to_nat n).
    { rewrite length_skipn. unfold len in Ho. lia. }
    rewrite firstn_all2 by lia.
    split.
    - unfold len. rewrite Hl. lia.
    - unfold trailingMagic, slice_from, len. rewrite Hl, skipn_skipn.
      f_equal. change (length rocksDBMagic) with 8%nat. unfold len in Ho. lia. }
  destruct (Z.ltb_spec off 0) as [Hneg | Hpos]; unfold ReadAt; rewrite Hread.
  - destruct (Hbuf 0 (len (data f)) ltac:(lia) ltac:(lia) ltac:(lia)) as [H8 Hm].
    rewrite (parseFooter_bad_magic _ 0 _ H8) by (now rewrite Hm).
    eexists. split; reflexivity.
  - destruct (Hbuf off 53 ltac:(unfold off; lia) ltac:(lia) Hpos) as [H8 Hm].
    rewrite (parseFooter_bad_magic _ off _ H8) by (now rewrite Hm).
    eexists. split; reflexivity.
Qed.

(** As long as the sum does not leave uint64, a parsed handle does end
    within the file. *)
Lemma parseFooter_Ok_handles_within (buf : bytes) (off size : Z) (f : footer) :
  parseFooter buf off size = Ok f ->
  0 <= size < 2 ^ 63 ->
  (0 <= Offset (metaindexBH f) + Length (metaindexBH f) < 2 ^ 64 ->
   Offset (metaindexBH f) + Length (metaindexBH f) <= size) /\
  (0 <= Offset (indexBH f) + Length (indexBH f) < 2 ^ 64 ->
   Offset (indexBH f) + Length (indexBH f) <= size).
Proof.
  intros H Hsize. apply parseFooter_Ok_handles_u64 in H as [Hm Hi].
  assert (2 ^ 63 < 2 ^ 64) by reflexivity.
  rewrite (u64_small size) in Hm, Hi by lia.
  split; intros Hb; [rewrite u64_small in Hm by exact Hb | rewrite u64_small in Hi by exact Hb];
    assumption.
Qed.

(** A 53-byte table file that is nothing but a footer: CRC32c checksum
    byte, a metaindex handle of offset 2^64 - 1 and length 1, an empty index
    handle, padding, version 2 and the RocksDB magic. *)
Definition overflowing_footer_file : bytes :=
  [1] ++ [255; 255; 255; 255; 255; 255; 255; 255; 255; 1] ++ [1] ++ [0; 0]
  ++ repeat 0 27 ++ [2; 0; 0; 0] ++ rocksDBMagic.

(** C4.  Footer parsing is to report corruption whenever a decoded handle's
    offset plus length exceeds the file size.  On [overflowing_footer_file]
    the sum wraps around in uint64, the check passes, and [readFooter]
    returns a footer whose metaindex handle ends 2^64 - 53 bytes past the end
    of the file. *)
Theorem readFooter_accepts_handle_past_file_end :
  exists f,
    readFooter (mkReadable overflowing_footer_file None) None = Ok f /\
    metaindexBH f = mkHandle (2 ^ 64 - 1) 1 /\
    Size (mkReadable overflowing_footer_file None)
    < Offset (metaindexBH f) + Length (metaindexBH f).
Proof.
  eexists. split; [vm_compute; reflexivity |].
  split; [reflexivity | vm_compute; reflexivity].
Qed.

(** *** Magics and layouts *)

(** [selectsFooterLen magic n]: some table whose trailing magic is [magic]
    parses, and its footer is taken to be [n] bytes long. *)
Definition selectsFooterLen (magic : bytes) (n : Z) : Prop :=
  exists buf off size f,
    trailingMagic buf = magic /\ parseFooter buf off size = Ok f /\
    Length (footerBH f) = n.

(** The reading of "three recognized magics select three footer
    layouts/sizes": the three magics select pairwise different footer
    sizes. *)
Definition three_magics_three_sizes : Prop :=
  exists n1 n2 n3,
    selectsFooterLen levelDBMagic n1 /\ selectsFooterLen rocksDBMagic n2 /\
    selectsFooterLen pebbleDBMagic n3 /\ n1 <> n2 /\ n1 <> n3 /\ n2 <> n3.

Definition rocksdb_footer_53 : bytes :=
  [1] ++ [10; 20] ++ [40; 5] ++ repeat 0 36 ++ [2; 0; 0; 0] ++ rocksDBMagic.

Definition leveldb_footer_48 : bytes :=
  [10; 20] ++ [40; 5] ++ repeat 0 36 ++ levelDBMagic.

Definition pebble_footer_53 : bytes :=
  [1] ++ [10; 20] ++ [40; 5] ++ repeat 0 36 ++ [2; 0; 0; 0] ++ pebbleDBMagic.

(** The sizes the three magics do select. *)
Lemma magics_select_48_53_53 :
  selectsFooterLen levelDBMagic 48 /\ selectsFooterLen rocksDBMagic 53 /\
  selectsFooterLen pebbleDBMagic 53.
Proof.
  split; [| split].
  - exists leveldb_footer_48, 0, 48. eexists. repeat split.
  - exists rocksdb_footer_53, 0, 53. eexists. repeat split.
  - exists pebble_footer_53, 0, 53. eexists. repeat split.
Qed.

(** C8, as stated, fails: the RocksDB and the Pebble magic select one and
    the same footer size, so the three magics do not select three sizes. *)
Lemma three_magics_two_sizes : ~ three_magics_three_sizes.
Proof.
  intros (n1 & n2 & n3 & _ & H2 & H3 & _ & _ & Hne).
  destruct H2 as (b2 & o2 & s2 & f2 & M2 & P2 & L2).
  destruct H3 as (b3 & o3 & s3 & f3 & M3 & P3 & L3).
  apply parseFooter_layout in P2 as [(C & _) | (_ & E2 & _)];
    [rewrite M2 in C; discriminate |].
  apply parseFooter_layout in P3 as [(C & _) | (_ & E3 & _)];
    [rewrite M3 in C; discriminate |].
  congruence.
Qed.

(** C8, amended.  Footer parsing recognizes exactly three magic numbers, and
    they select two footer layouts: the LevelDB magic the 48-byte legacy
    layout (no checksum byte, no version field, handles from the first
    byte), the RocksDB and Pebble magics one shared 53-byte layout (leading
    checksum-type byte, handles from the second byte, 4-byte version field
    before the magic, which with the magic fixes the table format). *)
Theorem parseFooter_magic_selects_layout (buf : bytes) (off size : Z) :
  8 <= len buf ->
  (recognizedMagic (trailingMagic buf) = false
   <-> parseFooter buf off size = Err (CorruptionError "(bad magic number)"))
  /\
  (forall f, parseFooter buf off size = Ok f ->
     (trailingMagic buf = levelDBMagic /\
      Length (footerBH f) = 48 /\
      format f = TableFormatLevelDB /\ checksum f = ChecksumTypeCRC32c /\
      exists n, DecodeHandle (lastBytes buf 48) = (metaindexBH f, n))
     \/
     ((trailingMagic buf = rocksDBMagic \/ trailingMagic buf = pebbleDBMagic) /\
      Length (footerBH f) = 53 /\
      checksum f = nth 0 (lastBytes buf 53) 0 /\
      ParseTableFormat (trailingMagic buf)
        (LittleEndian_Uint32 (slice (lastBytes buf 53) 41 45)) = Ok (format f) /\
      exists n, DecodeHandle (slice_from (lastBytes buf 53) 1) = (metaindexBH f, n))).
Proof.
  intros H8. split.
  - split.
    + now apply parseFooter_bad_magic.
    + intros He. destruct (recognizedMagic (trailingMagic buf)) eqn:Hr;
        [| reflexivity].
      exfalso. exact (parseFooter_recognized_not_bad_magic buf off size Hr He).
  - intros f Hf. exact (parseFooter_layout buf off size f Hf).
Qed.

Lemma parseFooter_magic_selects_layout_witness :
  8 <= len rocksdb_footer_53 /\
  exists f, parseFooter rocksdb_footer_53 0 53 = Ok f /\ Length (footerBH f) = 53.
Proof.
  assert (H8 : 8 <= len rocksdb_footer_53) by (vm_compute; discriminate).
  split; [exact H8 |].
  pose proof (parseFooter_magic_selects_layout rocksdb_footer_53 0 53 H8) as [_ Hl].
  eexists. split; [vm_compute; reflexivity |].
  match goal with
  | |- Length (footerBH ?f) = _ =>
      destruct (Hl f ltac:(vm_compute; reflexivity)) as [(C & _) | (_ & L & _)];
        [vm_compute in C; discriminate | exact L]
  end.
Defined.

(** The encoder also takes the checksum types None and XXHash, which the
    parser refuses: these do not make the round trip. *)
Example encode_accepts_checksum_parse_refuses :
  exists enc,
    footer_encode (mkFooter TableFormatPebblev3 ChecksumTypeNone
                     (mkHandle 1000 200) (mkHandle 1300 77) zeroHandle)
                  (repeat 0 53) = Ok enc /\
    parseFooter enc (5000 - 53) 5000
    = Err (CorruptionError "(unsupported checksum type)").
Proof. eexists. split; reflexivity. Qed.

(** * Value separation *)

(** ** Keys, values, the sstable writer and the blob file writer *)

(** Modelled from the spec: the kinds of internal keys, declared in the base
    package, which is not among the sources: "Kind in Set, Delete,
    SingleDelete, Merge, RangeDelete, RangeKeySet, RangeKeyUnset,
    RangeKeyDelete". *)
Inductive InternalKeyKind : Type :=
| InternalKeyKindDelete
| InternalKeyKindSet
| InternalKeyKindMerge
| InternalKeyKindSingleDelete
| InternalKeyKindRangeDelete
| InternalKeyKindRangeKeySet
| InternalKeyKindRangeKeyUnset
| InternalKeyKindRangeKeyDelete.

Definition isMerge (k : InternalKeyKind) : bool :=
  match k with InternalKeyKindMerge => true | _ => false end.

(** Modelled from the spec: [base.InternalKey], declared outside the
    sources: "(user key, sequence number, kind)". *)
Record InternalKey : Type := mkInternalKey {
  UserKey : bytes;
  SeqNum : Z;
  Kind : InternalKeyKind
}.

(** Modelled from the spec: [base.ShortAttribute], declared outside the
    sources: the "small fixed-size summary of the value", a uint8. *)
Abbreviation ShortAttribute := Z (only parsing).

(** Modelled from the spec: [base.LazyValue] and its fetcher, declared
    outside the sources.  What a lazy value knows without being fetched (blob
    file number, value length, short attribute), and what fetching it
    gives. *)
Record LazyFetcher : Type := mkLazyFetcher {
  BlobFileNum : Z;
  AttributeValueLen : Z;
  AttributeShortAttribute : ShortAttribute;
  Fetch : result bytes
}.

Record LazyValue : Type := mkLazyValue {
  ValueOrHandle : bytes;
  Fetcher : LazyFetcher
}.

(** Modelled from the spec: [base.InternalValue], declared outside the
    sources: a value is stored in place, in a value block of the sstable,
    or as a handle into a blob file. *)
Inductive InternalValue : Type :=
| InPlaceValue (v : bytes)
| ValueBlockValue (lv : LazyValue)
| BlobValueHandle (lv : LazyValue).

Definition IsBlobValueHandle (v : InternalValue) : bool :=
  match v with BlobValueHandle _ => true | _ => false end.

Record InternalKV : Type := mkInternalKV { K : InternalKey; V : InternalValue }.

(** Modelled from the spec: [kv.Value(buf)], defined outside the sources:
    the value, fetched if need be.  The buffer is scratch
    space and is not modelled. *)
Definition Value (kv : InternalKV) : result bytes :=
  match V kv with
  | InPlaceValue v => Ok v
  | ValueBlockValue lv => Fetch (Fetcher lv)
  | BlobValueHandle lv => Fetch (Fetcher lv)
  end.

(** Modelled from the spec: [blob.HandleSuffix] and [blob.InlineHandle],
    declared outside the sources: the "compact handle (reference index, byte
    length, block/offset locator)" (preface and suffix
    flattened). *)
Record HandleSuffix : Type := mkHandleSuffix { BlockNum : Z; OffsetInBlock : Z }.

Record InlineHandle : Type := mkInlineHandle {
  ReferenceIndex : Z;
  ValueLen : Z;
  Suffix : HandleSuffix
}.

(** Modelled from the spec: [sstable.RawWriter], an interface declared
    outside the sources: the model keeps the calls made on
    it, each with the error it returned, and lets the writer decide that
    error from the calls before. *)
Inductive WriterCall : Type :=
| CallAdd (key : InternalKey) (value : bytes) (forceObsolete : bool)
| CallAddWithBlobHandle (key : InternalKey) (h : InlineHandle)
                        (attr : ShortAttribute) (forceObsolete : bool).

Record RawWriter : Type := mkRawWriter {
  calls : list (WriterCall * option error);
  refuses : list (WriterCall * option error) -> WriterCall -> option error
}.

Definition tw_call (tw : RawWriter) (c : WriterCall) : RawWriter * option error :=
  let e := refuses tw (calls tw) c in
  (mkRawWriter (calls tw ++ [(c, e)]) (refuses tw), e).

Definition tw_Add (tw : RawWriter) (key : InternalKey) (value : bytes)
           (forceObsolete : bool) : RawWriter * option error :=
  tw_call tw (CallAdd key value forceObsolete).

Definition tw_AddWithBlobHandle (tw : RawWriter) (key : InternalKey) (h : InlineHandle)
           (attr : ShortAttribute) (forceObsolete : bool) : RawWriter * option error :=
  tw_call tw (CallAddWithBlobHandle key h attr forceObsolete).

Definition errorResult (e : option error) : result unit :=
  match e with Some err => Err err | None => Ok tt end.

(** Modelled from the spec: [blob.FileWriter], declared outside the sources,
    "single-writer, append-only": the file it writes and the values appended
    so far; closing it yields "accumulated statistics (uncompressed value
    bytes, file length)". *)
Record FileWriter : Type := mkFileWriter { fwFileNum : Z; fwValues : list bytes }.

Record FileWriterStats : Type := mkFileWriterStats {
  UncompressedValueBytes : Z;
  FileLen : Z
}.

(** What the code takes from packages that are not among the sources: where
    the blob writer places a value, what closing it reports, how a handle
    suffix is decoded, whether invariant checks are compiled in, and the
    clock. *)
Record Externals : Type := mkExternals {
  blob_place : FileWriter -> bytes -> HandleSuffix;
  blob_Close : FileWriter -> result FileWriterStats;
  blob_DecodeHandleSuffix : bytes -> HandleSuffix;
  invariants_Enabled : bool;
  time_Now_Unix : Z
}.

(** Modelled from the spec: [w.AddValue(v)], defined outside the sources:
    "the value is appended", and the handle says where it went and how long
    it is. *)
Definition AddValue (X : Externals) (w : FileWriter) (v : bytes)
  : FileWriter * (Z * HandleSuffix) :=
  (mkFileWriter (fwFileNum w) (fwValues w ++ [v]), (u32 (len v), blob_place X w v)).

(** Modelled from the spec: [objstorage.ObjectMetadata] and
    [manifest.BlobFileMetadata], declared outside the sources, with the
    fields the policies read and write. *)
Record ObjectMetadata : Type := mkObjectMetadata { DiskFileNum : Z }.

Record BlobFileMetadata : Type := mkBlobFileMetadata {
  bmFileNum : Z;
  bmSize : Z;
  bmValueSize : Z;
  bmCreationTime : Z
}.

(** Modelled from the spec: [manifest.BlobReference], declared outside the
    sources: "(blob file number, value byte count, optional file metadata
    pointer)". *)
Record BlobReference : Type := mkBlobReference {
  FileNum : Z;
  ValueSize : Z;
  Metadata : option BlobFileMetadata
}.

(** Modelled from the spec: [compact.ValueSeparationMetadata], declared
    outside the sources: the "reference metadata" [FinishOutput] returns,
    with the fields the two policies fill in. *)
Record ValueSeparationMetadata : Type := mkValueSeparationMetadata {
  BlobReferences : list BlobReference;
  BlobReferenceSize : Z;
  BlobReferenceDepth : Z;
  BlobFileStats : FileWriterStats;
  BlobFileObject : ObjectMetadata;
  BlobFileMetadata_ : option BlobFileMetadata
}.

(** The zero value [compact.ValueSeparationMetadata{}]. *)
Definition emptyMetadata : ValueSeparationMetadata :=
  mkValueSeparationMetadata [] 0 0 (mkFileWriterStats 0 0) (mkObjectMetadata 0) None.

(** Modelled from the spec: [base.Comparer], declared outside the sources:
    the comparator and the prefix split are "injected pure functions". *)
Record Comparer : Type := mkComparer {
  Compare : bytes -> bytes -> Z;
  Split : bytes -> Z
}.

(** [comparer.Split.Prefix(k)] is [k[:Split(k)]]. *)
Definition Prefix (c : Comparer) (k : bytes) : bytes := slice k 0 (Split c k).

(** Modelled from the spec: [UserKeyPrefixBound], declared outside the
    sources: the configured "must stay in place" key-prefix range. *)
Record UserKeyPrefixBound : Type := mkUserKeyPrefixBound { Lower : bytes; Upper : bytes }.

(** Modelled from the spec: [UserKeyPrefixBound.IsEmpty], absent from the
    sources: no "must stay in place" range is configured when both ends are
    empty. *)
Definition IsEmpty (b : UserKeyPrefixBound) : bool :=
  (len (Lower b) =? 0) && (len (Upper b) =? 0).

Definition noBound : UserKeyPrefixBound := mkUserKeyPrefixBound [] [].

(** Modelled from the spec: [ShortAttributeExtractor], declared outside the
    sources: the user-supplied "attribute extractor", given the key, the
    length of its prefix and the value. *)
Definition ShortAttributeExtractor : Type := bytes -> Z -> bytes -> result ShortAttribute.

(** ** The policy that writes new blob files *)

Module writeNewBlobFiles.

(** The struct, without its scratch buffer and the writer options.
    [newBlobObject] is a closure over the object provider: the model gives
    the outcome of its n-th call and counts the calls made. *)
Record state : Type := mkState {
  comparer : Comparer;
  newBlobObject : nat -> result ObjectMetadata;
  objectsRequested : nat;
  shortAttrExtractor : option ShortAttributeExtractor;
  minimumSize : Z;
  requiredInPlaceValueBound : UserKeyPrefixBound;
  writer : option FileWriter;
  objMeta : ObjectMetadata
}.

Definition with_bound (vs : state) (b : UserKeyPrefixBound) : state :=
  mkState (comparer vs) (newBlobObject vs) (objectsRequested vs) (shortAttrExtractor vs)
          (minimumSize vs) b (writer vs) (objMeta vs).

Definition with_writer (vs : state) (w : option FileWriter) : state :=
  mkState (comparer vs) (newBlobObject vs) (objectsRequested vs) (shortAttrExtractor vs)
          (minimumSize vs) (requiredInPlaceValueBound vs) w (objMeta vs).

Definition with_request (vs : state) : state :=
  mkState (comparer vs) (newBlobObject vs) (S (objectsRequested vs))
          (shortAttrExtractor vs) (minimumSize vs) (requiredInPlaceValueBound vs)
          (writer vs) (objMeta vs).

Definition with_object (vs : state) (om : ObjectMetadata) (w : FileWriter) : state :=
  mkState (comparer vs) (newBlobObject vs) (objectsRequested vs) (shortAttrExtractor vs)
          (minimumSize vs) (requiredInPlaceValueBound vs) (Some w) om.

(** [blob.NewFileWriter(fileNum, writable, opts)]: nothing written yet. *)
Definition NewFileWriter (fileNum : Z) : FileWriter := mkFileWriter fileNum [].

Section Policy.

Variable X : Externals.

Definition EstimatedFileSize (estimate : FileWriter -> Z) (vs : state) : Z :=
  match writer vs with
  | None => 0
  | Some w => estimate w
  end.

Definition EstimatedReferenceSize (estimate : FileWriter -> Z) (vs : state) : Z :=
  EstimatedFileSize estimate vs.

(** The short attribute of a separated value: none configured gives the
    zero attribute. *)
Definition extractShortAttr (vs : state) (kv : InternalKV) (v : bytes)
  : result ShortAttribute :=
  match shortAttrExtractor vs with
  | None => Ok 0
  | Some extract =>
      let keyPrefixLen := Split (comparer vs) (UserKey (K kv)) in
      extract (UserKey (K kv)) keyPrefixLen v
  end.

(** The open blob writer, created now if there is none. *)
Definition openWriter (vs : state) : result (state * FileWriter) :=
  match writer vs with
  | Some w => Ok (vs, w)
  | None =>
      match newBlobObject vs (objectsRequested vs) with
      | Err e => Err e
      | Panic m => Panic m
      | Ok om =>
          let w := NewFileWriter (DiskFileNum om) in
          Ok (with_object (with_request vs) om w, w)
      end
  end.

(** The tail of [Add], once the value is known to be separated: short
    attribute, lazily created blob writer, append, handle. *)
Definition separate (vs : state) (tw : RawWriter) (kv : InternalKV) (v : bytes)
           (forceObsolete : bool) : state * RawWriter * result unit :=
  match extractShortAttr vs kv v with
  | Err e => (vs, tw, Err e)
  | Panic m => (vs, tw, Panic m)
  | Ok shortAttr =>
      match openWriter vs with
      | Err e => (with_request vs, tw, Err e)
      | Panic m => (with_request vs, tw, Panic m)
      | Ok (vs, w) =>
          let '(w, (valueLen, suffix)) := AddValue X w v in
          let inlineHandle := mkInlineHandle 0 valueLen suffix in
          let '(tw, e) := tw_AddWithBlobHandle tw (K kv) inlineHandle shortAttr
                            forceObsolete in
          (with_writer vs (Some w), tw, errorResult e)
      end
  end.

(** [return tw.Add(kv.K, v, forceObsolete)]. *)
Definition writeInline (vs : state) (tw : RawWriter) (kv : InternalKV) (v : bytes)
           (forceObsolete : bool) : state * RawWriter * result unit :=
  let '(tw, e) := tw_Add tw (K kv) v forceObsolete in (vs, tw, errorResult e).

(** [writeNewBlobFiles.Add]: the state and the writer after the call, and
    what the call returned. *)
Definition Add (vs : state) (tw : RawWriter) (kv : InternalKV) (forceObsolete : bool)
  : state * RawWriter * result unit :=
  match Value kv with
  | Err e => (vs, tw, Err e)
  | Panic m => (vs, tw, Panic m)
  | Ok v =>
      if len v <? minimumSize vs then writeInline vs tw kv v forceObsolete
      else if isMerge (Kind (K kv)) then writeInline vs tw kv v forceObsolete
      else if negb (IsEmpty (requiredInPlaceValueBound vs)) then
        let kPrefix := Prefix (comparer vs) (UserKey (K kv)) in
        if Compare (comparer vs) (Upper (requiredInPlaceValueBound vs)) kPrefix <=? 0
        then separate (with_bound vs noBound) tw kv v forceObsolete
        else if Compare (comparer vs) kPrefix (Lower (requiredInPlaceValueBound vs)) >=? 0
        then writeInline vs tw kv v forceObsolete
        else separate vs tw kv v forceObsolete
      else separate vs tw kv v forceObsolete
  end.

(** [writeNewBlobFiles.FinishOutput].  A failed [Close] leaves the writer in
    place. *)
Definition FinishOutput (vs : state) : state * result ValueSeparationMetadata :=
  match writer vs with
  | None => (vs, Ok emptyMetadata)
  | Some w =>
      match blob_Close X w with
      | Err e => (vs, Err e)
      | Panic m => (vs, Panic m)
      | Ok stats =>
          (with_writer vs None,
           Ok (mkValueSeparationMetadata
                 [mkBlobReference (DiskFileNum (objMeta vs))
                                  (UncompressedValueBytes stats) None]
                 (UncompressedValueBytes stats)
                 1
                 stats
                 (objMeta vs)
                 (Some (mkBlobFileMetadata (DiskFileNum (objMeta vs)) (FileLen stats)
                          (UncompressedValueBytes stats) (u64 (time_Now_Unix X))))))
      end
  end.

(** A run of [Add] calls, one result per call. *)
Fixpoint AddAll (vs : state) (tw : RawWriter) (items : list (InternalKV * bool))
  : state * RawWriter * list (result unit) :=
  match items with
  | [] => (vs, tw, [])
  | (kv, forceObsolete) :: rest =>
      let '(vs, tw, r) := Add vs tw kv forceObsolete in
      let '(vs, tw, rs) := AddAll vs tw rest in
      (vs, tw, r :: rs)
  end.

(** The key's prefix lies within the required-in-place bound
    [Lower, Upper). *)
Definition withinBound (vs : state) (kv : InternalKV) : bool :=
  let b := requiredInPlaceValueBound vs in
  let kPrefix := Prefix (comparer vs) (UserKey (K kv)) in
  negb (IsEmpty b)
  && (0 <? Compare (comparer vs) (Upper b) kPrefix)
  && (0 <=? Compare (comparer vs) kPrefix (Lower b)).

(** The three reasons for a value to stay in the sstable. *)
Definition staysInline (vs : state) (kv : InternalKV) (v : bytes) : bool :=
  (len v <? minimumSize vs) || isMerge (Kind (K kv)) || withinBound vs kv.

End Policy.

Section Facts.

Variable X : Externals.

Lemma writeInline_eq (vs : state) (tw : RawWriter) (kv : InternalKV) (v : bytes)
      (fo : bool) :
  writeInline vs tw kv v fo
  = (vs,
     mkRawWriter (calls tw ++ [(CallAdd (K kv) v fo,
                                refuses tw (calls tw) (CallAdd (K kv) v fo))])
                 (refuses tw),
     errorResult (refuses tw (calls tw) (CallAdd (K kv) v fo))).
Proof. reflexivity. Qed.

(** What [separate] does: either it stops before touching the sstable (the
    extractor or the creation of the blob object failed), or it appends the
    value to the blob writer [w0] and hands the writer a handle of reference
    index 0. *)
Lemma separate_cases (vs : state) (tw : RawWriter) (kv : InternalKV) (v : bytes)
      (fo : bool) (vs' : state) (tw' : RawWriter) (r : result unit) :
  separate X vs tw kv v fo = (vs', tw', r) ->
  (tw' = tw /\ writer vs' = writer vs /\ objMeta vs' = objMeta vs /\ r <> Ok tt /\
   ((forall a, extractShortAttr vs kv v <> Ok a) \/ (forall p, openWriter vs <> Ok p)))
  \/
  (exists vs1 w0 attr,
     extractShortAttr vs kv v = Ok attr /\
     openWriter vs = Ok (vs1, w0) /\
     vs' = with_writer vs1 (Some (mkFileWriter (fwFileNum w0) (fwValues w0 ++ [v]))) /\
     let call := CallAddWithBlobHandle (K kv)
                   (mkInlineHandle 0 (u32 (len v)) (blob_place X w0 v)) attr fo in
     tw' = mkRawWriter (calls tw ++ [(call, refuses tw (calls tw) call)]) (refuses tw) /\
     r = errorResult (refuses tw (calls tw) call)).
Proof.
  unfold separate.
  destruct (extractShortAttr vs kv v) as [attr | e | m] eqn:Ex.
  - destruct (openWriter vs) as [[vs1 w0] | e | m] eqn:Eo.
    + intros H. right. exists vs1, w0, attr.
      cbn in H. injection H as <- <- <-. repeat split; reflexivity.
    + intros H. injection H as <- <- <-. left.
      repeat split; try discriminate. right. intros p. discriminate.
    + intros H. injection H as <- <- <-. left.
      repeat split; try discriminate. right. intros p. discriminate.
  - intros H. injection H as <- <- <-. left.
    repeat split; try discriminate. left. intros a. discriminate.
  - intros H. injection H as <- <- <-. left.
    repeat split; try discriminate. left. intros a. discriminate.
Qed.

Lemma openWriter_cases (vs vs1 : state) (w0 : FileWriter) :
  openWriter vs = Ok (vs1, w0) ->
  (writer vs = Some w0 /\ vs1 = vs)
  \/ (writer vs = None /\
      exists om, newBlobObject vs (objectsRequested vs) = Ok om /\
                 w0 = NewFileWriter (DiskFileNum om) /\
                 vs1 = with_object (with_request vs) om w0).
Proof.
  unfold openWriter. destruct (writer vs) as [w |] eqn:Ew.
  - intros H. injection H as <- <-. now left.
  - destruct (newBlobObject vs (objectsRequested vs)) as [om | e | m] eqn:En;
      try discriminate.
    intros H. injection H as <- <-. right. split; [reflexivity |].
    exists om. repeat split; reflexivity.
Qed.

(** The state [separate] starts from: the required-in-place bound is
    dropped once a key prefix at or past its upper end is met. *)
Definition afterBoundCheck (vs : state) (kv : InternalKV) : state :=
  if negb (IsEmpty (requiredInPlaceValueBound vs))
     && (Compare (comparer vs) (Upper (requiredInPlaceValueBound vs))
           (Prefix (comparer vs) (UserKey (K kv))) <=? 0)
  then with_bound vs noBound
  else vs.

Lemma Add_decision (vs : state) (tw : RawWriter) (kv : InternalKV) (fo : bool)
      (v : bytes) :
  Value kv = Ok v ->
  Add X vs tw kv fo
  = if staysInline vs kv v
    then writeInline vs tw kv v fo
    else separate X (afterBoundCheck vs kv) tw kv v fo.
Proof.
  intros Hv. unfold Add, staysInline, withinBound, afterBoundCheck. rewrite Hv.
  destruct (len v <? minimumSize vs); [reflexivity |].
  destruct (isMerge (Kind (K kv))); [reflexivity |].
  destruct (IsEmpty (requiredInPlaceValueBound vs)); [reflexivity |].
  cbn [negb orb andb].
  set (up := Compare (comparer vs) (Upper (requiredInPlaceValueBound vs))
               (Prefix (comparer vs) (UserKey (K kv)))).
  set (lo := Compare (comparer vs) (Prefix (comparer vs) (UserKey (K kv)))
               (Lower (requiredInPlaceValueBound vs))).
  rewrite Z.geb_leb.
  destruct (Z.leb_spec up 0) as [Hu | Hu].
  - destruct (Z.ltb_spec 0 up) as [C | _]; [lia |]. reflexivity.
  - destruct (Z.ltb_spec 0 up) as [_ | C]; [| lia].
    cbn [andb]. destruct (0 <=? lo); reflexivity.
Qed.

Lemma afterBoundCheck_fields (vs : state) (kv : InternalKV) :
  comparer (afterBoundCheck vs kv) = comparer vs /\
  shortAttrExtractor (afterBoundCheck vs kv) = shortAttrExtractor vs /\
  writer (afterBoundCheck vs kv) = writer vs /\
  newBlobObject (afterBoundCheck vs kv) = newBlobObject vs /\
  objectsRequested (afterBoundCheck vs kv) = objectsRequested vs /\
  objMeta (afterBoundCheck vs kv) = objMeta vs /\
  minimumSize (afterBoundCheck vs kv) = minimumSize vs.
Proof. unfold afterBoundCheck. destruct (_ && _); repeat split; reflexivity. Qed.

Lemma extractShortAttr_afterBoundCheck (vs : state) (kv : InternalKV) (v : bytes) :
  extractShortAttr (afterBoundCheck vs kv) kv v = extractShortAttr vs kv v.
Proof. unfold afterBoundCheck. destruct (_ && _); reflexivity. Qed.

(** Dropping the bound is an optimisation for keys that come in ascending
    order: once a prefix at or past the upper end was met, no later prefix
    lies within the bound, and the decision for later keys is the one the
    bound as configured gives. *)
Lemma afterBoundCheck_same_decision (vs : state) (kv1 kv2 : InternalKV) (v : bytes) :
  (forall k1 k2 k3,
      Compare (comparer vs) k1 k2 <= 0 -> Compare (comparer vs) k2 k3 <= 0 ->
      Compare (comparer vs) k1 k3 <= 0) ->
  Compare (comparer vs) (Prefix (comparer vs) (UserKey (K kv1)))
          (Prefix (comparer vs) (UserKey (K kv2))) <= 0 ->
  staysInline (afterBoundCheck vs kv1) kv2 v = staysInline vs kv2 v.
Proof.
  intros Htrans Hasc. unfold afterBoundCheck.
  destruct (negb (IsEmpty (requiredInPlaceValueBound vs))) eqn:Hne; [| reflexivity].
  cbn [andb].
  destruct (Z.leb_spec
              (Compare (comparer vs) (Upper (requiredInPlaceValueBound vs))
                 (Prefix (comparer vs) (UserKey (K kv1)))) 0) as [Hup | _];
    [| reflexivity].
  unfold staysInline, withinBound.
  cbn [minimumSize comparer requiredInPlaceValueBound with_bound].
  rewrite Hne. cbn [andb negb]. change (IsEmpty noBound) with true. cbn [negb andb].
  pose proof (Htrans _ _ _ Hup Hasc) as Hup2.
  destruct (Z.ltb_spec 0 (Compare (comparer vs) (Upper (requiredInPlaceValueBound vs))
                             (Prefix (comparer vs) (UserKey (K kv2))))) as [C | _];
    [lia |].
  reflexivity.
Qed.

(** A blob writer is at hand: open already, or created now by a call to
    [newBlobObject] that succeeds. *)
Definition blobWriterAtHand (vs : state) (w0 : FileWriter) : Prop :=
  writer vs = Some w0
  \/ (writer vs = None /\
      exists om, newBlobObject vs (objectsRequested vs) = Ok om /\
                 w0 = NewFileWriter (DiskFileNum om)).

Lemma blobWriterAtHand_openWriter (vs : state) (kv : InternalKV) (w0 : FileWriter) :
  blobWriterAtHand vs w0 ->
  exists vs1, openWriter (afterBoundCheck vs kv) = Ok (vs1, w0).
Proof.
  destruct (afterBoundCheck_fields vs kv) as (_ & _ & Ew & En & Er & _).
  unfold openWriter. rewrite Ew, En, Er.
  intros [Hw | (Hw & om & Hn & ->)]; rewrite Hw.
  - eexists. reflexivity.
  - rewrite Hn. eexists. reflexivity.
Qed.

(** One call, by the bound the policy holds at that call.  With the value
    [v] of the pair in hand, [Add] writes it inline through the writer's [Add]
    exactly when it is shorter than the minimum size, or the key is a merge
    key, or the key's prefix lies within the required-in-place bound; then
    nothing else changes.  In every other case, the short attribute extracted
    and a blob writer at hand (open already, or created now), [v] is appended
    to the blob file and the sstable is handed a handle instead of the
    value. *)
Lemma Add_decides_by_held_bound (vs : state) (tw : RawWriter) (kv : InternalKV)
        (fo : bool) (v : bytes) (vs' : state) (tw' : RawWriter) (r : result unit) :
  Value kv = Ok v ->
  Add X vs tw kv fo = (vs', tw', r) ->
  let inlineCall := CallAdd (K kv) v fo in
  (staysInline vs kv v = true
   <-> calls tw' = calls tw ++ [(inlineCall, refuses tw (calls tw) inlineCall)])
  /\
  (staysInline vs kv v = true ->
   vs' = vs /\ r = errorResult (refuses tw (calls tw) inlineCall))
  /\
  (staysInline vs kv v = false ->
   forall attr w0,
     extractShortAttr vs kv v = Ok attr ->
     blobWriterAtHand vs w0 ->
     let handle := mkInlineHandle 0 (u32 (len v)) (blob_place X w0 v) in
     let blobCall := CallAddWithBlobHandle (K kv) handle attr fo in
     writer vs' = Some (mkFileWriter (fwFileNum w0) (fwValues w0 ++ [v])) /\
     calls tw' = calls tw ++ [(blobCall, refuses tw (calls tw) blobCall)] /\
     r = errorResult (refuses tw (calls tw) blobCall)).
Proof.
  intros Hv HAdd inlineCall.
  rewrite (Add_decision vs tw kv fo v Hv) in HAdd.
  destruct (staysInline vs kv v) eqn:Hs.
  - rewrite writeInline_eq in HAdd. injection HAdd as <- <- <-.
    cbn [calls]. split; [split; reflexivity |].
    split; [split; reflexivity | discriminate].
  - split; [| split; [discriminate |]].
    + split; [discriminate |]. intros Hc. exfalso.
      apply separate_cases in HAdd as [(-> & _) | (vs1 & w0 & attr & _ & _ & _ & Ht & _)].
      * rewrite <- (app_nil_r (calls tw)) in Hc at 1.
        apply app_inv_head in Hc. discriminate.
      * cbv zeta in Ht. subst tw'. cbn [calls] in Hc.
        apply app_inv_head in Hc. discriminate.
    + intros _ attr w0 Hex Hhand handle blobCall.
      destruct (blobWriterAtHand_openWriter vs kv w0 Hhand) as [vs1 Hop].
      apply separate_cases in HAdd
        as [(_ & _ & _ & _ & [C | C]) | (vs1' & w0' & attr' & Hex' & Hop' & Hs' & Ht & Hr)].
      * rewrite extractShortAttr_afterBoundCheck in C. now apply C in Hex.
      * now apply C in Hop.
      * rewrite extractShortAttr_afterBoundCheck in Hex'.
        rewrite Hex in Hex'. injection Hex' as <-.
        rewrite Hop in Hop'. injection Hop' as <- <-.
        cbv zeta in Ht, Hr. subst vs' tw' r. cbn [calls writer with_writer].
        repeat split; reflexivity.
Qed.

(** *** One blob file per output *)

Definition isCallAdd (c : WriterCall * option error) : Prop :=
  match fst c with CallAdd _ _ _ => True | CallAddWithBlobHandle _ _ _ _ => False end.

Definition isBlobCall (c : WriterCall * option error) : Prop :=
  match fst c with CallAdd _ _ _ => False | CallAddWithBlobHandle _ _ _ _ => True end.

Definition handleIndexZero (c : WriterCall * option error) : Prop :=
  match fst c with
  | CallAdd _ _ _ => True
  | CallAddWithBlobHandle _ h _ _ => ReferenceIndex h = 0
  end.

(** One [Add]: nothing reaches the sstable, or the value is written inline
    and the policy's state stays as it is, or the value goes to the blob
    file, whose number is that of the object the policy holds. *)
Lemma Add_step (vs : state) (tw : RawWriter) (kv : InternalKV) (fo : bool)
      (vs' : state) (tw' : RawWriter) (r : result unit) :
  Add X vs tw kv fo = (vs', tw', r) ->
  (tw' = tw /\ writer vs' = writer vs /\ objMeta vs' = objMeta vs /\ r <> Ok tt)
  \/
  (exists c, isCallAdd c /\ calls tw' = calls tw ++ [c] /\ vs' = vs)
  \/
  (exists c w0 w',
     isBlobCall c /\ handleIndexZero c /\ calls tw' = calls tw ++ [c] /\
     writer vs' = Some w' /\ fwFileNum w' = fwFileNum w0 /\
     ((writer vs = Some w0 /\ objMeta vs' = objMeta vs)
      \/ (writer vs = None /\ fwFileNum w0 = DiskFileNum (objMeta vs')))).
Proof.
  intros HAdd.
  destruct (Value kv) as [v | e | m] eqn:Hv.
  - rewrite (Add_decision vs tw kv fo v Hv) in HAdd.
    destruct (staysInline vs kv v).
    + rewrite writeInline_eq in HAdd. injection HAdd as <- <- <-.
      right. left. eexists. cbn [calls]. split; [| split; reflexivity]. exact I.
    + destruct (afterBoundCheck_fields vs kv) as (_ & _ & Ew & _ & _ & Eo & _).
      apply separate_cases in HAdd
        as [(-> & Hw & Hm & Hr & _) | (vs1 & w0 & attr & _ & Hop & -> & -> & _)].
      * left. rewrite Hw, Hm, Ew, Eo. repeat split; [exact Hr].
      * right. right. eexists. exists w0. eexists.
        cbn [calls writer with_writer objMeta].
        split; [| split; [| split; [reflexivity |]]]; [exact I | reflexivity |].
        split; [reflexivity |]. split; [reflexivity |].
        apply openWriter_cases in Hop as [(Hw & ->) | (Hw & om & _ & -> & ->)].
        -- left. rewrite <- Ew, <- Eo. split; [exact Hw | reflexivity].
        -- right. rewrite <- Ew. split; [exact Hw | reflexivity].
  - unfold Add in HAdd. rewrite Hv in HAdd. injection HAdd as <- <- <-.
    left. repeat split. discriminate.
  - unfold Add in HAdd. rewrite Hv in HAdd. injection HAdd as <- <- <-.
    left. repeat split. discriminate.
Qed.

Lemma AddAll_invariant (items : list (InternalKV * bool)) :
  forall (vs : state) (tw : RawWriter) (vs' : state) (tw' : RawWriter)
         (rs : list (result unit)),
    AddAll X vs tw items = (vs', tw', rs) ->
    exists new,
      calls tw' = calls tw ++ new /\
      Forall handleIndexZero new /\
      (length new <= length items)%nat /\
      (forall w, writer vs = Some w ->
         exists w', writer vs' = Some w' /\ fwFileNum w' = fwFileNum w /\
                    objMeta vs' = objMeta vs) /\
      (writer vs = None ->
         (writer vs' = None /\ Forall isCallAdd new)
         \/ (exists w', writer vs' = Some w' /\
                        fwFileNum w' = DiskFileNum (objMeta vs') /\
                        Exists isBlobCall new)) /\
      (length new = length items -> Forall isCallAdd new ->
       objectsRequested vs' = objectsRequested vs).
Proof.
  induction items as [| [kv fo] rest IH]; intros vs tw vs' tw' rs H.
  - cbn in H. injection H as <- <- <-. exists [].
    rewrite app_nil_r. repeat split; auto.
    intros w Hw. exists w. auto.
  - cbn [AddAll] in H.
    destruct (Add X vs tw kv fo) as [[vs1 tw1] r1] eqn:E1.
    destruct (AddAll X vs1 tw1 rest) as [[vs2 tw2] rs2] eqn:E2.
    injection H as <- <- <-.
    apply IH in E2 as (new2 & Hc2 & Hz2 & Hl2 & Hs2 & Hn2 & Hq2).
    apply Add_step in E1
      as [(-> & Hw & Hm & _) | [(c & Hc & Hcalls & ->) | (c & w0 & w' & Hb & Hz & Hcalls & Hw' & Hf & Hor)]].
    + exists new2. rewrite Hw in Hs2, Hn2. rewrite Hm in Hs2.
      split; [exact Hc2 |]. split; [exact Hz2 |]. split; [cbn; lia |].
      split; [exact Hs2 |]. split; [exact Hn2 |].
      intros Hlen. cbn in Hlen. lia.
    + exists (c :: new2). rewrite Hc2, Hcalls, <- app_assoc. cbn [app].
      split; [reflexivity |].
      split; [constructor; [destruct c as [[] ?]; cbn in *; tauto | exact Hz2] |].
      split; [cbn; lia |]. split; [exact Hs2 |].
      split.
      * intros Hnone. destruct (Hn2 Hnone) as [(Hn & Hall) | (w2 & Hw2 & Hf2 & Hex)].
        -- left. split; [exact Hn | constructor; assumption].
        -- right. exists w2. repeat split; try assumption. now apply Exists_cons_tl.
      * intros Hlen Hall. apply Hq2.
        -- cbn in Hlen. lia.
        -- now inversion Hall.
    + exists (c :: new2). rewrite Hc2, Hcalls, <- app_assoc. cbn [app].
      split; [reflexivity |].
      split; [constructor; assumption |].
      split; [cbn; lia |].
      destruct (Hs2 w' Hw') as (w2 & Hw2 & Hf2 & Hm2).
      split.
      * intros w Hw. destruct Hor as [(Hw0 & Hm0) | (Hw0 & _)]; [| congruence].
        exists w2. rewrite Hw in Hw0. injection Hw0 as <-.
        repeat split; [exact Hw2 | congruence | congruence].
      * split.
        -- intros Hnone. right. exists w2.
           destruct Hor as [(Hw0 & _) | (_ & Hd)]; [congruence |].
           repeat split; [exact Hw2 | congruence | now apply Exists_cons_hd].
        -- intros _ Hall. inversion Hall as [| ? ? Hc _]; subst.
           destruct c as [[] ?]; cbn in *; tauto.
Qed.

(** The blob writer over a run of [Add] calls that starts with no blob
    writer open:
    every blob handle written carries reference index 0; a blob writer
    exists at the end exactly when some value was separated, and no blob
    object was even asked for when every value was written inline;
    [FinishOutput] then returns the empty metadata and no error when no
    writer exists, and otherwise, the blob file closing well, exactly one
    blob reference, to that one blob file, with blob-reference depth 1. *)
Lemma AddAll_blob_writer_invariants (vs : state) (tw : RawWriter)
        (items : list (InternalKV * bool)) (vs' : state) (tw' : RawWriter)
        (rs : list (result unit)) :
  writer vs = None ->
  AddAll X vs tw items = (vs', tw', rs) ->
  exists new,
    calls tw' = calls tw ++ new /\
    Forall handleIndexZero new /\
    (writer vs' = None <-> Forall isCallAdd new) /\
    (length new = length items -> Forall isCallAdd new ->
     objectsRequested vs' = objectsRequested vs) /\
    (writer vs' = None -> FinishOutput X vs' = (vs', Ok emptyMetadata)) /\
    (forall w stats,
       writer vs' = Some w -> blob_Close X w = Ok stats ->
       Exists isBlobCall new /\
       exists md,
         FinishOutput X vs' = (with_writer vs' None, Ok md) /\
         BlobReferences md
         = [mkBlobReference (fwFileNum w) (UncompressedValueBytes stats) None] /\
         BlobReferenceSize md = UncompressedValueBytes stats /\
         BlobReferenceDepth md = 1).
Proof.
  intros Hnone H.
  apply AddAll_invariant in H as (new & Hc & Hz & _ & _ & Hn & Hq).
  specialize (Hn Hnone).
  assert (Hexcl : Forall isCallAdd new -> Exists isBlobCall new -> False).
  { intros Hall Hex. apply Exists_exists in Hex as (c & Hin & Hb).
    rewrite Forall_forall in Hall. specialize (Hall c Hin).
    destruct c as [[] ?]; cbn in *; tauto. }
  exists new. split; [exact Hc |]. split; [exact Hz |].
  split; [| split; [exact Hq |]].
  - split.
    + intros Hw. destruct Hn as [(_ & Hall) | (w' & Hw' & _)]; [exact Hall | congruence].
    + intros Hall. destruct Hn as [(Hw & _) | (w' & _ & _ & Hex)]; [exact Hw |].
      destruct (Hexcl Hall Hex).
  - split.
    + intros Hw. unfold FinishOutput. now rewrite Hw.
    + intros w stats Hw Hclose.
      destruct Hn as [(Hw0 & _) | (w' & Hw' & Hf & Hex)]; [congruence |].
      rewrite Hw in Hw'. injection Hw' as <-.
      split; [exact Hex |].
      unfold FinishOutput. rewrite Hw, Hclose.
      eexists. split; [reflexivity |].
      cbn [BlobReferences BlobReferenceSize BlobReferenceDepth].
      rewrite <- Hf. repeat split; reflexivity.
Qed.

End Facts.

End writeNewBlobFiles.

(** ** A concrete setting *)

(** Bytewise comparison of keys, as the default comparer does. *)
Fixpoint bytesCompare (a b : bytes) : Z :=
  match a, b with
  | [], [] => 0
  | [], _ :: _ => -1
  | _ :: _, [] => 1
  | x :: a', y :: b' =>
      if x <? y then -1 else if y <? x then 1 else bytesCompare a' b'
  end.

Definition demoComparer : Comparer := mkComparer bytesCompare (fun k => len k).

(** A blob writer that starts a block per value and reports the bytes it
    holds; invariant checks on. *)
Definition demoExternals : Externals :=
  mkExternals
    (fun w _ => mkHandleSuffix (len (fwValues w)) 0)
    (fun w =>
       let n := fold_right (fun v acc => len v + acc) 0 (fwValues w) in
       Ok (mkFileWriterStats n (n + 64)))
    (fun b => match b with
              | [blk; off] => mkHandleSuffix blk off
              | _ => mkHandleSuffix 0 0
              end)
    true
    1700000000.

(** An sstable writer that accepts every call. *)
Definition demoWriter : RawWriter := mkRawWriter [] (fun _ _ => None).

Definition demoPolicy : writeNewBlobFiles.state :=
  writeNewBlobFiles.mkState demoComparer
    (fun n => Ok (mkObjectMetadata (100 + Z.of_nat n))) 0 None
    3 (mkUserKeyPrefixBound [10] [20]) None (mkObjectMetadata 0).

Definition demoKey (k : Z) : InternalKey := mkInternalKey [k] 1 InternalKeyKindSet.

Definition smallKV : InternalKV := mkInternalKV (demoKey 50) (InPlaceValue [1; 2]).
Definition largeKV : InternalKV := mkInternalKV (demoKey 51) (InPlaceValue [1; 2; 3; 4]).
Definition boundKV : InternalKV := mkInternalKV (demoKey 15) (InPlaceValue [1; 2; 3; 4]).

(** ** The policy that preserves blob references *)

Module preserveBlobReferences.

(** The struct, without its scratch buffer.  [inputBlobMetadatas] is to be
    sorted by file number. *)
Record state : Type := mkState {
  inputBlobMetadatas : list BlobFileMetadata;
  outputBlobReferenceDepth : Z;
  currReferences : list BlobReference;
  totalValueSize : Z
}.

Definition EstimatedFileSize (vs : state) : Z := 0.

Definition EstimatedReferenceSize (vs : state) : Z := totalValueSize vs.

(** [cmp.Compare] on file numbers. *)
Definition cmp_Compare (a b : Z) : Z :=
  if a <? b then -1 else if b <? a then 1 else 0.

Definition zeroBlobFileMetadata : BlobFileMetadata := mkBlobFileMetadata 0 0 0 0.

(** [slices.BinarySearchFunc]: the loop narrowing [i, j).  The interval
    shrinks at every turn, so that [length x] turns are enough. *)
Fixpoint BinarySearch_loop (fuel : nat) (x : list BlobFileMetadata) (fn i j : Z) : Z :=
  match fuel with
  | O => i
  | S fuel' =>
      if i <? j then
        let h := Z.shiftr (i + j) 1 in
        if cmp_Compare (bmFileNum (nth (Z.to_nat h) x zeroBlobFileMetadata)) fn <? 0
        then BinarySearch_loop fuel' x fn (h + 1) j
        else BinarySearch_loop fuel' x fn i h
      else i
  end.

(** [findInputBlobMetadata]: the index found and whether the file number
    at it is [fn]. *)
Definition findInputBlobMetadata (vs : state) (fn : Z) : Z * bool :=
  let x := inputBlobMetadatas vs in
  let n := len x in
  let i := BinarySearch_loop (length x) x fn 0 n in
  (i, (i <? n)
      && (cmp_Compare (bmFileNum (nth (Z.to_nat i) x zeroBlobFileMetadata)) fn =? 0)).

(** The loop of [Add] over [currReferences]: the first index whose file
    number is [fn], counting from [refIdx]. *)
Fixpoint findReference (refs : list BlobReference) (fn : Z) (refIdx : Z) : option Z :=
  match refs with
  | [] => None
  | r :: rest =>
      if FileNum r =? fn then Some refIdx else findReference rest fn (refIdx + 1)
  end.

(** [refs[idx].ValueSize += n], in uint64. *)
Fixpoint addValueSize (refs : list BlobReference) (idx : nat) (n : Z)
  : list BlobReference :=
  match refs, idx with
  | [], _ => []
  | r :: rest, O => mkBlobReference (FileNum r) (u64 (ValueSize r + n)) (Metadata r) :: rest
  | r :: rest, S idx' => r :: addValueSize rest idx' n
  end.

Definition with_references (vs : state) (refs : list BlobReference) : state :=
  mkState (inputBlobMetadatas vs) (outputBlobReferenceDepth vs) refs (totalValueSize vs).

Definition with_sizes (vs : state) (refs : list BlobReference) (total : Z) : state :=
  mkState (inputBlobMetadatas vs) (outputBlobReferenceDepth vs) refs total.

Section Policy.

Variable X : Externals.

(** The invariant check before the handle is written: it reads
    [Metadata.FileNum] through the pointer. *)
Definition wrongReferenceIndex (vs : state) (refIdx : Z) (fn : Z) : option string :=
  if invariants_Enabled X then
    match nth_error (currReferences vs) (Z.to_nat refIdx) with
    | None => Some "index out of range"%string
    | Some r =>
        match Metadata r with
        | None => Some "nil pointer dereference"%string
        | Some md => if bmFileNum md =? fn then None else Some "wrong reference index"%string
        end
    end
  else None.

(** The part of [Add] for a value that is a blob handle already, once its
    reference index is known. *)
Definition copyHandle (vs : state) (tw : RawWriter) (kv : InternalKV) (lv : LazyValue)
           (refIdx : Z) (forceObsolete : bool) : state * RawWriter * result unit :=
  let fn := BlobFileNum (Fetcher lv) in
  match wrongReferenceIndex vs refIdx fn with
  | Some msg => (vs, tw, Panic msg)
  | None =>
      let handleSuffix := blob_DecodeHandleSuffix X (ValueOrHandle lv) in
      let inlineHandle :=
        mkInlineHandle (u32 refIdx) (AttributeValueLen (Fetcher lv)) handleSuffix in
      let '(tw, e) := tw_AddWithBlobHandle tw (K kv) inlineHandle
                        (AttributeShortAttribute (Fetcher lv)) forceObsolete in
      match e with
      | Some err => (vs, tw, Err err)
      | None =>
          let n := u64 (AttributeValueLen (Fetcher lv)) in
          (with_sizes vs (addValueSize (currReferences vs) (Z.to_nat refIdx) n)
                      (u64 (totalValueSize vs + n)),
           tw, Ok tt)
      end
  end.

(** [preserveBlobReferences.Add]: the state and the writer after the call,
    and what the call returned. *)
Definition Add (vs : state) (tw : RawWriter) (kv : InternalKV) (forceObsolete : bool)
  : state * RawWriter * result unit :=
  match V kv with
  | BlobValueHandle lv =>
      let fn := BlobFileNum (Fetcher lv) in
      match findReference (currReferences vs) fn 0 with
      | Some refIdx => copyHandle vs tw kv lv refIdx forceObsolete
      | None =>
          let '(idx, found) := findInputBlobMetadata vs fn in
          if negb found
          then (vs, tw,
                Err (AssertionFailed "pebble: blob file not found among input sstables"))
          else
            let refIdx := len (currReferences vs) in
            let md := nth (Z.to_nat idx) (inputBlobMetadatas vs) zeroBlobFileMetadata in
            let vs := with_references vs
                        (currReferences vs ++ [mkBlobReference fn 0 (Some md)]) in
            copyHandle vs tw kv lv refIdx forceObsolete
      end
  | _ =>
      match Value kv with
      | Err e => (vs, tw, Err e)
      | Panic m => (vs, tw, Panic m)
      | Ok v =>
          let '(tw, e) := tw_Add tw (K kv) v forceObsolete in
          (vs, tw, errorResult e)
      end
  end.

(** The loop of [FinishOutput] summing the value sizes, in uint64. *)
Definition referenceSize (references : list BlobReference) : Z :=
  fold_left (fun acc ref => u64 (acc + ValueSize ref)) references 0.

(** [preserveBlobReferences.FinishOutput]: the references are cloned and the
    current ones cut to length 0; [totalValueSize] is not assigned. *)
Definition FinishOutput (vs : state) : state * result ValueSeparationMetadata :=
  let references := currReferences vs in
  let vs := with_references vs [] in
  (vs,
   Ok (mkValueSeparationMetadata
         references
         (referenceSize references)
         (Z.min (outputBlobReferenceDepth vs) (len references))
         (mkFileWriterStats 0 0) (mkObjectMetadata 0) None)).

(** A run of [Add] calls, one result per call. *)
Fixpoint AddAll (vs : state) (tw : RawWriter) (items : list (InternalKV * bool))
  : state * RawWriter * list (result unit) :=
  match items with
  | [] => (vs, tw, [])
  | (kv, forceObsolete) :: rest =>
      let '(vs, tw, r) := Add vs tw kv forceObsolete in
      let '(vs, tw, rs) := AddAll vs tw rest in
      (vs, tw, r :: rs)
  end.

End Policy.

(** The policy as a compaction sets it up: no reference yet. *)
Definition newState (inputs : list BlobFileMetadata) (depth : Z) : state :=
  mkState inputs depth [] 0.

(** The states the policy goes through. *)
Inductive reachable (X : Externals) : state -> Prop :=
| reach_new (inputs : list BlobFileMetadata) (depth : Z) :
    reachable X (newState inputs depth)
| reach_Add (vs : state) (tw : RawWriter) (kv : InternalKV) (fo : bool) :
    reachable X vs -> reachable X (fst (fst (Add X vs tw kv fo)))
| reach_FinishOutput (vs : state) :
    reachable X vs -> reachable X (fst (FinishOutput vs)).

(** What the comment on [totalValueSize] says of it. *)
Definition sizesAgree (vs : state) : Prop :=
  totalValueSize vs = referenceSize (currReferences vs).

Definition distinctFiles (refs : list BlobReference) : list Z :=
  nodup Z.eq_dec (map FileNum refs).

Section Facts.

Variable X : Externals.

(** *** The binary search *)

Lemma midpoint_between (i j : Z) : 0 <= i < j -> i <= Z.shiftr (i + j) 1 < j.
Proof.
  intros H. rewrite Z.shiftr_div_pow2 by lia. change (2 ^ 1) with 2.
  split; [apply Z.div_le_lower_bound; lia | apply Z.div_lt_upper_bound; lia].
Qed.

Lemma BinarySearch_loop_range (fuel : nat) (x : list BlobFileMetadata) (fn : Z) :
  forall i j, 0 <= i <= j -> i <= BinarySearch_loop fuel x fn i j <= j.
Proof.
  induction fuel as [| fuel IH]; intros i j Hij; cbn [BinarySearch_loop]; [lia |].
  destruct (Z.ltb_spec i j) as [Hlt | Hge]; [| lia].
  pose proof (midpoint_between i j ltac:(lia)) as Hh.
  destruct (cmp_Compare _ fn <? 0).
  - specialize (IH (Z.shiftr (i + j) 1 + 1) j ltac:(lia)). lia.
  - specialize (IH i (Z.shiftr (i + j) 1) ltac:(lia)). lia.
Qed.

(** The search is over within [j - i] turns: more fuel changes nothing. *)
Lemma BinarySearch_loop_fuel (fuel : nat) (x : list BlobFileMetadata) (fn : Z) :
  forall (more : nat) i j,
    0 <= i -> j - i <= Z.of_nat fuel ->
    BinarySearch_loop (fuel + more) x fn i j = BinarySearch_loop fuel x fn i j.
Proof.
  induction fuel as [| fuel IH]; intros more i j Hi Hf.
  - cbn [BinarySearch_loop Nat.add]. destruct more as [| more]; [reflexivity |].
    cbn [BinarySearch_loop]. destruct (Z.ltb_spec i j) as [Hlt | _]; [lia | reflexivity].
  - cbn [BinarySearch_loop Nat.add].
    destruct (Z.ltb_spec i j) as [Hlt | _]; [| reflexivity].
    pose proof (midpoint_between i j ltac:(lia)) as Hh.
    destruct (cmp_Compare _ fn <? 0); apply IH; lia.
Qed.

(** A file number that is found is the one of the metadata at the index
    returned. *)
Lemma findInputBlobMetadata_found (vs : state) (fn idx : Z) :
  findInputBlobMetadata vs fn = (idx, true) ->
  0 <= idx < len (inputBlobMetadatas vs) /\
  bmFileNum (nth (Z.to_nat idx) (inputBlobMetadatas vs) zeroBlobFileMetadata) = fn.
Proof.
  unfold findInputBlobMetadata. intros H. injection H as Hidx Hfound. subst idx.
  apply andb_true_iff in Hfound as [Hlt Heq].
  apply Z.ltb_lt in Hlt. apply Z.eqb_eq in Heq.
  pose proof (BinarySearch_loop_range (length (inputBlobMetadatas vs))
                (inputBlobMetadatas vs) fn 0 (len (inputBlobMetadatas vs))
                ltac:(pose proof (len_nonneg (inputBlobMetadatas vs)); lia)) as Hr.
  split; [lia |].
  unfold cmp_Compare in Heq.
  match type of Heq with
  | (if ?a <? ?b then _ else _) = _ =>
      destruct (Z.ltb_spec a b); [discriminate |];
      destruct (Z.ltb_spec b a); [discriminate |]; lia
  end.
Qed.

(** *** Sums of value sizes *)

Definition sumValueSizes (refs : list BlobReference) : Z :=
  fold_right (fun ref acc => ValueSize ref + acc) 0 refs.

Lemma u64_add_l (a b : Z) : u64 (u64 a + b) = u64 (a + b).
Proof. unfold u64. apply Zplus_mod_idemp_l. Qed.

Lemma u64_add_r (a b : Z) : u64 (a + u64 b) = u64 (a + b).
Proof. unfold u64. apply Zplus_mod_idemp_r. Qed.

Lemma u64_idem (a : Z) : u64 (u64 a) = u64 a.
Proof. unfold u64. apply Zmod_mod. Qed.

Lemma fold_referenceSize (refs : list BlobReference) (acc : Z) :
  u64 (fold_left (fun acc ref => u64 (acc + ValueSize ref)) refs acc)
  = u64 (acc + sumValueSizes refs).
Proof.
  revert acc. induction refs as [| r refs IH]; intros acc; cbn [fold_left sumValueSizes fold_right].
  - now rewrite Z.add_0_r.
  - rewrite IH. fold (sumValueSizes refs).
    rewrite u64_add_l. f_equal. lia.
Qed.

Lemma fold_referenceSize_u64 (refs : list BlobReference) (acc : Z) :
  u64 acc = acc ->
  u64 (fold_left (fun acc ref => u64 (acc + ValueSize ref)) refs acc)
  = fold_left (fun acc ref => u64 (acc + ValueSize ref)) refs acc.
Proof.
  revert acc. induction refs as [| r refs IH]; intros acc Hacc; cbn [fold_left].
  - exact Hacc.
  - apply IH. apply u64_idem.
Qed.

Lemma referenceSize_sum (refs : list BlobReference) :
  referenceSize refs = u64 (sumValueSizes refs).
Proof.
  unfold referenceSize.
  rewrite <- (fold_referenceSize_u64 refs 0) by reflexivity.
  rewrite fold_referenceSize. reflexivity.
Qed.

Lemma sumValueSizes_app (a b : list BlobReference) :
  sumValueSizes (a ++ b) = sumValueSizes a + sumValueSizes b.
Proof.
  induction a as [| r a IH]; cbn [app sumValueSizes fold_right]; [reflexivity |].
  fold (sumValueSizes (a ++ b)). fold (sumValueSizes a). lia.
Qed.

Lemma addValueSize_sum (refs : list BlobReference) (idx : nat) (n : Z) :
  (idx < length refs)%nat ->
  u64 (sumValueSizes (addValueSize refs idx n)) = u64 (sumValueSizes refs + n).
Proof.
  revert idx. induction refs as [| r refs IH]; intros idx Hidx; [cbn in Hidx; lia |].
  destruct idx as [| idx]; cbn [addValueSize sumValueSizes fold_right ValueSize].
  - fold (sumValueSizes refs). rewrite u64_add_l. f_equal. lia.
  - fold (sumValueSizes (addValueSize refs idx n)). fold (sumValueSizes refs).
    rewrite <- u64_add_r. rewrite IH by (cbn in Hidx; lia).
    rewrite u64_add_r. f_equal. lia.
Qed.

Lemma addValueSize_FileNum (refs : list BlobReference) (idx : nat) (n : Z) :
  map FileNum (addValueSize refs idx n) = map FileNum refs.
Proof.
  revert idx. induction refs as [| r refs IH]; intros idx; [reflexivity |].
  destruct idx as [| idx]; cbn [addValueSize map FileNum]; [reflexivity |].
  now rewrite IH.
Qed.

Lemma addValueSize_length (refs : list BlobReference) (idx : nat) (n : Z) :
  length (addValueSize refs idx n) = length refs.
Proof.
  rewrite <- (length_map FileNum), addValueSize_FileNum. apply length_map.
Qed.

(** *** The search through the current references *)

Lemma findReference_Some (refs : list BlobReference) (fn start refIdx : Z) :
  findReference refs fn start = Some refIdx ->
  start <= refIdx < start + len refs /\
  nth_error (map FileNum refs) (Z.to_nat (refIdx - start)) = Some fn /\
  forall j, (j < Z.to_nat (refIdx - start))%nat ->
            nth_error (map FileNum refs) j <> Some fn.
Proof.
  revert start. induction refs as [| r refs IH]; intros start H; [discriminate |].
  cbn [findReference] in H. rewrite len_cons.
  destruct (Z.eqb_spec (FileNum r) fn) as [E | N].
  - injection H as <-. pose proof (len_nonneg refs).
    replace (start - start) with 0 by lia.
    split; [lia |]. split; [cbn; now rewrite E |]. intros j Hj. cbn in Hj. lia.
  - apply IH in H as (Hr & Hn & Hm).
    split; [lia |].
    replace (Z.to_nat (refIdx - start)) with (S (Z.to_nat (refIdx - (start + 1)))) by lia.
    split; [exact Hn |].
    intros [| j] Hj; cbn [map nth_error].
    + intros C. injection C as C. contradiction.
    + apply Hm. lia.
Qed.

Lemma findReference_None (refs : list BlobReference) (fn start : Z) :
  findReference refs fn start = None -> ~ In fn (map FileNum refs).
Proof.
  revert start. induction refs as [| r refs IH]; intros start H; [intros [] |].
  cbn [findReference] in H.
  destruct (Z.eqb_spec (FileNum r) fn) as [E | N]; [discriminate |].
  intros [C | C]; [contradiction | exact (IH _ H C)].
Qed.

(** *** One step of [Add] *)

(** What [copyHandle] leaves behind: the same references, in the same
    order, with at most one value size grown. *)
Lemma copyHandle_state (vs : state) (tw : RawWriter) (kv : InternalKV) (lv : LazyValue)
      (refIdx : Z) (fo : bool) (vs' : state) (tw' : RawWriter) (r : result unit) :
  copyHandle X vs tw kv lv refIdx fo = (vs', tw', r) ->
  0 <= refIdx < len (currReferences vs) ->
  map FileNum (currReferences vs') = map FileNum (currReferences vs) /\
  inputBlobMetadatas vs' = inputBlobMetadatas vs /\
  outputBlobReferenceDepth vs' = outputBlobReferenceDepth vs /\
  (sizesAgree vs -> sizesAgree vs').
Proof.
  unfold copyHandle. intros H Hidx.
  destruct (wrongReferenceIndex X vs refIdx _).
  - injection H as <- <- <-. auto.
  - cbn in H.
    destruct (refuses tw (calls tw) _).
    + injection H as <- <- <-. auto.
    + injection H as <- <- <-. cbn [currReferences with_sizes inputBlobMetadatas
                                     outputBlobReferenceDepth].
      rewrite addValueSize_FileNum. repeat split.
      unfold sizesAgree. cbn [totalValueSize currReferences with_sizes]. intros Hs.
      rewrite !referenceSize_sum.
      rewrite addValueSize_sum by (unfold len in Hidx; lia).
      rewrite Hs, referenceSize_sum. rewrite u64_add_l. reflexivity.
Qed.

(** The references after one [Add]: unchanged for a value that is no blob
    handle or whose file is unknown, else extended by the file if it is
    new. *)
Lemma Add_state (vs : state) (tw : RawWriter) (kv : InternalKV) (fo : bool)
      (vs' : state) (tw' : RawWriter) (r : result unit) :
  Add X vs tw kv fo = (vs', tw', r) ->
  inputBlobMetadatas vs' = inputBlobMetadatas vs /\
  outputBlobReferenceDepth vs' = outputBlobReferenceDepth vs /\
  (sizesAgree vs -> sizesAgree vs') /\
  (NoDup (map FileNum (currReferences vs)) -> NoDup (map FileNum (currReferences vs'))).
Proof.
  unfold Add. intros H.
  destruct (V kv) as [v | lv | lv] eqn:Ev.
  1,2: destruct (Value kv) as [v' | e | m];
       [cbn in H | |]; injection H as <- <- <-; auto.
  destruct (findReference (currReferences vs) (BlobFileNum (Fetcher lv)) 0)
    as [refIdx |] eqn:Ef.
  - apply findReference_Some in Ef as (Hr & _).
    apply copyHandle_state in H as (Hf & Hi & Hd & Hs); [| lia].
    rewrite Hf. auto.
  - apply findReference_None in Ef.
    destruct (findInputBlobMetadata vs (BlobFileNum (Fetcher lv))) as [idx found].
    destruct found; cbn [negb] in H.
    + apply copyHandle_state in H as (Hf & Hi & Hd & Hs).
      * cbn [currReferences with_references inputBlobMetadatas
             outputBlobReferenceDepth] in *.
        rewrite Hf, map_app. cbn [map FileNum].
        split; [exact Hi |]. split; [exact Hd |]. split.
        -- intros Ha. apply Hs. unfold sizesAgree in *.
           cbn [totalValueSize currReferences with_references].
           rewrite Ha, !referenceSize_sum, sumValueSizes_app.
           cbn. now rewrite Z.add_0_r.
        -- intros Hn. apply NoDup_app; [exact Hn | repeat constructor; intros [] |].
           intros a Ha [<- | []]. contradiction.
      * cbn [currReferences with_references]. rewrite len_app, len_cons.
        pose proof (len_nonneg (currReferences vs)).
        change (len (@nil BlobReference)) with 0. lia.
    + injection H as <- <- <-. auto.
Qed.

Lemma FinishOutput_eq (vs : state) :
  FinishOutput vs
  = (with_references vs [],
     Ok (mkValueSeparationMetadata (currReferences vs)
           (referenceSize (currReferences vs))
           (Z.min (outputBlobReferenceDepth vs) (len (currReferences vs)))
           (mkFileWriterStats 0 0) (mkObjectMetadata 0) None)).
Proof. reflexivity. Qed.

Lemma reachable_NoDup (vs : state) :
  reachable X vs -> NoDup (map FileNum (currReferences vs)).
Proof.
  induction 1 as [inputs depth | vs tw kv fo _ IH | vs _ IH].
  - constructor.
  - destruct (Add X vs tw kv fo) as [[vs' tw'] r] eqn:E.
    now apply (Add_state _ _ _ _ _ _ _ E).
  - constructor.
Qed.

(** C3.  For every state the policy reaches, the blob-reference depth that
    [FinishOutput] returns is the minimum of the depth carried from the input
    sstables and the number of distinct blob files the finished output
    references; it never exceeds the carried depth, which [FinishOutput]
    leaves as it is. *)
Theorem FinishOutput_depth (vs : state) :
  reachable X vs ->
  exists md,
    snd (FinishOutput vs) = Ok md /\
    BlobReferenceDepth md
    = Z.min (outputBlobReferenceDepth vs) (len (distinctFiles (BlobReferences md))) /\
    BlobReferenceDepth md <= outputBlobReferenceDepth vs /\
    outputBlobReferenceDepth (fst (FinishOutput vs)) = outputBlobReferenceDepth vs.
Proof.
  intros Hr. apply reachable_NoDup in Hr.
  rewrite FinishOutput_eq. eexists. split; [reflexivity |].
  cbn [BlobReferenceDepth BlobReferences fst outputBlobReferenceDepth with_references].
  unfold distinctFiles. rewrite (nodup_fixed_point Z.eq_dec Hr).
  unfold len. rewrite length_map.
  repeat split; lia.
Qed.

(** *** Reference indices *)

(** The blob file a value refers to, if the value is a blob handle. *)
Definition blobFileOf (kv : InternalKV) : option Z :=
  match V kv with
  | BlobValueHandle lv => Some (BlobFileNum (Fetcher lv))
  | _ => None
  end.

Definition blobFiles (items : list (InternalKV * bool)) : list Z :=
  flat_map (fun it => match blobFileOf (fst it) with Some fn => [fn] | None => [] end)
           items.

(** The position of [fn] in [order]. *)
Fixpoint indexOf (fn : Z) (order : list Z) : option Z :=
  match order with
  | [] => None
  | x :: rest => if x =? fn then Some 0 else option_map Z.succ (indexOf fn rest)
  end.

(** File numbers in the order of their first appearance, after those of
    [order]. *)
Fixpoint extendOrder (order fns : list Z) : list Z :=
  match fns with
  | [] => order
  | fn :: rest =>
      extendOrder (if existsb (Z.eqb fn) order then order else order ++ [fn]) rest
  end.

Definition firstAppearances (fns : list Z) : list Z := extendOrder [] fns.

(** What the sstable writer is to be called with for a pair, given the
    order of the output's blob files: the value itself, or its handle with
    the position of its blob file as the reference index. *)
Definition expectedCall (order : list Z) (it : InternalKV * bool) : option WriterCall :=
  let '(kv, fo) := it in
  match V kv with
  | BlobValueHandle lv =>
      match indexOf (BlobFileNum (Fetcher lv)) order with
      | Some i =>
          Some (CallAddWithBlobHandle (K kv)
                  (mkInlineHandle i (AttributeValueLen (Fetcher lv))
                     (blob_DecodeHandleSuffix X (ValueOrHandle lv)))
                  (AttributeShortAttribute (Fetcher lv)) fo)
      | None => None
      end
  | _ =>
      match Value kv with
      | Ok v => Some (CallAdd (K kv) v fo)
      | _ => None
      end
  end.

Lemma findReference_indexOf (refs : list BlobReference) (fn start : Z) :
  findReference refs fn start
  = option_map (fun i => start + i) (indexOf fn (map FileNum refs)).
Proof.
  revert start. induction refs as [| r refs IH]; intros start; [reflexivity |].
  cbn [findReference map indexOf].
  destruct (FileNum r =? fn); [cbn; f_equal; lia |].
  rewrite IH. destruct (indexOf fn (map FileNum refs)); cbn; [f_equal; lia | reflexivity].
Qed.

Lemma indexOf_bound (fn : Z) (order : list Z) (i : Z) :
  indexOf fn order = Some i -> 0 <= i < len order.
Proof.
  revert i. induction order as [| x order IH]; intros i H; [discriminate |].
  cbn [indexOf] in H. rewrite len_cons.
  destruct (x =? fn).
  - injection H as <-. pose proof (len_nonneg order). lia.
  - destruct (indexOf fn order) as [j |]; [| discriminate].
    injection H as <-. specialize (IH j eq_refl). lia.
Qed.

Lemma indexOf_app_l (fn : Z) (order more : list Z) (i : Z) :
  indexOf fn order = Some i -> indexOf fn (order ++ more) = Some i.
Proof.
  revert i. induction order as [| x order IH]; intros i H; [discriminate |].
  cbn [indexOf app] in *. destruct (x =? fn); [exact H |].
  destruct (indexOf fn order) as [j |]; [| discriminate].
  now rewrite (IH j eq_refl).
Qed.

Lemma indexOf_None (fn : Z) (order : list Z) :
  indexOf fn order = None <-> ~ In fn order.
Proof.
  induction order as [| x order IH]; cbn [indexOf In]; [tauto |].
  destruct (Z.eqb_spec x fn) as [E | N].
  - split; [discriminate | tauto].
  - destruct (indexOf fn order) as [j |]; cbn [option_map].
    + split; [discriminate |]. intros Hn. exfalso. apply Hn. right.
      destruct (in_dec Z.eq_dec fn order) as [Hin | Hnin]; [exact Hin |].
      apply IH in Hnin. discriminate.
    + split; [| reflexivity]. intros _ [C | C]; [contradiction |].
      destruct IH as [IH _]. exact (IH eq_refl C).
Qed.

Lemma indexOf_app_new (fn : Z) (order : list Z) :
  ~ In fn order -> indexOf fn (order ++ [fn]) = Some (len order).
Proof.
  induction order as [| x order IH]; intros Hn.
  - cbn. now rewrite Z.eqb_refl.
  - cbn [app indexOf]. destruct (Z.eqb_spec x fn) as [E | N]; [cbn in Hn; tauto |].
    rewrite IH by (cbn in Hn; tauto). cbn [option_map]. rewrite len_cons. f_equal. lia.
Qed.

Lemma indexOf_nth (order : list Z) (i : nat) (fn : Z) :
  NoDup order -> nth_error order i = Some fn -> indexOf fn order = Some (Z.of_nat i).
Proof.
  revert i. induction order as [| x order IH]; intros i Hnd Hn.
  - destruct i; discriminate.
  - inversion Hnd as [| ? ? Hx Hnd']; subst. destruct i as [| i]; cbn in Hn.
    + injection Hn as <-. cbn. now rewrite Z.eqb_refl.
    + cbn [indexOf]. destruct (Z.eqb_spec x fn) as [E | N].
      * subst. exfalso. apply Hx. eapply nth_error_In; eauto.
      * rewrite (IH i Hnd' Hn). cbn [option_map]. f_equal. lia.
Qed.

Lemma existsb_eqb_In (fn : Z) (order : list Z) :
  existsb (Z.eqb fn) order = true <-> In fn order.
Proof.
  rewrite existsb_exists. split.
  - intros (x & Hin & E). apply Z.eqb_eq in E. now subst.
  - intros Hin. exists fn. split; [exact Hin | apply Z.eqb_refl].
Qed.

Lemma extendOrder_app (order a b : list Z) :
  extendOrder order (a ++ b) = extendOrder (extendOrder order a) b.
Proof.
  revert order. induction a as [| fn a IH]; intros order; [reflexivity |].
  cbn [app extendOrder]. apply IH.
Qed.

Lemma extendOrder_prefix (order fns : list Z) :
  exists more, extendOrder order fns = order ++ more.
Proof.
  revert order. induction fns as [| fn fns IH]; intros order.
  - exists []. now rewrite app_nil_r.
  - cbn [extendOrder]. destruct (existsb (Z.eqb fn) order).
    + apply IH.
    + destruct (IH (order ++ [fn])) as [more ->]. exists ([fn] ++ more).
      now rewrite <- app_assoc.
Qed.

Lemma extendOrder_NoDup (order fns : list Z) :
  NoDup order -> NoDup (extendOrder order fns).
Proof.
  revert order. induction fns as [| fn fns IH]; intros order Hnd; [exact Hnd |].
  cbn [extendOrder]. destruct (existsb (Z.eqb fn) order) eqn:E; apply IH; [exact Hnd |].
  apply NoDup_app; [exact Hnd | repeat constructor; intros [] |].
  intros a Ha [<- | []].
  apply existsb_eqb_In in Ha. congruence.
Qed.

Lemma extendOrder_In (order fns : list Z) (fn : Z) :
  In fn (extendOrder order fns) -> In fn order \/ In fn fns.
Proof.
  revert order. induction fns as [| x fns IH]; intros order H; [now left |].
  cbn [extendOrder] in H. apply IH in H as [H | H]; [| right; now right].
  destruct (existsb (Z.eqb x) order); [now left |].
  apply in_app_or in H as [H | [<- | []]]; [now left | right; now left].
Qed.

Lemma extendOrder_len (order fns : list Z) : len order <= len (extendOrder order fns).
Proof.
  destruct (extendOrder_prefix order fns) as [more ->]. rewrite len_app.
  pose proof (len_nonneg more). lia.
Qed.

Lemma expectedCall_app (order more : list Z) (it : InternalKV * bool) (c : WriterCall) :
  expectedCall order it = Some c -> expectedCall (order ++ more) it = Some c.
Proof.
  destruct it as [kv fo]. unfold expectedCall.
  destruct (V kv) as [v | lv | lv]; try tauto.
  destruct (indexOf (BlobFileNum (Fetcher lv)) order) as [i |] eqn:E; [| discriminate].
  now rewrite (indexOf_app_l _ _ more _ E).
Qed.

Lemma u32_small (x : Z) : 0 <= x < 2 ^ 32 -> u32 x = x.
Proof. intros H. unfold u32. now apply Z.mod_small. Qed.

(** A [copyHandle] that returns no error has made exactly one call, which the
    writer accepted, with the reference index it was given. *)
Lemma copyHandle_Ok (vs : state) (tw : RawWriter) (kv : InternalKV) (lv : LazyValue)
      (refIdx : Z) (fo : bool) (vs' : state) (tw' : RawWriter) :
  copyHandle X vs tw kv lv refIdx fo = (vs', tw', Ok tt) ->
  calls tw'
  = calls tw
    ++ [(CallAddWithBlobHandle (K kv)
           (mkInlineHandle (u32 refIdx) (AttributeValueLen (Fetcher lv))
              (blob_DecodeHandleSuffix X (ValueOrHandle lv)))
           (AttributeShortAttribute (Fetcher lv)) fo, None)].
Proof.
  unfold copyHandle. destruct (wrongReferenceIndex X vs refIdx _); [discriminate |].
  cbn. destruct (refuses tw (calls tw) _) eqn:E; [discriminate |].
  intros H. injection H as <- <-. reflexivity.
Qed.

(** One [Add] that returns no error: the references now list the files in
    the order extended by this pair's blob file, and the one call made is the
    expected one for that order. *)
Lemma Add_Ok (vs : state) (tw : RawWriter) (kv : InternalKV) (fo : bool)
      (vs' : state) (tw' : RawWriter) :
  Add X vs tw kv fo = (vs', tw', Ok tt) ->
  let order := extendOrder (map FileNum (currReferences vs)) (blobFiles [(kv, fo)]) in
  len order <= 2 ^ 32 ->
  map FileNum (currReferences vs') = order /\
  exists c, calls tw' = calls tw ++ [(c, None)] /\ expectedCall order (kv, fo) = Some c.
Proof.
  unfold Add, blobFiles, blobFileOf, expectedCall. cbn [flat_map fst app].
  destruct (V kv) as [v | lv | lv] eqn:Ev.
  1,2: cbn [extendOrder]; intros H _;
       destruct (Value kv) as [v' | e | m]; try discriminate;
       cbn in H; destruct (refuses tw (calls tw) _) eqn:E; try discriminate;
       injection H as <- <-; split; [reflexivity |];
       eexists; split; reflexivity.
  set (fn := BlobFileNum (Fetcher lv)).
  cbn [extendOrder app].
  rewrite findReference_indexOf.
  destruct (indexOf fn (map FileNum (currReferences vs))) as [i |] eqn:Ei.
  - cbn [option_map]. replace (0 + i) with i by lia. intros H Hlen.
    assert (Hin : existsb (Z.eqb fn) (map FileNum (currReferences vs)) = true).
    { apply existsb_eqb_In. destruct (indexOf_None fn (map FileNum (currReferences vs)))
        as [_ Hn]. destruct (in_dec Z.eq_dec fn (map FileNum (currReferences vs)));
        [assumption |]. rewrite (Hn n) in Ei. discriminate. }
    rewrite Hin in *.
    pose proof (indexOf_bound _ _ _ Ei) as Hb.
    pose proof (copyHandle_state _ _ _ _ _ _ _ _ _ H) as (Hf & _).
    { unfold len in *. rewrite length_map in Hb. exact Hb. }
    apply copyHandle_Ok in H. rewrite u32_small in H by lia.
    split; [exact Hf |]. rewrite Ei. eexists. split; [exact H | reflexivity].
  - cbn [option_map]. intros H Hlen.
    apply indexOf_None in Ei.
    assert (Hin : existsb (Z.eqb fn) (map FileNum (currReferences vs)) = false).
    { destruct (existsb (Z.eqb fn) (map FileNum (currReferences vs))) eqn:E;
        [| reflexivity]. apply existsb_eqb_In in E. contradiction. }
    rewrite Hin in *.
    destruct (findInputBlobMetadata vs fn) as [idx found].
    destruct found; cbn [negb] in H; [| discriminate].
    pose proof (len_nonneg (currReferences vs)) as Hnn.
    pose proof (copyHandle_state _ _ _ _ _ _ _ _ _ H) as (Hf & _).
    { cbn [currReferences with_references]. rewrite len_app, len_cons.
      change (len (@nil BlobReference)) with 0. lia. }
    cbn [currReferences with_references] in Hf.
    rewrite map_app in Hf. cbn [map FileNum] in Hf.
    apply copyHandle_Ok in H.
    rewrite len_app in Hlen. change (len [fn]) with 1 in Hlen.
    assert (Hl : len (map FileNum (currReferences vs)) = len (currReferences vs)).
    { unfold len. now rewrite length_map. }
    rewrite u32_small in H by lia.
    split; [exact Hf |].
    rewrite (indexOf_app_new fn _ Ei), Hl.
    eexists. split; [exact H | reflexivity].
Qed.

(** A run of [Add] calls none of which returns an error. *)
Lemma AddAll_Ok (items : list (InternalKV * bool)) :
  forall (vs : state) (tw : RawWriter) (vs' : state) (tw' : RawWriter)
         (rs : list (result unit)),
    AddAll X vs tw items = (vs', tw', rs) ->
    Forall (fun r => r = Ok tt) rs ->
    let order := extendOrder (map FileNum (currReferences vs)) (blobFiles items) in
    len order <= 2 ^ 32 ->
    map FileNum (currReferences vs') = order /\
    exists new,
      calls tw' = calls tw ++ new /\
      Forall2 (fun it c => expectedCall order it = Some (fst c) /\ snd c = None)
              items new.
Proof.
  induction items as [| [kv fo] rest IH]; intros vs tw vs' tw' rs H Hok order Hlen.
  - cbn in H. injection H as <- <- <-. split; [reflexivity |].
    exists []. rewrite app_nil_r. split; constructor.
  - cbn [AddAll] in H.
    destruct (Add X vs tw kv fo) as [[vs1 tw1] r1] eqn:E1.
    destruct (AddAll X vs1 tw1 rest) as [[vs2 tw2] rs2] eqn:E2.
    injection H as <- <- <-.
    inversion Hok as [| ? ? Hr1 Hrs]; subst.
    assert (Horder : order
                     = extendOrder
                         (extendOrder (map FileNum (currReferences vs)) (blobFiles [(kv, fo)]))
                         (blobFiles rest)).
    { unfold order. rewrite <- extendOrder_app. f_equal.
      unfold blobFiles. cbn [flat_map]. now rewrite app_nil_r. }
    pose proof (extendOrder_len
                  (extendOrder (map FileNum (currReferences vs)) (blobFiles [(kv, fo)]))
                  (blobFiles rest)) as Hmono.
    rewrite <- Horder in Hmono.
    apply Add_Ok in E1 as (Hf1 & c & Hc1 & He1); [| lia].
    rewrite <- Hf1 in Horder.
    apply IH in E2 as (Hf2 & new & Hc2 & Hall); [| exact Hrs | rewrite <- Horder; lia].
    rewrite <- Horder in Hf2, Hall.
    split; [exact Hf2 |].
    exists ((c, None) :: new). rewrite Hc2, Hc1, <- app_assoc. split; [reflexivity |].
    constructor; [| exact Hall].
    split; [| reflexivity]. cbn [fst].
    destruct (extendOrder_prefix (map FileNum (currReferences vs1)) (blobFiles rest))
      as [more Hmore].
    rewrite Horder, Hmore. apply expectedCall_app. rewrite Hf1. exact He1.
Qed.

Lemma Forall2_In_l {A B : Type} (R : A -> B -> Prop) (l : list A) (l' : list B) (a : A) :
  Forall2 R l l' -> In a l -> exists b, In b l' /\ R a b.
Proof.
  induction 1 as [| x y l l' Hxy _ IH]; intros Hin; [destruct Hin |].
  destruct Hin as [<- | Hin].
  - exists y. split; [now left | exact Hxy].
  - destruct (IH Hin) as (b & Hb & Hr). exists b. split; [now right | exact Hr].
Qed.

Lemma Forall2_In_r {A B : Type} (R : A -> B -> Prop) (l : list A) (l' : list B) (b : B) :
  Forall2 R l l' -> In b l' -> exists a, In a l /\ R a b.
Proof.
  induction 1 as [| x y l l' Hxy _ IH]; intros Hin; [destruct Hin |].
  destruct Hin as [<- | Hin].
  - exists x. split; [now left | exact Hxy].
  - destruct (IH Hin) as (a & Ha & Hr). exists a. split; [now right | exact Hr].
Qed.

Lemma In_blobFiles (items : list (InternalKV * bool)) (fn : Z) :
  In fn (blobFiles items) ->
  exists it lv, In it items /\ V (fst it) = BlobValueHandle lv /\
                BlobFileNum (Fetcher lv) = fn.
Proof.
  unfold blobFiles. intros H. apply in_flat_map in H as (it & Hin & Hfn).
  unfold blobFileOf in Hfn. destruct (V (fst it)) as [v | lv | lv] eqn:Ev;
    try (destruct Hfn; fail).
  destruct Hfn as [<- | []]. exists it, lv. auto.
Qed.

(** C2.  Over a run of [Add] calls that starts with no current reference
    (a new policy, or right after [FinishOutput]) and in which no call
    returns an error: every pair is answered by one call on the sstable
    writer, an inline value going through [Add] as it is, a blob handle
    carrying as its reference index the position of its blob file in the
    order of first appearance among the blob handles of the run; the indices
    used are exactly 0, ..., k-1 for the k files of that order; the
    references [FinishOutput] returns are those files in that order, and it
    leaves no current reference, so that the next output counts from 0. *)
Theorem reference_indices_dense (vs : state) (tw : RawWriter)
        (items : list (InternalKV * bool)) (vs' : state) (tw' : RawWriter)
        (rs : list (result unit)) :
  currReferences vs = [] ->
  AddAll X vs tw items = (vs', tw', rs) ->
  Forall (fun r => r = Ok tt) rs ->
  let order := firstAppearances (blobFiles items) in
  len order <= 2 ^ 32 ->
  exists new,
    calls tw' = calls tw ++ new /\
    Forall2 (fun it c => expectedCall order it = Some (fst c) /\ snd c = None) items new /\
    (forall c key h attr fo,
       In c new -> fst c = CallAddWithBlobHandle key h attr fo ->
       0 <= ReferenceIndex h < len order) /\
    (forall i, 0 <= i < len order ->
       exists c key h attr fo,
         In c new /\ fst c = CallAddWithBlobHandle key h attr fo /\ ReferenceIndex h = i) /\
    exists md,
      FinishOutput vs' = (with_references vs' [], Ok md) /\
      map FileNum (BlobReferences md) = order /\
      currReferences (with_references vs' []) = [].
Proof.
  intros Hempty H Hok order Hlen.
  pose proof (AddAll_Ok items vs tw vs' tw' rs H Hok) as Hrun.
  rewrite Hempty in Hrun. cbn [map] in Hrun. fold (firstAppearances (blobFiles items)) in Hrun.
  fold order in Hrun. destruct (Hrun Hlen) as (Hf & new & Hc & Hall).
  assert (Hnd : NoDup order) by (apply extendOrder_NoDup; constructor).
  exists new. split; [exact Hc |]. split; [exact Hall |]. split; [| split].
  - intros c key h attr fo Hin Hfst.
    destruct (Forall2_In_r _ _ _ c Hall Hin) as ([kv fo'] & _ & He & _).
    rewrite Hfst in He. unfold expectedCall in He.
    destruct (V kv) as [v | lv | lv].
    1,2: destruct (Value kv); discriminate.
    destruct (indexOf (BlobFileNum (Fetcher lv)) order) as [i |] eqn:Ei; [| discriminate].
    injection He as _ <- _ _. cbn [ReferenceIndex]. exact (indexOf_bound _ _ _ Ei).
  - intros i Hi.
    destruct (nth_error order (Z.to_nat i)) as [fn |] eqn:En.
    2:{ apply nth_error_None in En. unfold len in Hi. lia. }
    assert (Hin : In fn (blobFiles items)).
    { apply nth_error_In in En. apply extendOrder_In in En as [[] | En]. exact En. }
    apply In_blobFiles in Hin as ([kv fo] & lv & Hit & Hv & Hfn).
    destruct (Forall2_In_l _ _ _ _ Hall Hit) as (c & Hcin & He & _).
    cbn [fst] in Hv. unfold expectedCall in He. rewrite Hv, Hfn in He.
    rewrite (indexOf_nth order (Z.to_nat i) fn Hnd En) in He.
    rewrite Z2Nat.id in He by lia.
    exists c. do 4 eexists. split; [exact Hcin |]. split; [symmetry; injection He as He; exact He |].
    reflexivity.
  - rewrite FinishOutput_eq. eexists. split; [reflexivity |].
    cbn [BlobReferences]. split; [exact Hf | reflexivity].
Qed.

(** *** The running total of value sizes *)

(** Every [Add], whatever it returns, keeps the total equal to the sum over
    the current references. *)
Lemma Add_preserves_sizesAgree (vs : state) (tw : RawWriter) (kv : InternalKV)
      (fo : bool) :
  sizesAgree vs -> sizesAgree (fst (fst (Add X vs tw kv fo))).
Proof.
  intros Hs. destruct (Add X vs tw kv fo) as [[vs' tw'] r] eqn:E.
  now apply (Add_state _ _ _ _ _ _ _ E).
Qed.

(** [FinishOutput] returns the current references, their summed value sizes
    as the reference size, and leaves no current reference. *)
Lemma FinishOutput_reference_size (vs : state) :
  exists md,
    snd (FinishOutput vs) = Ok md /\
    BlobReferences md = currReferences vs /\
    BlobReferenceSize md = referenceSize (BlobReferences md) /\
    currReferences (fst (FinishOutput vs)) = [].
Proof. rewrite FinishOutput_eq. eexists. repeat split. Qed.

(** [FinishOutput] does not touch the running total. *)
Lemma FinishOutput_totalValueSize (vs : state) :
  totalValueSize (fst (FinishOutput vs)) = totalValueSize vs.
Proof. reflexivity. Qed.

End Facts.

End preserveBlobReferences.

(** ** A concrete compaction preserving references *)

Definition demoInputs : list BlobFileMetadata :=
  [mkBlobFileMetadata 5 1000 900 1; mkBlobFileMetadata 7 1000 900 1;
   mkBlobFileMetadata 9 1000 900 1].

(** A key whose value is a handle of [n] bytes into blob file [fn]. *)
Definition blobKV (k fn n : Z) : InternalKV :=
  mkInternalKV (demoKey k)
    (BlobValueHandle (mkLazyValue [3; 4] (mkLazyFetcher fn n 0 (Ok [])))).

Definition demoPreserve : preserveBlobReferences.state :=
  preserveBlobReferences.newState demoInputs 2.

(** C10.  The total is to stay the sum of the value sizes of the current
    references across [FinishOutput] as well.  From the initial state, one
    handle of 10 bytes into blob file 7 is added, which succeeds and keeps the
    two equal; [FinishOutput] then empties the current references and leaves
    the total at 10, against a sum of 0. *)
Theorem FinishOutput_leaves_totalValueSize :
  let '(vs1, _, r) :=
    preserveBlobReferences.Add demoExternals demoPreserve demoWriter (blobKV 1 7 10) false in
  let vs2 := fst (preserveBlobReferences.FinishOutput vs1) in
  r = Ok tt /\
  preserveBlobReferences.sizesAgree vs1 /\
  preserveBlobReferences.currReferences vs2 = [] /\
  preserveBlobReferences.totalValueSize vs2 = 10 /\
  preserveBlobReferences.referenceSize (preserveBlobReferences.currReferences vs2) = 0 /\
  ~ preserveBlobReferences.sizesAgree vs2.
Proof.
  vm_compute. repeat split; discriminate.
Qed.

Lemma FinishOutput_depth_witness :
  exists md,
    snd (preserveBlobReferences.FinishOutput
           (fst (fst (preserveBlobReferences.Add demoExternals demoPreserve demoWriter
                        (blobKV 1 7 10) false)))) = Ok md /\
    BlobReferenceDepth md = 1.
Proof.
  destruct (preserveBlobReferences.FinishOutput_depth demoExternals
              (fst (fst (preserveBlobReferences.Add demoExternals demoPreserve demoWriter
                           (blobKV 1 7 10) false))))
    as (md & Hmd & Hdepth & _).
  - apply preserveBlobReferences.reach_Add. apply preserveBlobReferences.reach_new.
  - exists md. split; [exact Hmd |].
    rewrite Hdepth. vm_compute in Hmd. injection Hmd as <-. reflexivity.
Defined.

Definition demoItems : list (InternalKV * bool) :=
  [(blobKV 1 7 10, false); (smallKV, false); (blobKV 2 5 20, true);
   (blobKV 3 7 30, false)].

Lemma reference_indices_dense_witness :
  preserveBlobReferences.firstAppearances (preserveBlobReferences.blobFiles demoItems)
  = [7; 5] /\
  let '(vs', tw', rs) :=
    preserveBlobReferences.AddAll demoExternals demoPreserve demoWriter demoItems in
  exists md,
    preserveBlobReferences.FinishOutput vs'
    = (preserveBlobReferences.with_references vs' [], Ok md) /\
    map FileNum (BlobReferences md) = [7; 5].
Proof.
  split; [reflexivity |].
  destruct (preserveBlobReferences.AddAll demoExternals demoPreserve demoWriter demoItems)
    as [[vs' tw'] rs] eqn:E.
  assert (Hok : Forall (fun r => r = Ok tt) rs).
  { vm_compute in E. injection E as _ _ <-. repeat constructor. }
  destruct (preserveBlobReferences.reference_indices_dense demoExternals demoPreserve
              demoWriter demoItems vs' tw' rs eq_refl E Hok)
    as (new & _ & _ & _ & _ & md & Hfin & Hfiles & _).
  - vm_compute. discriminate.
  - exists md. split; [exact Hfin | exact Hfiles].
Defined.

(** * The merging iterator of the read path *)

Module mergingIter.

(** Modelled from the spec: the merging iterator is not among the sources,
    which only hold the script [testdata/external_iterator].  A sorted file
    holds point keys, "strictly increasing" in the order "user key ascending,
    then sequence number descending", and range deletions, each "a tombstone
    covering a contiguous key range". *)
Record PointKey : Type := mkPointKey {
  userKey : bytes;
  seqNum : Z;
  kind : InternalKeyKind;
  value : bytes
}.

Record RangeDel : Type := mkRangeDel { rdStart : bytes; rdEnd : bytes; rdSeqNum : Z }.

Record File : Type := mkFile { points : list PointKey; rangeDels : list RangeDel }.

(** Modelled from the spec: the "distinguished maximum value" of the 64-bit
    sequence number, which "denotes read everything committed". *)
Definition SeqNumMax : Z := 2 ^ 64 - 1.

(** Modelled from the spec: the order of internal keys, "by user key
    ascending, then by sequence number descending". *)
Definition keyBefore (a b : PointKey) : bool :=
  let c := bytesCompare (userKey a) (userKey b) in
  (c <? 0) || ((c =? 0) && (seqNum b <? seqNum a)).

(** Modelled from the spec: the "priority merge" of the sources, here of two
    sorted runs of point keys. *)
Fixpoint merge (l1 : list PointKey) : list PointKey -> list PointKey :=
  fix merge_with (l2 : list PointKey) : list PointKey :=
    match l1, l2 with
    | [], _ => l2
    | _, [] => l1
    | a :: l1', b :: l2' =>
        if keyBefore b a then b :: merge_with l2' else a :: merge l1' l2
    end.

Definition mergeAll (files : list File) : list PointKey :=
  fold_right (fun f acc => merge (points f) acc) [] files.

(** Modelled from the spec: a point key "is shadowed by an overlapping range
    deletion with a higher sequence number"; the tombstone itself has to be
    visible at the read ceiling [S]. *)
Definition covers (rd : RangeDel) (k : bytes) : bool :=
  (bytesCompare (rdStart rd) k <=? 0) && (bytesCompare k (rdEnd rd) <? 0).

Definition shadowed (rds : list RangeDel) (S : Z) (e : PointKey) : bool :=
  existsb (fun rd => (rdSeqNum rd <=? S) && covers rd (userKey e)
                     && (seqNum e <? rdSeqNum rd)) rds.

(** Modelled from the spec: the kinds that surface no value, the deletion
    markers ("a kind other than invisible marker is surfaced"). *)
Definition isTombstone (k : InternalKeyKind) : bool :=
  match k with
  | InternalKeyKindDelete | InternalKeyKindSingleDelete => true
  | _ => false
  end.

(** Modelled from the spec, the visibility rule: "only internal keys with
    sequence number <= S are visible; among visible keys sharing a user key,
    only the one with the greatest sequence number (and a kind other than
    invisible marker) is surfaced".  [entries] come in internal-key order;
    [last] is the user key already decided. *)
Fixpoint surface (rds : list RangeDel) (S : Z) (entries : list PointKey)
         (last : option bytes) : list (bytes * bytes) :=
  match entries with
  | [] => []
  | e :: rest =>
      if S <? seqNum e then surface rds S rest last
      else
        match last with
        | Some k =>
            if bytes_eqb k (userKey e) then surface rds S rest last
            else
              (if isTombstone (kind e) || shadowed rds S e then []
               else [(userKey e, value e)])
              ++ surface rds S rest (Some (userKey e))
        | None =>
            (if isTombstone (kind e) || shadowed rds S e then []
             else [(userKey e, value e)])
            ++ surface rds S rest (Some (userKey e))
        end
  end.

(** Modelled from the spec: the iterator is a "state machine over a position
    that is one of before-first, positioned-at-key, exhausted" (no source of
    errors is modelled). *)
Inductive Position : Type :=
| BeforeFirst
| AtKey (i : nat)
| Exhausted.

Record Iterator : Type := mkIterator {
  visible : list (bytes * bytes);
  position : Position
}.

(** Modelled from the spec: the iterator over a set of files at the read
    ceiling [S], with the "seek-to-first" and "next" operations. *)
Definition NewIter (files : list File) (S : Z) : Iterator :=
  mkIterator (surface (flat_map rangeDels files) S (mergeAll files) None) BeforeFirst.

Definition seekTo (it : Iterator) (i : nat) : Iterator :=
  mkIterator (visible it) (if (i <? length (visible it))%nat then AtKey i else Exhausted).

Definition First (it : Iterator) : Iterator := seekTo it 0.

Definition Next (it : Iterator) : Iterator :=
  match position it with
  | BeforeFirst => First it
  | AtKey i => seekTo it (S i)
  | Exhausted => it
  end.

(** Modelled from the spec: what a positioned iterator reports, its key
    and value, and nothing when exhausted. *)
Definition current (it : Iterator) : option (bytes * bytes) :=
  match position it with
  | AtKey i => nth_error (visible it) i
  | _ => None
  end.

Inductive Op : Type := OpFirst | OpNext.

(** Modelled from the spec: a script of operations, as the scenarios give
    it ("seeking to first and stepping"): one report per operation. *)
Fixpoint run (it : Iterator) (ops : list Op) : list (option (bytes * bytes)) :=
  match ops with
  | [] => []
  | op :: rest =>
      let it := match op with OpFirst => First it | OpNext => Next it end in
      current it :: run it rest
  end.

(** The files of the script.  Keys and values are single letters. *)
Definition key (c : Z) : bytes := [c].
Definition a : Z := 97.
Definition b : Z := 98.
Definition c : Z := 99.
Definition f : Z := 102.
Definition z : Z := 122.

Definition setKey (k : Z) (seq : Z) : PointKey :=
  mkPointKey (key k) seq InternalKeyKindSet (key k).

Definition file1 : File := mkFile [setKey b 1; setKey c 2] [].
Definition file2 : File := mkFile [] [mkRangeDel (key c) (key z) 3].
Definition file3 : File := mkFile [setKey a 4; setKey f 5] [].

(** Whatever surfaces is the value of a visible point key that is no
    tombstone and that no visible range deletion of a higher sequence number
    covers. *)
Lemma surface_sound (rds : list RangeDel) (S : Z) (entries : list PointKey) :
  forall (last : option bytes) (k v : bytes),
    In (k, v) (surface rds S entries last) ->
    exists e, In e entries /\ userKey e = k /\ value e = v /\ seqNum e <= S /\
              isTombstone (kind e) = false /\ shadowed rds S e = false.
Proof.
  induction entries as [| e rest IH]; intros last k v H; [destruct H |].
  cbn [surface] in H.
  assert (Hrest : forall last', In (k, v) (surface rds S rest last') ->
            exists e', In e' (e :: rest) /\ userKey e' = k /\ value e' = v /\
                       seqNum e' <= S /\ isTombstone (kind e') = false /\
                       shadowed rds S e' = false).
  { intros last' H'. destruct (IH last' k v H') as (e' & Hin & Hp).
    exists e'. split; [now right | exact Hp]. }
  assert (Hhere :
    In (k, v) ((if isTombstone (kind e) || shadowed rds S e then []
                else [(userKey e, value e)])
               ++ surface rds S rest (Some (userKey e))) ->
    seqNum e <= S ->
    exists e', In e' (e :: rest) /\ userKey e' = k /\ value e' = v /\
               seqNum e' <= S /\ isTombstone (kind e') = false /\
               shadowed rds S e' = false).
  { intros H' Hs. apply in_app_or in H' as [H' | H']; [| now apply (Hrest _ H')].
    destruct (isTombstone (kind e) || shadowed rds S e) eqn:E; [destruct H' |].
    apply orb_false_iff in E as [E1 E2].
    destruct H' as [H' | []]. injection H' as <- <-.
    exists e. repeat split; try assumption. now left. }
  destruct (Z.ltb_spec S (seqNum e)) as [Hgt | Hle]; [now apply (Hrest _ H) |].
  destruct last as [k0 |]; [| now apply Hhere].
  destruct (bytes_eqb k0 (userKey e)); [now apply (Hrest _ H) | now apply Hhere].
Qed.

(** C5.  Over the file with points b:b and c:c at sequence numbers 1 and 2
    and the file with the range deletion [c, z) at sequence number 3, the
    merging iterator, sought to first and stepped once, reports b:b and then
    exhaustion: c never surfaces. *)
Theorem rangedel_shadows_older_point :
  run (NewIter [file2; file1] SeqNumMax) [OpFirst; OpNext]
  = [Some (key b, key b); None]
  /\ ~ In (key c) (map fst (visible (NewIter [file2; file1] SeqNumMax)))
  /\ shadowed (rangeDels file2) SeqNumMax (setKey c 2) = true.
Proof.
  split; [reflexivity |]. split; [| reflexivity].
  vm_compute. intros [H | []]. discriminate.
Qed.

(** C6.  With the third file, points a:a and f:f at sequence numbers 4 and
    5, the merging iterator over the three files reports a:a, b:b, f:f from
    first on, then exhaustion: f lies in [c, z) but is newer than the range
    deletion, which does not shadow it. *)
Theorem rangedel_spares_newer_point :
  run (NewIter [file3; file2; file1] SeqNumMax) [OpFirst; OpNext; OpNext; OpNext]
  = [Some (key a, key a); Some (key b, key b); Some (key f, key f); None]
  /\ covers (mkRangeDel (key c) (key z) 3) (key f) = true
  /\ shadowed (flat_map rangeDels [file3; file2; file1]) SeqNumMax (setKey f 5) = false.
Proof. repeat split; reflexivity. Qed.

End mergingIter.

(** * Further properties of the footer codec *)

(** ** Varints and handles stay within uint64 *)

Lemma Uvarint_loop_range (buf : bytes) :
  forall i x s, 0 <= x < 2 ^ 64 -> 0 <= fst (Uvarint_loop buf i x s) < 2 ^ 64.
Proof.
  assert (H0 : 0 <= 0 < 2 ^ 64) by (split; [lia | reflexivity]).
  assert (Hu : forall y, 0 <= u64 y < 2 ^ 64).
  { intros y. unfold u64. apply Z.mod_pos_bound. reflexivity. }
  induction buf as [| b rest IH]; intros i x s Hx; cbn [Uvarint_loop].
  - exact H0.
  - destruct (i =? MaxVarintLen64); [exact H0 |].
    destruct (b <? 128).
    + destruct ((i =? MaxVarintLen64 - 1) && (1 <? b)); [exact H0 |].
      cbn [fst]. apply lor_lt_pow2; [lia | exact Hx | apply Hu].
    + apply IH. apply lor_lt_pow2; [lia | exact Hx | apply Hu].
Qed.

Lemma DecodeHandle_range (src : bytes) : handle_is_u64 (fst (DecodeHandle src)).
Proof.
  assert (H0 : 0 <= 0 < 2 ^ 64) by (split; [lia | reflexivity]).
  assert (Hz : handle_is_u64 zeroHandle) by (split; exact H0).
  unfold DecodeHandle.
  pose proof (Uvarint_loop_range src 0 0 0 H0) as H1. fold (Uvarint src) in H1.
  destruct (Uvarint src) as [offset n].
  destruct (n <=? 0); [exact Hz |].
  pose proof (Uvarint_loop_range (slice_from src n) 0 0 0 H0) as H2.
  fold (Uvarint (slice_from src n)) in H2.
  destruct (Uvarint (slice_from src n)) as [length m].
  destruct (m <=? 0); [exact Hz |].
  split; assumption.
Qed.

Lemma parseFooter_handles_range (f0 f : footer) (buf : bytes) (size : Z) :
  parseFooter_handles f0 buf size = Ok f ->
  handle_is_u64 (metaindexBH f) /\ handle_is_u64 (indexBH f).
Proof.
  intros H.
  apply parseFooter_handles_Ok_inv in H as (n1 & n2 & D1 & _ & _ & D2 & _).
  split.
  - pose proof (DecodeHandle_range buf) as R. now rewrite D1 in R.
  - pose proof (DecodeHandle_range (slice_from buf n1)) as R. now rewrite D2 in R.
Qed.

Lemma parseFooter_Ok_handles_range (buf : bytes) (off size : Z) (f : footer) :
  parseFooter buf off size = Ok f ->
  handle_is_u64 (metaindexBH f) /\ handle_is_u64 (indexBH f).
Proof.
  intros H. apply parseFooter_Ok_inv in H as [_ [H | H]].
  - destruct H as (_ & _ & f0 & _ & _ & _ & Hh).
    exact (parseFooter_handles_range _ _ _ _ Hh).
  - destruct H as (_ & _ & f0 & _ & _ & _ & _ & Hh).
    exact (parseFooter_handles_range _ _ _ _ Hh).
Qed.

(** ** What [readFooter] reads and hands to [parseFooter] *)

(** The window [readFooter] reads: the last [maxFooterLen] bytes of the
    file, the whole file when it is shorter. *)
Definition footerWindowOffset (f : Readable) : Z := Z.max 0 (Size f - maxFooterLen).

Definition footerWindow (f : Readable) : bytes :=
  slice_from (data f) (footerWindowOffset f).

(** The failure of the one read [readFooter] issues: that of the read handle
    when there is one, that of the file otherwise. *)
Definition readFailure (f : Readable) (readHandle : option ReadHandle) : option error :=
  match readHandle with
  | Some rh => handleError rh
  | None => readError f
  end.

Lemma slice_to_end {A : Type} (buf : list A) (lo n : Z) :
  0 <= lo -> lo + n = len buf -> slice buf lo (lo + n) = slice_from buf lo.
Proof.
  intros Hlo Hn. unfold slice, slice_from.
  apply firstn_all2. rewrite length_skipn. unfold len in Hn. lia.
Qed.

Lemma readFooter_window (f : Readable) (rh : option ReadHandle) :
  minFooterLen <= Size f ->
  readFooter f rh
  = match readFailure f rh with
    | Some e => Err (Wrapped "pebble/table: invalid table (could not read footer)" e)
    | None =>
        match parseFooter (footerWindow f) (footerWindowOffset f) (Size f) with
        | Err e => Err (Wrapped "pebble/table: invalid table" e)
        | r => r
        end
    end.
Proof.
  intros Hsize. unfold readFooter, footerWindow, footerWindowOffset.
  destruct (Z.ltb_spec (Size f) minFooterLen) as [C | _]; [lia |].
  assert (HR : forall fl n off, 0 <= off -> off + n = Size f ->
            ReadAt f fl n off
            = match fl with Some e => Err e | None => Ok (slice_from (data f) off) end).
  { intros fl n off Ho Hn. unfold ReadAt. destruct fl; [reflexivity |].
    now rewrite slice_to_end. }
  destruct (Z.ltb_spec (Size f - maxFooterLen) 0) as [Hneg | Hpos].
  - rewrite Z.max_l by lia.
    replace (match rh with
             | Some rh0 => ReadAt f (handleError rh0) (Size f) 0
             | None => ReadAt f (readError f) (Size f) 0
             end) with (ReadAt f (readFailure f rh) (Size f) 0)
      by (destruct rh; reflexivity).
    rewrite HR by lia. destruct (readFailure f rh); reflexivity.
  - rewrite Z.max_r by lia.
    replace (match rh with
             | Some rh0 => ReadAt f (handleError rh0) maxFooterLen (Size f - maxFooterLen)
             | None => ReadAt f (readError f) maxFooterLen (Size f - maxFooterLen)
             end)
      with (ReadAt f (readFailure f rh) maxFooterLen (Size f - maxFooterLen))
      by (destruct rh; reflexivity).
    rewrite HR by lia. destruct (readFailure f rh); reflexivity.
Qed.

Lemma footerWindow_len (f : Readable) :
  minFooterLen <= Size f -> len (footerWindow f) = Z.min (Size f) maxFooterLen.
Proof.
  intros H. unfold footerWindow, footerWindowOffset.
  change minFooterLen with 48 in H. change maxFooterLen with 53.
  rewrite len_slice_from by (unfold Size in *; lia). unfold Size in *. lia.
Qed.

Lemma footerWindow_magic (f : Readable) :
  minFooterLen <= Size f -> trailingMagic (footerWindow f) = trailingMagic (data f).
Proof.
  intros H. unfold trailingMagic. rewrite footerWindow_len by exact H.
  unfold footerWindow, footerWindowOffset, slice_from.
  change minFooterLen with 48 in H. change maxFooterLen with 53.
  change (len rocksDBMagic) with 8. unfold Size in *.
  rewrite skipn_skipn. f_equal. lia.
Qed.

Lemma parseFooter_handles_no_panic (f0 : footer) (buf : bytes) (size : Z) (m : string) :
  parseFooter_handles f0 buf size <> Panic m.
Proof.
  unfold parseFooter_handles.
  destruct (DecodeHandle buf) as [mBH n1].
  destruct ((n1 =? 0) || _); [discriminate |].
  destruct (DecodeHandle (slice_from buf n1)) as [iBH n2].
  destruct ((n2 =? 0) || _); discriminate.
Qed.

(** [parseFooter] slices the magic off the end of the buffer: with at least
    eight bytes at hand it returns, whatever the bytes are. *)
Lemma parseFooter_no_panic (buf : bytes) (off size : Z) (m : string) :
  len rocksDBMagic <= len buf -> parseFooter buf off size <> Panic m.
Proof.
  intros H8. unfold parseFooter.
  destruct (Z.ltb_spec (len buf) (len rocksDBMagic)) as [C | _]; [lia |].
  cbv zeta.
  destruct (bytes_eqb _ levelDBMagic).
  - destruct (len buf <? levelDBFooterLen); [discriminate |].
    apply parseFooter_handles_no_panic.
  - destruct (_ || _); [| discriminate].
    destruct (len buf <? rocksDBFooterLen); [discriminate |].
    destruct (ParseTableFormat _ _) as [fmt | e | msg] eqn:Ep; cbn [bind].
    + destruct (_ =? ChecksumTypeCRC32c); [apply parseFooter_handles_no_panic |].
      destruct (_ =? ChecksumTypeXXHash64);
        [apply parseFooter_handles_no_panic | discriminate].
    + discriminate.
    + exfalso. revert Ep. unfold ParseTableFormat.
      repeat match goal with
             | |- context [if ?c then _ else _] => destruct c
             end; discriminate.
Qed.

(** X1.  [readFooter] never panics: the file-size check guarantees that the
    window handed to [parseFooter] holds the eight bytes of a magic number,
    so that no file content and no read failure makes the slicing in
    [parseFooter] go out of range. *)
Theorem readFooter_never_panics (f : Readable) (rh : option ReadHandle) (m : string) :
  readFooter f rh <> Panic m.
Proof.
  destruct (Z.lt_ge_cases (Size f) minFooterLen) as [Hs | Hs].
  - unfold readFooter. destruct (Z.ltb_spec (Size f) minFooterLen); [discriminate | lia].
  - rewrite readFooter_window by lia.
    destruct (readFailure f rh); [discriminate |].
    pose proof (footerWindow_len f ltac:(lia)) as Hl.
    assert (H8 : len rocksDBMagic <= len (footerWindow f)).
    { rewrite Hl. change (len rocksDBMagic) with 8. change maxFooterLen with 53.
      change minFooterLen with 48 in Hs. lia. }
    pose proof (parseFooter_no_panic (footerWindow f) (footerWindowOffset f) (Size f) m H8).
    destruct (parseFooter _ _ _); [discriminate | discriminate | congruence].
Qed.

(** The footer handle of a parsed footer: its length is that of the layout
    the magic selects, its offset the end of the window less that length. *)
Lemma parseFooter_footerBH (buf : bytes) (off size : Z) (f : footer) :
  parseFooter buf off size = Ok f ->
  let n := if bytes_eqb (trailingMagic buf) levelDBMagic
           then levelDBFooterLen else rocksDBFooterLen in
  n <= len buf /\
  footerBH f = mkHandle (u64 (u64 (off + len buf) - n)) n.
Proof.
  unfold parseFooter. fold (trailingMagic buf).
  destruct (len buf <? len rocksDBMagic); [discriminate |].
  cbv zeta.
  destruct (bytes_eqb (trailingMagic buf) levelDBMagic).
  - destruct (Z.ltb_spec (len buf) levelDBFooterLen) as [| H48]; [discriminate |].
    intros H. split; [exact H48 |].
    apply parseFooter_handles_Ok_inv in H as (_ & _ & _ & _ & _ & _ & _ & _ & _ & _ & ->).
    cbn [footerBH]. f_equal.
    rewrite len_slice_from by (change levelDBFooterLen with 48 in *; lia).
    replace (len buf - (len buf - levelDBFooterLen)) with levelDBFooterLen by lia.
    reflexivity.
  - destruct (_ || _); [| discriminate].
    destruct (Z.ltb_spec (len buf) rocksDBFooterLen) as [| H53]; [discriminate |].
    destruct (ParseTableFormat _ _) as [fmt | e | msg]; cbn [bind]; try discriminate.
    assert (Hlen : u64 (len (slice_from buf (len buf - rocksDBFooterLen)))
                   = rocksDBFooterLen).
    { rewrite len_slice_from by (change rocksDBFooterLen with 53 in *; lia).
      replace (len buf - (len buf - rocksDBFooterLen)) with rocksDBFooterLen by lia.
      reflexivity. }
    rewrite Hlen.
    destruct (_ =? ChecksumTypeCRC32c).
    + intros H. split; [exact H53 |].
      now apply parseFooter_handles_Ok_inv
        in H as (_ & _ & _ & _ & _ & _ & _ & _ & _ & _ & ->).
    + destruct (_ =? ChecksumTypeXXHash64); [| discriminate].
      intros H. split; [exact H53 |].
      now apply parseFooter_handles_Ok_inv
        in H as (_ & _ & _ & _ & _ & _ & _ & _ & _ & _ & ->).
Qed.

(** X2.  The footer handle [readFooter] returns frames the footer at the
    very end of the file: its length is 48 for a file ending in the LevelDB
    magic and 53 otherwise, and its offset plus its length is the file size
    (an int64, so below 2^63). *)
Theorem readFooter_footerBH_ends_file (f : Readable) (rh : option ReadHandle)
        (ft : footer) :
  Size f < 2 ^ 63 ->
  readFooter f rh = Ok ft ->
  Length (footerBH ft)
  = (if bytes_eqb (trailingMagic (data f)) levelDBMagic
     then levelDBFooterLen else rocksDBFooterLen)
  /\ 0 <= Offset (footerBH ft)
  /\ Offset (footerBH ft) + Length (footerBH ft) = Size f.
Proof.
  intros Hsz H.
  destruct (Z.lt_ge_cases (Size f) minFooterLen) as [Hs | Hs].
  { unfold readFooter in H.
    destruct (Z.ltb_spec (Size f) minFooterLen); [discriminate | lia]. }
  rewrite readFooter_window in H by exact Hs.
  destruct (readFailure f rh); [discriminate |].
  destruct (parseFooter _ _ _) as [f' | e | msg] eqn:Hp; try discriminate.
  injection H as ->.
  apply parseFooter_footerBH in Hp. cbv zeta in Hp.
  rewrite footerWindow_magic in Hp by exact Hs.
  rewrite footerWindow_len in Hp by exact Hs.
  destruct Hp as [Hn ->]. cbn [Length Offset].
  set (n := if bytes_eqb (trailingMagic (data f)) levelDBMagic
            then levelDBFooterLen else rocksDBFooterLen) in *.
  assert (Hn' : n = 48 \/ n = 53).
  { unfold n. destruct (bytes_eqb _ _); [left | right]; reflexivity. }
  assert (Hsum : footerWindowOffset f + Z.min (Size f) maxFooterLen = Size f).
  { unfold footerWindowOffset. lia. }
  rewrite Hsum.
  assert (H64 : 2 ^ 63 < 2 ^ 64) by reflexivity.
  change minFooterLen with 48 in Hs. change maxFooterLen with 53 in Hn.
  rewrite (u64_small (Size f)) by lia.
  rewrite u64_small by lia.
  split; [reflexivity |]. lia.
Qed.

Definition file_of_footer (footer : bytes) : Readable :=
  mkReadable (repeat 7 100 ++ footer) None.

Lemma readFooter_footerBH_ends_file_witness :
  exists ft,
    readFooter (file_of_footer rocksdb_footer_53) None = Ok ft /\
    Offset (footerBH ft) + Length (footerBH ft) = 153.
Proof.
  eexists. split; [vm_compute; reflexivity |].
  refine (proj2 (proj2 (readFooter_footerBH_ends_file
                          (file_of_footer rocksdb_footer_53) None _ _ _))).
  - vm_compute. reflexivity.
  - vm_compute. reflexivity.
Defined.

(** X3.  A file of 48 to 52 bytes that ends in the RocksDB or the Pebble
    magic is refused as corrupt: it passes the size check of [readFooter],
    which admits the 48-byte legacy footer, but is too short for the 53-byte
    layout its magic selects. *)
Theorem readFooter_short_for_new_layout (f : Readable) (rh : option ReadHandle) :
  minFooterLen <= Size f < maxFooterLen ->
  readFailure f rh = None ->
  trailingMagic (data f) = rocksDBMagic \/ trailingMagic (data f) = pebbleDBMagic ->
  readFooter f rh
  = Err (Wrapped "pebble/table: invalid table" (CorruptionError "(footer too short)")).
Proof.
  intros [Hlo Hhi] Hread Hmagic.
  rewrite readFooter_window by exact Hlo. rewrite Hread.
  pose proof (footerWindow_len f Hlo) as Hl.
  pose proof (footerWindow_magic f Hlo) as Hm.
  unfold parseFooter. fold (trailingMagic (footerWindow f)).
  rewrite Hm, Hl. rewrite Z.min_l by lia.
  change minFooterLen with 48 in Hlo. change maxFooterLen with 53 in Hhi.
  change (len rocksDBMagic) with 8. change rocksDBFooterLen with 53.
  destruct (Z.ltb_spec (Size f) 8) as [C | _]; [lia |].
  destruct (Z.ltb_spec (Size f) 53) as [_ | C]; [| lia].
  destruct Hmagic as [-> | ->]; reflexivity.
Qed.

Lemma readFooter_short_for_new_layout_witness :
  readFooter (mkReadable (repeat 0 42 ++ pebbleDBMagic) None) None
  = Err (Wrapped "pebble/table: invalid table" (CorruptionError "(footer too short)")).
Proof.
  apply readFooter_short_for_new_layout.
  - vm_compute. split; [discriminate | reflexivity].
  - reflexivity.
  - right. reflexivity.
Defined.

(** X4.  The handles of a footer [readFooter] returns are uint64 pairs, and
    each one whose offset plus length stays below 2^64 ends within the file.
    (The sum is computed in uint64: a sum that leaves uint64 escapes the
    check.) *)
Theorem readFooter_handles_within_file (f : Readable) (rh : option ReadHandle)
        (ft : footer) (h : Handle) :
  Size f < 2 ^ 63 ->
  readFooter f rh = Ok ft ->
  h = metaindexBH ft \/ h = indexBH ft ->
  handle_is_u64 h /\
  (Offset h + Length h < 2 ^ 64 -> handleWithin h (Size f)).
Proof.
  intros Hsz H Hh.
  destruct (Z.lt_ge_cases (Size f) minFooterLen) as [Hs | Hs].
  { unfold readFooter in H.
    destruct (Z.ltb_spec (Size f) minFooterLen); [discriminate | lia]. }
  rewrite readFooter_window in H by exact Hs.
  destruct (readFailure f rh); [discriminate |].
  destruct (parseFooter _ _ _) as [f' | e | msg] eqn:Hp; try discriminate.
  injection H as ->.
  pose proof (parseFooter_Ok_handles_range _ _ _ _ Hp) as [Rm Ri].
  pose proof (parseFooter_Ok_handles_u64 _ _ _ _ Hp) as [Bm Bi].
  assert (H64 : 2 ^ 63 < 2 ^ 64) by reflexivity.
  change minFooterLen with 48 in Hs.
  rewrite (u64_small (Size f)) in Bm, Bi by lia.
  unfold handleWithin.
  destruct Hh as [-> | ->].
  - split; [exact Rm |]. intros Hsum. destruct Rm as [Ro Rl].
    rewrite u64_small in Bm by lia. lia.
  - split; [exact Ri |]. intros Hsum. destruct Ri as [Ro Rl].
    rewrite u64_small in Bi by lia. lia.
Qed.

Lemma readFooter_handles_within_file_witness :
  exists ft,
    readFooter (file_of_footer rocksdb_footer_53) None = Ok ft /\
    handleWithin (metaindexBH ft) 153.
Proof.
  eexists. split; [vm_compute; reflexivity |].
  refine (proj2 (readFooter_handles_within_file
                   (file_of_footer rocksdb_footer_53) None _ _ _ _ (or_introl eq_refl)) _).
  - vm_compute. reflexivity.
  - vm_compute. reflexivity.
  - vm_compute. reflexivity.
Defined.

(** ** What [footer.encode] writes *)

(** The two footer layouts, as the comment on the [footer] type documents
    them: the handles back to back, zero padding up to 40 bytes, then the
    magic; the new layout with a leading checksum byte and the 4-byte version
    before the magic. *)
Definition legacyFooterLayout (f : footer) : bytes :=
  (EncodeVarints (metaindexBH f) ++ EncodeVarints (indexBH f)
   ++ padding (length (EncodeVarints (metaindexBH f))
               + length (EncodeVarints (indexBH f))))
  ++ levelDBMagic.

Definition newFooterLayout (f : footer) (magic : bytes) (version : Z) : bytes :=
  (([checksum f] ++ EncodeVarints (metaindexBH f) ++ EncodeVarints (indexBH f)
    ++ padding (length (EncodeVarints (metaindexBH f))
                + length (EncodeVarints (indexBH f))))
   ++ LittleEndian_PutUint32 version) ++ magic.

Lemma legacyFooterLayout_len (f : footer) : len (legacyFooterLayout f) = 48.
Proof.
  unfold legacyFooterLayout.
  pose proof (EncodeVarints_length (metaindexBH f)).
  pose proof (EncodeVarints_length (indexBH f)).
  rewrite !len_app, padding_len. change (len levelDBMagic) with 8. unfold len. lia.
Qed.

Lemma newFooterLayout_len (f : footer) (magic : bytes) (version : Z) :
  len magic = 8 -> len (newFooterLayout f magic version) = 53.
Proof.
  intros Hm. unfold newFooterLayout.
  pose proof (EncodeVarints_length (metaindexBH f)).
  pose proof (EncodeVarints_length (indexBH f)).
  rewrite !len_app, padding_len, Hm.
  change (len (LittleEndian_PutUint32 version)) with 4.
  change (len [checksum f]) with 1. unfold len. lia.
Qed.

Lemma trailingMagic_app (pre magic : bytes) :
  len magic = 8 -> trailingMagic (pre ++ magic) = magic.
Proof.
  intros Hm. unfold trailingMagic. apply slice_from_app_at.
  rewrite len_app, Hm. change (len rocksDBMagic) with 8. lia.
Qed.

Lemma AsTuple_magic_len (fmt : TableFormat) (magic : bytes) (version : Z) :
  AsTuple fmt = Some (magic, version) -> len magic = 8.
Proof. destruct fmt; cbn [AsTuple]; intros H; inversion H; reflexivity. Qed.

Lemma AsTuple_new_magic (fmt : TableFormat) (magic : bytes) (version : Z) :
  AsTuple fmt = Some (magic, version) ->
  bytes_eqb magic levelDBMagic = false ->
  bytes_eqb magic rocksDBMagic || bytes_eqb magic pebbleDBMagic = true.
Proof.
  destruct fmt; cbn [AsTuple]; intros H; inversion H; subst;
    intros Hl; try reflexivity; discriminate.
Qed.

(** X5.  Whenever [footer.encode] returns, it has written exactly the
    documented layout for the footer's format: no handle is cut short by the
    copies into the scratch buffer, the bytes in between are zero, the
    result is 48 bytes (legacy) or 53 bytes long and ends in the format's
    magic number. *)
Theorem footer_encode_documented_layout (f : footer) (buf enc : bytes) :
  footer_encode f buf = Ok enc ->
  exists magic version,
    AsTuple (format f) = Some (magic, version) /\
    enc = (if bytes_eqb magic levelDBMagic
           then legacyFooterLayout f else newFooterLayout f magic version) /\
    len enc = (if bytes_eqb magic levelDBMagic
               then levelDBFooterLen else rocksDBFooterLen) /\
    trailingMagic enc = magic.
Proof.
  intros H.
  destruct (AsTuple (format f)) as [[magic version] |] eqn:Ht;
    [| unfold footer_encode in H; rewrite Ht in H; discriminate].
  exists magic, version. split; [reflexivity |].
  pose proof (AsTuple_magic_len _ _ _ Ht) as Hlen.
  destruct (bytes_eqb magic levelDBMagic) eqn:El.
  - apply bytes_eqb_eq in El. subst magic.
    destruct (Z.lt_ge_cases (len buf) levelDBFooterLen) as [Hc | Hc].
    { unfold footer_encode in H. rewrite Ht, bytes_eqb_refl in H.
      destruct (Z.ltb_spec (len buf) levelDBFooterLen); [discriminate | lia]. }
    rewrite (footer_encode_levelDB f buf version Ht Hc) in H. injection H as <-.
    fold (legacyFooterLayout f).
    split; [reflexivity |]. split; [apply legacyFooterLayout_len |].
    unfold legacyFooterLayout. now apply trailingMagic_app.
  - pose proof (AsTuple_new_magic _ _ _ Ht El) as Hrp.
    destruct (Z.lt_ge_cases (len buf) rocksDBFooterLen) as [Hc | Hc].
    { unfold footer_encode in H. rewrite Ht, El, Hrp in H.
      destruct (Z.ltb_spec (len buf) rocksDBFooterLen); [discriminate | lia]. }
    destruct ((checksum f =? ChecksumTypeNone) || (checksum f =? ChecksumTypeCRC32c)
              || (checksum f =? ChecksumTypeXXHash) || (checksum f =? ChecksumTypeXXHash64))
      eqn:Hck.
    + rewrite (footer_encode_rocksDB f buf magic version Ht El Hrp Hck Hc) in H.
      assert (E : enc = newFooterLayout f magic version)
        by (injection H as <-; reflexivity).
      rewrite E.
      split; [reflexivity |]. split; [now apply newFooterLayout_len |].
      unfold newFooterLayout at 1. now apply trailingMagic_app.
    + unfold footer_encode in H. rewrite Ht, El, Hrp, Hck in H.
      destruct (len buf <? rocksDBFooterLen); discriminate.
Qed.

Lemma footer_encode_documented_layout_witness :
  exists enc,
    footer_encode wf_footer (repeat 0 60) = Ok enc /\ len enc = 53 /\
    trailingMagic enc = pebbleDBMagic.
Proof.
  eexists. split; [vm_compute; reflexivity |].
  destruct (footer_encode_documented_layout wf_footer (repeat 0 60) _ eq_refl)
    as (magic & version & Ht & _ & Hl & Hm).
  injection Ht as <- <-. split; [exact Hl | exact Hm].
Defined.

(** X6.  The legacy layout has no checksum byte.  Whatever checksum type a
    LevelDB-format footer carries, it encodes (48 bytes of scratch space
    suffice) and parses back with its handles and format, and with the
    checksum type CRC32c. *)
Theorem footer_levelDB_checksum_reads_CRC32c (f : footer) (scratch pre : bytes)
        (size : Z) :
  format f = TableFormatLevelDB ->
  0 <= size < 2 ^ 63 ->
  handleWithin (metaindexBH f) size ->
  handleWithin (indexBH f) size ->
  levelDBFooterLen <= len scratch ->
  exists enc f',
    footer_encode f scratch = Ok enc /\
    parseFooter (pre ++ enc) (size - len (pre ++ enc)) size = Ok f' /\
    format f' = TableFormatLevelDB /\ checksum f' = ChecksumTypeCRC32c /\
    metaindexBH f' = metaindexBH f /\ indexBH f' = indexBH f.
Proof.
  intros Hfmt Hsz Hm Hi Hcap.
  eexists. eexists. split.
  - apply (footer_encode_levelDB f scratch levelDBFormatVersion);
      [rewrite Hfmt; reflexivity | exact Hcap].
  - rewrite (parseFooter_levelDB_layout pre (metaindexBH f) (indexBH f)) by assumption.
    cbn [format checksum metaindexBH indexBH]. repeat split; reflexivity.
Qed.

Lemma footer_levelDB_checksum_reads_CRC32c_witness :
  exists enc f',
    footer_encode (mkFooter TableFormatLevelDB ChecksumTypeXXHash64
                     (mkHandle 1000 200) (mkHandle 1300 77) zeroHandle)
                  (repeat 0 48) = Ok enc /\
    parseFooter ([9] ++ enc) (5000 - len ([9] ++ enc)) 5000 = Ok f' /\
    format f' = TableFormatLevelDB /\ checksum f' = ChecksumTypeCRC32c /\
    metaindexBH f' = mkHandle 1000 200 /\ indexBH f' = mkHandle 1300 77.
Proof.
  apply (footer_levelDB_checksum_reads_CRC32c
           (mkFooter TableFormatLevelDB ChecksumTypeXXHash64
              (mkHandle 1000 200) (mkHandle 1300 77) zeroHandle)).
  - reflexivity.
  - split; [discriminate | reflexivity].
  - unfold handleWithin. cbn. repeat split; discriminate.
  - unfold handleWithin. cbn. repeat split; discriminate.
  - discriminate.
Defined.

(** A 53-byte footer whose checksum byte is neither CRC32c nor XXHash64 is
    refused, whatever the 40 bytes after the checksum byte hold. *)
Lemma parseFooter_refuses_checksum (pre magic rest : bytes) (version c : Z)
      (fmt : TableFormat) (off size : Z) :
  bytes_eqb magic levelDBMagic = false ->
  bytes_eqb magic rocksDBMagic || bytes_eqb magic pebbleDBMagic = true ->
  ParseTableFormat magic (LittleEndian_Uint32 (LittleEndian_PutUint32 version)) = Ok fmt ->
  c <> ChecksumTypeCRC32c -> c <> ChecksumTypeXXHash64 ->
  len rest = 40 ->
  parseFooter (pre ++ (([c] ++ rest) ++ LittleEndian_PutUint32 version) ++ magic) off size
  = Err (CorruptionError "(unsupported checksum type)").
Proof.
  intros Hnl Hrp Hfmt Hc1 Hc3 Hrest.
  assert (Hmagic : len magic = 8).
  { apply orb_true_iff in Hrp as [H | H]; apply bytes_eqb_eq in H; subst magic;
      reflexivity. }
  set (body := [c] ++ rest).
  assert (Hbody : len body = 41).
  { unfold body. rewrite len_app, Hrest. reflexivity. }
  set (ver := LittleEndian_PutUint32 version) in *.
  assert (Hver : len ver = 4) by reflexivity.
  assert (Hlen : len (pre ++ (body ++ ver) ++ magic) = len pre + 53).
  { rewrite !len_app, Hbody, Hver, Hmagic. lia. }
  pose proof (len_nonneg pre) as Hpre.
  unfold parseFooter. rewrite Hlen.
  change (len rocksDBMagic) with 8. change rocksDBFooterLen with 53.
  destruct (Z.ltb_spec (len pre + 53) 8) as [C | _]; [lia |].
  assert (Emagic : slice_from (pre ++ (body ++ ver) ++ magic) (len pre + 53 - 8) = magic).
  { rewrite app_assoc. apply slice_from_app_at. rewrite !len_app, Hbody, Hver. lia. }
  rewrite Emagic, Hnl, Hrp.
  destruct (Z.ltb_spec (len pre + 53) 53) as [C | _]; [lia |].
  assert (Ebuf : slice_from (pre ++ (body ++ ver) ++ magic) (len pre + 53 - 53)
                 = (body ++ ver) ++ magic).
  { apply slice_from_app_at. lia. }
  rewrite Ebuf.
  assert (Ever : slice ((body ++ ver) ++ magic) rocksDBVersionOffset rocksDBMagicOffset
                 = ver).
  { rewrite <- app_assoc. apply slice_app_mid.
    - rewrite Hbody. reflexivity.
    - rewrite Hbody, Hver. reflexivity. }
  cbv zeta. rewrite Ever. rewrite Hfmt. cbn [bind].
  assert (Enth : nth 0 ((body ++ ver) ++ magic) 0 = c) by reflexivity.
  rewrite Enth.
  destruct (Z.eqb_spec c ChecksumTypeCRC32c) as [E | _]; [contradiction |].
  destruct (Z.eqb_spec c ChecksumTypeXXHash64) as [E | _]; [contradiction |].
  reflexivity.
Qed.

Lemma AsTuple_ParseTableFormat (fmt : TableFormat) (magic : bytes) (version : Z) :
  AsTuple fmt = Some (magic, version) ->
  ParseTableFormat magic (LittleEndian_Uint32 (LittleEndian_PutUint32 version)) = Ok fmt.
Proof. destruct fmt; cbn [AsTuple]; intros H; inversion H; reflexivity. Qed.

(** X7.  [footer.encode] takes two checksum types that [parseFooter]
    refuses.  A footer of a 53-byte format with the checksum type None or
    XXHash encodes, and the bytes written never parse, wherever they are
    read from: the parser reports an unsupported checksum type. *)
Theorem footer_encode_checksum_never_parses (f : footer) (scratch : bytes) :
  format f <> TableFormatUnspecified ->
  format f <> TableFormatLevelDB ->
  checksum f = ChecksumTypeNone \/ checksum f = ChecksumTypeXXHash ->
  rocksDBFooterLen <= len scratch ->
  exists enc,
    footer_encode f scratch = Ok enc /\
    forall pre off size,
      parseFooter (pre ++ enc) off size
      = Err (CorruptionError "(unsupported checksum type)").
Proof.
  intros Hu Hl Hck Hcap.
  destruct (AsTuple (format f)) as [[magic version] |] eqn:Ht;
    [| destruct (format f); cbn [AsTuple] in Ht; congruence].
  assert (El : bytes_eqb magic levelDBMagic = false).
  { destruct (format f); cbn [AsTuple] in Ht; inversion Ht; subst;
      try reflexivity; congruence. }
  pose proof (AsTuple_new_magic _ _ _ Ht El) as Hrp.
  pose proof (AsTuple_ParseTableFormat _ _ _ Ht) as Hp.
  assert (Hok : (checksum f =? ChecksumTypeNone) || (checksum f =? ChecksumTypeCRC32c)
                || (checksum f =? ChecksumTypeXXHash)
                || (checksum f =? ChecksumTypeXXHash64) = true).
  { destruct Hck as [-> | ->]; reflexivity. }
  eexists. split.
  - exact (footer_encode_rocksDB f scratch magic version Ht El Hrp Hok Hcap).
  - intros pre off size.
    apply (parseFooter_refuses_checksum pre magic _ version (checksum f) (format f));
      try assumption.
    + destruct Hck as [-> | ->]; discriminate.
    + destruct Hck as [-> | ->]; discriminate.
    + pose proof (EncodeVarints_length (metaindexBH f)).
      pose proof (EncodeVarints_length (indexBH f)).
      rewrite !len_app, padding_len. unfold len. lia.
Qed.

Lemma footer_encode_checksum_never_parses_witness :
  exists enc,
    footer_encode (mkFooter TableFormatRocksDBv2 ChecksumTypeXXHash
                     (mkHandle 10 20) (mkHandle 30 5) zeroHandle) (repeat 0 53) = Ok enc /\
    forall pre off size,
      parseFooter (pre ++ enc) off size
      = Err (CorruptionError "(unsupported checksum type)").
Proof.
  apply footer_encode_checksum_never_parses.
  - discriminate.
  - discriminate.
  - right. reflexivity.
  - discriminate.
Defined.

(** ** Two-level indexes and the footer layout *)

(** [supportsTwoLevelIndex]. *)
Definition supportsTwoLevelIndex (format : TableFormat) : result bool :=
  match format with
  | TableFormatLevelDB => Ok false
  | TableFormatRocksDBv2
  | TableFormatPebblev1
  | TableFormatPebblev2
  | TableFormatPebblev3
  | TableFormatPebblev4 => Ok true
  | TableFormatUnspecified => Panic "sstable: unspecified table format version"
  end.

(** X8.  The table format of a footer that [readFooter] returns is one
    [supportsTwoLevelIndex] answers for without panicking, and the answer is
    no exactly for a file that ends in the LevelDB magic, that is for the
    48-byte legacy footer. *)
Theorem readFooter_format_supportsTwoLevelIndex (f : Readable)
        (rh : option ReadHandle) (ft : footer) :
  readFooter f rh = Ok ft ->
  supportsTwoLevelIndex (format ft)
  = Ok (negb (bytes_eqb (trailingMagic (data f)) levelDBMagic)).
Proof.
  intros H.
  destruct (Z.lt_ge_cases (Size f) minFooterLen) as [Hs | Hs].
  { unfold readFooter in H.
    destruct (Z.ltb_spec (Size f) minFooterLen); [discriminate | lia]. }
  rewrite readFooter_window in H by exact Hs.
  destruct (readFailure f rh); [discriminate |].
  destruct (parseFooter _ _ _) as [f' | e | msg] eqn:Hp; try discriminate.
  injection H as ->.
  apply parseFooter_layout in Hp. rewrite footerWindow_magic in Hp by exact Hs.
  destruct Hp as [(Hm & _ & Hf & _) | (Hm & _ & _ & Hf & _)].
  - rewrite Hm, Hf. reflexivity.
  - revert Hf. unfold ParseTableFormat.
    destruct Hm as [-> | ->]; cbn [bytes_eqb levelDBMagic rocksDBMagic pebbleDBMagic
                                   Z.eqb andb negb];
      repeat match goal with
             | |- context [if ?c then _ else _] => destruct c
             end;
      intros Hf; inversion Hf; reflexivity.
Qed.

Lemma readFooter_format_supportsTwoLevelIndex_witness :
  exists ft,
    readFooter (file_of_footer leveldb_footer_48) None = Ok ft /\
    supportsTwoLevelIndex (format ft) = Ok false.
Proof.
  eexists. split; [vm_compute; reflexivity |].
  exact (readFooter_format_supportsTwoLevelIndex
           (file_of_footer leveldb_footer_48) None _ eq_refl).
Defined.

(** * Further properties of the policy that preserves blob references *)

(** ** The binary search over the input metadata *)

(** "inputBlobMetadatas must be sorted by FileNum." *)
Fixpoint sortedByFileNum (x : list BlobFileMetadata) : bool :=
  match x with
  | a :: (b :: _) as rest => (bmFileNum a <=? bmFileNum b) && sortedByFileNum rest
  | _ => true
  end.

Section BinarySearch.

Import preserveBlobReferences.

Abbreviation fileNumAt x k := (bmFileNum (nth (Z.to_nat k) x zeroBlobFileMetadata)).

Lemma sortedByFileNum_head (a : BlobFileMetadata) (rest : list BlobFileMetadata) :
  sortedByFileNum (a :: rest) = true ->
  forall k, (k < length rest)%nat ->
            bmFileNum a <= bmFileNum (nth k rest zeroBlobFileMetadata).
Proof.
  revert a. induction rest as [| b rest IH]; intros a Hs k Hk; [cbn in Hk; lia |].
  cbn [sortedByFileNum] in Hs. apply andb_true_iff in Hs as [Hab Hs].
  apply Z.leb_le in Hab.
  destruct k as [| k]; cbn [nth]; [exact Hab |].
  specialize (IH b Hs k ltac:(cbn in Hk; lia)). lia.
Qed.

Lemma sortedByFileNum_tail (a : BlobFileMetadata) (rest : list BlobFileMetadata) :
  sortedByFileNum (a :: rest) = true -> sortedByFileNum rest = true.
Proof.
  destruct rest as [| b rest]; [reflexivity |].
  cbn [sortedByFileNum]. intros H. now apply andb_true_iff in H as [_ H].
Qed.

Lemma sortedByFileNum_nth (x : list BlobFileMetadata) :
  sortedByFileNum x = true ->
  forall a b, 0 <= a <= b -> b < len x -> fileNumAt x a <= fileNumAt x b.
Proof.
  intros Hs a b Hab Hb.
  assert (Hnat : forall (x : list BlobFileMetadata),
            sortedByFileNum x = true ->
            forall i j, (i <= j < length x)%nat ->
                        bmFileNum (nth i x zeroBlobFileMetadata)
                        <= bmFileNum (nth j x zeroBlobFileMetadata)).
  { clear. induction x as [| m x IH]; intros Hs i j Hij; [cbn in Hij; lia |].
    destruct i as [| i]; destruct j as [| j]; cbn [nth]; try lia.
    - apply sortedByFileNum_head; [exact Hs | cbn in Hij; lia].
    - apply IH; [now apply sortedByFileNum_tail in Hs | cbn in Hij; lia]. }
  apply Hnat; [exact Hs |]. unfold len in Hb. lia.
Qed.

Lemma cmp_Compare_neg (a fn : Z) : (cmp_Compare a fn <? 0) = (a <? fn).
Proof.
  unfold cmp_Compare. destruct (a <? fn); [reflexivity |].
  destruct (fn <? a); reflexivity.
Qed.

Lemma cmp_Compare_zero (a fn : Z) : (cmp_Compare a fn =? 0) = (a =? fn).
Proof.
  unfold cmp_Compare.
  destruct (Z.ltb_spec a fn); [symmetry; apply Z.eqb_neq; lia |].
  destruct (Z.ltb_spec fn a); [symmetry; apply Z.eqb_neq; lia |].
  symmetry. apply Z.eqb_eq. lia.
Qed.

(** The loop keeps every file number below the lower end smaller than
    [fn], every file number from the upper end on at least [fn], and ends
    with the two ends joined. *)
Lemma BinarySearch_loop_partition (x : list BlobFileMetadata) (fn : Z) (fuel : nat) :
  sortedByFileNum x = true ->
  forall i j,
    0 <= i <= j -> j <= len x -> j - i <= Z.of_nat fuel ->
    (forall k, 0 <= k < i -> fileNumAt x k < fn) ->
    (forall k, j <= k < len x -> fn <= fileNumAt x k) ->
    let r := BinarySearch_loop fuel x fn i j in
    (forall k, 0 <= k < r -> fileNumAt x k < fn) /\
    (forall k, r <= k < len x -> fn <= fileNumAt x k).
Proof.
  intros Hs. induction fuel as [| fuel IH]; intros i j Hij Hj Hf Hlo Hhi;
    cbn [BinarySearch_loop].
  - split; [exact Hlo |]. intros k Hk. apply Hhi. lia.
  - destruct (Z.ltb_spec i j) as [Hlt | Hge].
    2:{ split; [exact Hlo |]. intros k Hk. apply Hhi. lia. }
    pose proof (midpoint_between i j ltac:(lia)) as Hh.
    set (h := Z.shiftr (i + j) 1) in *.
    rewrite cmp_Compare_neg.
    destruct (Z.ltb_spec (fileNumAt x h) fn) as [Hc | Hc].
    + apply IH; try lia; [| exact Hhi].
      intros k Hk.
      pose proof (sortedByFileNum_nth x Hs k h ltac:(lia) ltac:(lia)). lia.
    + apply IH; try lia; [exact Hlo |].
      intros k Hk.
      pose proof (sortedByFileNum_nth x Hs h k ltac:(lia) ltac:(lia)). lia.
Qed.

Lemma In_fileNum_nth (x : list BlobFileMetadata) (fn : Z) :
  In fn (map bmFileNum x) <-> exists k, 0 <= k < len x /\ fileNumAt x k = fn.
Proof.
  split.
  - intros H. apply in_map_iff in H as (md & Hfn & Hin).
    apply (In_nth _ _ zeroBlobFileMetadata) in Hin as (n & Hn & Hnth).
    exists (Z.of_nat n). rewrite Nat2Z.id, Hnth. unfold len. split; [lia | exact Hfn].
  - intros (k & Hk & Hfn). rewrite <- Hfn. apply in_map. apply nth_In.
    unfold len in Hk. lia.
Qed.

(** What [findInputBlobMetadata] returns on sorted inputs. *)
Lemma findInputBlobMetadata_sorted (vs : state) (fn : Z) :
  sortedByFileNum (inputBlobMetadatas vs) = true ->
  let idx := fst (findInputBlobMetadata vs fn) in
  let found := snd (findInputBlobMetadata vs fn) in
  0 <= idx <= len (inputBlobMetadatas vs) /\
  (forall k, 0 <= k < idx -> fileNumAt (inputBlobMetadatas vs) k < fn) /\
  (forall k, idx <= k < len (inputBlobMetadatas vs) ->
             fn <= fileNumAt (inputBlobMetadatas vs) k) /\
  (found = true <-> In fn (map bmFileNum (inputBlobMetadatas vs))) /\
  (found = true -> fileNumAt (inputBlobMetadatas vs) idx = fn).
Proof.
  intros Hs. unfold findInputBlobMetadata. cbn [fst snd].
  set (x := inputBlobMetadatas vs) in *.
  pose proof (len_nonneg x) as Hn.
  pose proof (BinarySearch_loop_range (length x) x fn 0 (len x) ltac:(lia)) as Hr.
  pose proof (BinarySearch_loop_partition x fn (length x) Hs 0 (len x)
                ltac:(lia) ltac:(lia) ltac:(unfold len; lia)
                ltac:(intros; lia) ltac:(intros; lia)) as [Hlo Hhi].
  set (r := BinarySearch_loop (length x) x fn 0 (len x)) in *.
  rewrite cmp_Compare_zero.
  split; [lia |]. split; [exact Hlo |]. split; [exact Hhi |].
  split.
  - rewrite In_fileNum_nth. split.
    + intros H. apply andb_true_iff in H as [Hlt He].
      apply Z.ltb_lt in Hlt. apply Z.eqb_eq in He. exists r. split; [lia | exact He].
    + intros (k & Hk & Hfn).
      assert (Hrk : r <= k).
      { destruct (Z.le_gt_cases r k) as [L | G]; [exact L |].
        specialize (Hlo k ltac:(lia)). lia. }
      pose proof (sortedByFileNum_nth x Hs r k ltac:(lia) ltac:(lia)) as Hle.
      specialize (Hhi r ltac:(lia)).
      apply andb_true_iff. split; [apply Z.ltb_lt; lia | apply Z.eqb_eq; lia].
  - intros H. apply andb_true_iff in H as [_ He]. now apply Z.eqb_eq in He.
Qed.

(** X9.  On input metadata sorted by file number, as the struct requires,
    the binary search of [findInputBlobMetadata] is exact: it reports a file
    number as found exactly when some input metadata carries it, the index
    returned is then that of such a metadata, and in every case it is the
    insertion point, with only smaller file numbers before it and none
    smaller from it on. *)
Theorem findInputBlobMetadata_exact (vs : state) (fn idx : Z) (found : bool) :
  sortedByFileNum (inputBlobMetadatas vs) = true ->
  findInputBlobMetadata vs fn = (idx, found) ->
  (found = true <-> In fn (map bmFileNum (inputBlobMetadatas vs))) /\
  (found = true ->
   bmFileNum (nth (Z.to_nat idx) (inputBlobMetadatas vs) zeroBlobFileMetadata) = fn) /\
  0 <= idx <= len (inputBlobMetadatas vs) /\
  (forall k, 0 <= k < idx ->
     bmFileNum (nth (Z.to_nat k) (inputBlobMetadatas vs) zeroBlobFileMetadata) < fn) /\
  (forall k, idx <= k < len (inputBlobMetadatas vs) ->
     fn <= bmFileNum (nth (Z.to_nat k) (inputBlobMetadatas vs) zeroBlobFileMetadata)).
Proof.
  intros Hs H.
  pose proof (findInputBlobMetadata_sorted vs fn Hs) as Hx.
  rewrite H in Hx. cbn [fst snd] in Hx.
  destruct Hx as (Hr & Hlo & Hhi & Hin & Hat).
  repeat split; try assumption; try apply Hin; lia.
Qed.

End BinarySearch.

Lemma findInputBlobMetadata_exact_witness :
  (snd (preserveBlobReferences.findInputBlobMetadata demoPreserve 7) = true
   <-> In 7 (map bmFileNum demoInputs)) /\
  (snd (preserveBlobReferences.findInputBlobMetadata demoPreserve 6) = true
   <-> In 6 (map bmFileNum demoInputs)).
Proof.
  split.
  - exact (proj1 (findInputBlobMetadata_exact demoPreserve 7 _ _ eq_refl eq_refl)).
  - exact (proj1 (findInputBlobMetadata_exact demoPreserve 6 _ _ eq_refl eq_refl)).
Defined.

(** ** References and the input metadata *)

(** A reference carries the metadata of its blob file, taken from the
    inputs. *)
Definition referenceOfInput (inputs : list BlobFileMetadata) (r : BlobReference) : Prop :=
  exists md, Metadata r = Some md /\ bmFileNum md = FileNum r /\ In md inputs.

Section PreserveInvariants.

Import preserveBlobReferences.

Variable X : Externals.

Definition referencesOfInputs (vs : state) : Prop :=
  Forall (referenceOfInput (inputBlobMetadatas vs)) (currReferences vs).

Lemma addValueSize_referenceOfInput (inputs : list BlobFileMetadata)
      (refs : list BlobReference) (idx : nat) (n : Z) :
  Forall (referenceOfInput inputs) refs ->
  Forall (referenceOfInput inputs) (addValueSize refs idx n).
Proof.
  intros H. revert idx. induction H as [| r refs Hr Hrest IH]; intros idx; [constructor |].
  destruct idx as [| idx]; cbn [addValueSize]; constructor.
  - destruct Hr as (md & Hm & Hf & Hin). now exists md.
  - exact Hrest.
  - exact Hr.
  - apply IH.
Qed.

Lemma copyHandle_referencesOfInputs (vs : state) (tw : RawWriter) (kv : InternalKV)
      (lv : LazyValue) (refIdx : Z) (fo : bool) :
  referencesOfInputs vs ->
  referencesOfInputs (fst (fst (copyHandle X vs tw kv lv refIdx fo))).
Proof.
  intros H. unfold copyHandle.
  destruct (wrongReferenceIndex X vs refIdx _); [exact H |].
  cbn. destruct (refuses tw (calls tw) _); [exact H |].
  cbn [fst]. unfold referencesOfInputs. cbn [inputBlobMetadatas currReferences with_sizes].
  now apply addValueSize_referenceOfInput.
Qed.

Lemma Add_referencesOfInputs (vs : state) (tw : RawWriter) (kv : InternalKV) (fo : bool) :
  referencesOfInputs vs -> referencesOfInputs (fst (fst (Add X vs tw kv fo))).
Proof.
  intros H. unfold Add.
  destruct (V kv) as [v | lv | lv].
  1,2: destruct (Value kv) as [v' | e | m]; [cbn | |]; exact H.
  destruct (findReference (currReferences vs) (BlobFileNum (Fetcher lv)) 0).
  - now apply copyHandle_referencesOfInputs.
  - destruct (findInputBlobMetadata vs (BlobFileNum (Fetcher lv))) as [idx found] eqn:Ef.
    destruct found; cbn [negb]; [| exact H].
    apply copyHandle_referencesOfInputs.
    apply findInputBlobMetadata_found in Ef as [Hidx Hfn].
    unfold referencesOfInputs. cbn [inputBlobMetadatas currReferences with_references].
    apply Forall_app. split; [exact H |].
    constructor; [| constructor].
    eexists. cbn [Metadata FileNum]. split; [reflexivity |]. split; [exact Hfn |].
    apply nth_In. unfold len in Hidx. lia.
Qed.

Lemma reachable_referencesOfInputs (vs : state) :
  reachable X vs -> referencesOfInputs vs.
Proof.
  induction 1 as [inputs depth | vs tw kv fo _ IH | vs _ IH].
  - constructor.
  - now apply Add_referencesOfInputs.
  - constructor.
Qed.

Lemma referencesOfInputs_FileNum (vs : state) (fn : Z) :
  referencesOfInputs vs ->
  In fn (map FileNum (currReferences vs)) ->
  In fn (map bmFileNum (inputBlobMetadatas vs)).
Proof.
  intros H Hin. apply in_map_iff in Hin as (r & <- & Hr).
  unfold referencesOfInputs in H. rewrite Forall_forall in H.
  destruct (H r Hr) as (md & _ & <- & Hmd). now apply in_map.
Qed.

(** X10.  The references [FinishOutput] returns, in any state the policy
    reaches, name pairwise distinct blob files, and each one carries the
    metadata of its own blob file, which is one of the input metadata. *)
Theorem FinishOutput_references_of_inputs (vs : state) :
  reachable X vs ->
  exists md,
    snd (FinishOutput vs) = Ok md /\
    NoDup (map FileNum (BlobReferences md)) /\
    Forall (referenceOfInput (inputBlobMetadatas vs)) (BlobReferences md).
Proof.
  intros Hr. rewrite FinishOutput_eq. eexists. split; [reflexivity |].
  cbn [BlobReferences]. split.
  - now apply (reachable_NoDup X).
  - now apply reachable_referencesOfInputs.
Qed.

(** The invariant check of [Add] passes on a reference that carries the
    metadata of its file. *)
Lemma wrongReferenceIndex_passes (vs : state) (refIdx fn : Z) (r : BlobReference) :
  nth_error (currReferences vs) (Z.to_nat refIdx) = Some r ->
  FileNum r = fn ->
  referenceOfInput (inputBlobMetadatas vs) r ->
  wrongReferenceIndex X vs refIdx fn = None.
Proof.
  intros Hn Hf (md & Hm & Hfn & _). unfold wrongReferenceIndex.
  destruct (invariants_Enabled X); [| reflexivity].
  rewrite Hn, Hm. rewrite Hfn, Hf. now rewrite Z.eqb_refl.
Qed.

Lemma findReference_nth (refs : list BlobReference) (fn refIdx : Z) :
  findReference refs fn 0 = Some refIdx ->
  exists r, nth_error refs (Z.to_nat refIdx) = Some r /\ FileNum r = fn /\
            0 <= refIdx < len refs.
Proof.
  intros H. apply findReference_Some in H as (Hr & Hn & _).
  replace (refIdx - 0) with refIdx in Hn by lia.
  rewrite nth_error_map in Hn.
  destruct (nth_error refs (Z.to_nat refIdx)) as [r |]; [| discriminate].
  injection Hn as Hn. exists r. split; [reflexivity |]. split; [exact Hn | lia].
Qed.

Lemma findReference_absent (refs : list BlobReference) (fn : Z) :
  ~ In fn (map FileNum refs) -> findReference refs fn 0 = None.
Proof.
  intros Hn. destruct (findReference refs fn 0) as [i |] eqn:E; [| reflexivity].
  apply findReference_nth in E as (r & Hr & Hf & _).
  exfalso. apply Hn. rewrite <- Hf. apply in_map. eapply nth_error_In; eauto.
Qed.

(** What [copyHandle] does once the invariant check has passed: one call on
    the sstable writer, whose answer is returned; the sizes grow only when the
    writer took the handle. *)
Definition forwardHandle (vs : state) (tw : RawWriter) (kv : InternalKV) (lv : LazyValue)
           (refIdx : Z) (fo : bool) : state * RawWriter * result unit :=
  let call := CallAddWithBlobHandle (K kv)
                (mkInlineHandle (u32 refIdx) (AttributeValueLen (Fetcher lv))
                   (blob_DecodeHandleSuffix X (ValueOrHandle lv)))
                (AttributeShortAttribute (Fetcher lv)) fo in
  let e := refuses tw (calls tw) call in
  (match e with
   | Some _ => vs
   | None =>
       with_sizes vs
         (addValueSize (currReferences vs) (Z.to_nat refIdx)
            (u64 (AttributeValueLen (Fetcher lv))))
         (u64 (totalValueSize vs + u64 (AttributeValueLen (Fetcher lv))))
   end,
   mkRawWriter (calls tw ++ [(call, e)]) (refuses tw),
   errorResult e).

Lemma copyHandle_forwardHandle (vs : state) (tw : RawWriter) (kv : InternalKV)
      (lv : LazyValue) (refIdx : Z) (fo : bool) :
  wrongReferenceIndex X vs refIdx (BlobFileNum (Fetcher lv)) = None ->
  copyHandle X vs tw kv lv refIdx fo = forwardHandle vs tw kv lv refIdx fo.
Proof.
  intros Hw. unfold copyHandle, forwardHandle. rewrite Hw. cbn.
  destruct (refuses tw (calls tw) _); reflexivity.
Qed.

(** The state in which the handle of a blob file is forwarded, and the
    reference index it is given: the state as it is and the index of the
    file's reference if there is one, else the state with a reference of
    size 0 appended for the input metadata found, and the index of that. *)
Definition referenceFor (vs : state) (fn : Z) : option (state * Z) :=
  match findReference (currReferences vs) fn 0 with
  | Some refIdx => Some (vs, refIdx)
  | None =>
      let '(idx, found) := findInputBlobMetadata vs fn in
      if found then
        let md := nth (Z.to_nat idx) (inputBlobMetadatas vs) zeroBlobFileMetadata in
        Some (with_references vs (currReferences vs ++ [mkBlobReference fn 0 (Some md)]),
              len (currReferences vs))
      else None
  end.

Lemma referenceFor_Some (vs vs1 : state) (fn refIdx : Z) :
  referencesOfInputs vs ->
  referenceFor vs fn = Some (vs1, refIdx) ->
  referencesOfInputs vs1 /\
  inputBlobMetadatas vs1 = inputBlobMetadatas vs /\
  totalValueSize vs1 = totalValueSize vs /\
  0 <= refIdx < len (currReferences vs1) /\
  exists r, nth_error (currReferences vs1) (Z.to_nat refIdx) = Some r /\ FileNum r = fn.
Proof.
  intros Hinv. unfold referenceFor.
  destruct (findReference (currReferences vs) fn 0) as [i |] eqn:Ef.
  - intros H. injection H as <- <-.
    apply findReference_nth in Ef as (r & Hr & Hf & Hi).
    repeat split; try assumption; try lia. now exists r.
  - destruct (findInputBlobMetadata vs fn) as [idx found] eqn:Ei.
    destruct found; [| discriminate].
    intros H. injection H as <- <-.
    apply findInputBlobMetadata_found in Ei as [Hidx Hfn].
    pose proof (len_nonneg (currReferences vs)) as Hnn.
    cbn [currReferences with_references inputBlobMetadatas totalValueSize].
    split; [| split; [reflexivity | split; [reflexivity | split]]].
    + unfold referencesOfInputs.
      cbn [currReferences with_references inputBlobMetadatas].
      apply Forall_app. split; [exact Hinv |]. constructor; [| constructor].
      eexists. cbn [Metadata FileNum]. split; [reflexivity |]. split; [exact Hfn |].
      apply nth_In. unfold len in Hidx. lia.
    + rewrite len_app. change (len [mkBlobReference fn 0
        (Some (nth (Z.to_nat idx) (inputBlobMetadatas vs) zeroBlobFileMetadata))]) with 1.
      lia.
    + eexists. split;
        [unfold len; rewrite Nat2Z.id; rewrite nth_error_app2 by lia;
         rewrite Nat.sub_diag; reflexivity
        | reflexivity].
Qed.

(** [Add] on a blob handle, in a state whose references carry the metadata
    of their files: the assertion error for a file that is neither referenced
    nor among the inputs, else the handle is forwarded. *)
Lemma Add_blob_handle (vs : state) (tw : RawWriter) (kv : InternalKV) (lv : LazyValue)
      (fo : bool) :
  referencesOfInputs vs ->
  V kv = BlobValueHandle lv ->
  Add X vs tw kv fo
  = match referenceFor vs (BlobFileNum (Fetcher lv)) with
    | Some (vs1, refIdx) => forwardHandle vs1 tw kv lv refIdx fo
    | None =>
        (vs, tw, Err (AssertionFailed "pebble: blob file not found among input sstables"))
    end.
Proof.
  intros Hinv Hv.
  destruct (referenceFor vs (BlobFileNum (Fetcher lv))) as [[vs1 refIdx] |] eqn:Er.
  - pose proof (referenceFor_Some _ _ _ _ Hinv Er) as (Hinv1 & _ & _ & _ & r & Hr & Hf).
    assert (Hw : wrongReferenceIndex X vs1 refIdx (BlobFileNum (Fetcher lv)) = None).
    { apply (wrongReferenceIndex_passes vs1 refIdx _ r Hr Hf).
      unfold referencesOfInputs in Hinv1. rewrite Forall_forall in Hinv1.
      apply Hinv1. eapply nth_error_In; eauto. }
    rewrite <- (copyHandle_forwardHandle _ _ _ _ _ _ Hw).
    unfold Add. rewrite Hv. unfold referenceFor in Er.
    destruct (findReference (currReferences vs) (BlobFileNum (Fetcher lv)) 0) as [i |].
    + injection Er as <- <-. reflexivity.
    + destruct (findInputBlobMetadata vs (BlobFileNum (Fetcher lv))) as [idx found].
      destruct found; [| discriminate]. injection Er as <- <-. reflexivity.
  - unfold Add. rewrite Hv. unfold referenceFor in Er.
    destruct (findReference (currReferences vs) (BlobFileNum (Fetcher lv)) 0) as [i |];
      [discriminate |].
    destruct (findInputBlobMetadata vs (BlobFileNum (Fetcher lv))) as [idx found].
    destruct found; [discriminate | reflexivity].
Qed.

(** X11.  In the states the policy reaches, [Add] never panics on a blob
    handle, also with invariant checks compiled in: the check of the
    reference index always passes, as every current reference carries the
    metadata of its own blob file.  A panic of [Add] can only be that of
    fetching a value that is not a blob handle. *)
Theorem Add_panics_only_in_fetch (vs : state) (tw : RawWriter) (kv : InternalKV)
        (fo : bool) (m : string) :
  reachable X vs ->
  snd (Add X vs tw kv fo) = Panic m ->
  IsBlobValueHandle (V kv) = false /\ Value kv = Panic m.
Proof.
  intros Hr H. apply reachable_referencesOfInputs in Hr.
  destruct (V kv) as [v | lv0 | lv] eqn:Ev.
  1,2: split; [reflexivity |]; unfold Add in H; rewrite Ev in H;
       destruct (Value kv) as [v' | e | m']; cbn in H;
       [destruct (refuses tw (calls tw) _); discriminate | discriminate
       | injection H as ->; reflexivity].
  exfalso. rewrite (Add_blob_handle vs tw kv lv fo Hr Ev) in H.
  destruct (referenceFor vs (BlobFileNum (Fetcher lv))) as [[vs1 refIdx] |];
    [| discriminate].
  unfold forwardHandle in H. cbn [snd] in H.
  destruct (refuses tw (calls tw) _); discriminate.
Qed.

(** X12.  A blob handle into a file that is not among the input metadata
    (sorted by file number) is refused with an assertion error, and the call
    leaves everything as it was: nothing is handed to the sstable writer and
    no reference is recorded. *)
Theorem Add_unknown_blob_file (vs : state) (tw : RawWriter) (kv : InternalKV)
        (lv : LazyValue) (fo : bool) :
  reachable X vs ->
  sortedByFileNum (inputBlobMetadatas vs) = true ->
  V kv = BlobValueHandle lv ->
  ~ In (BlobFileNum (Fetcher lv)) (map bmFileNum (inputBlobMetadatas vs)) ->
  Add X vs tw kv fo
  = (vs, tw, Err (AssertionFailed "pebble: blob file not found among input sstables")).
Proof.
  intros Hr Hs Hv Hn. apply reachable_referencesOfInputs in Hr.
  rewrite (Add_blob_handle vs tw kv lv fo Hr Hv).
  unfold referenceFor.
  rewrite findReference_absent
    by (intros C; apply Hn; now apply referencesOfInputs_FileNum).
  pose proof (findInputBlobMetadata_sorted vs (BlobFileNum (Fetcher lv)) Hs)
    as (_ & _ & _ & Hin & _).
  destruct (findInputBlobMetadata vs (BlobFileNum (Fetcher lv))) as [idx found].
  cbn [snd] in Hin. destruct found; [| reflexivity].
  exfalso. apply Hn. now apply Hin.
Qed.


(** ** What the value sizes count *)

(** The bytes one [Add] accounts for: the length of the handle's value when
    the pair is a blob handle and the call returned no error. *)
Definition writtenHandleBytes (it : InternalKV * bool) (r : result unit) : Z :=
  match V (fst it), r with
  | BlobValueHandle lv, Ok _ => u64 (AttributeValueLen (Fetcher lv))
  | _, _ => 0
  end.

(** The same, for the handles into the blob file [fn] only. *)
Definition writtenBytesFor (fn : Z) (it : InternalKV * bool) (r : result unit) : Z :=
  match V (fst it) with
  | BlobValueHandle lv =>
      if BlobFileNum (Fetcher lv) =? fn then writtenHandleBytes it r else 0
  | _ => 0
  end.

(** Over a run, pairs and results taken side by side. *)
Definition sumOver (f : InternalKV * bool -> result unit -> Z)
           (items : list (InternalKV * bool)) (rs : list (result unit)) : Z :=
  fold_right (fun p acc => f (fst p) (snd p) + acc) 0 (combine items rs).

(** The value size recorded for the blob file [fn], 0 if it has no
    reference. *)
Fixpoint valueSizeOf (fn : Z) (refs : list BlobReference) : Z :=
  match refs with
  | [] => 0
  | r :: rest => if FileNum r =? fn then ValueSize r else valueSizeOf fn rest
  end.

Definition sizesAreU64 (refs : list BlobReference) : Prop :=
  Forall (fun r => ValueSize r = u64 (ValueSize r)) refs.

Lemma copyHandle_result (vs : state) (tw : RawWriter) (kv : InternalKV) (lv : LazyValue)
      (refIdx : Z) (fo : bool) (vs' : state) (tw' : RawWriter) (r : result unit) :
  copyHandle X vs tw kv lv refIdx fo = (vs', tw', r) ->
  (r = Ok tt /\
   vs' = with_sizes vs
           (addValueSize (currReferences vs) (Z.to_nat refIdx)
              (u64 (AttributeValueLen (Fetcher lv))))
           (u64 (totalValueSize vs + u64 (AttributeValueLen (Fetcher lv)))))
  \/ (r <> Ok tt /\ vs' = vs).
Proof.
  unfold copyHandle.
  destruct (wrongReferenceIndex X vs refIdx _).
  - intros H. injection H as <- <- <-. right. split; [discriminate | reflexivity].
  - cbn. destruct (refuses tw (calls tw) _); intros H; injection H as <- <- <-.
    + right. split; [discriminate | reflexivity].
    + left. split; reflexivity.
Qed.

Lemma findReference_app_new (refs : list BlobReference) (fn : Z)
      (md : option BlobFileMetadata) :
  findReference refs fn 0 = None ->
  findReference (refs ++ [mkBlobReference fn 0 md]) fn 0 = Some (len refs).
Proof.
  intros H. apply findReference_None in H.
  rewrite findReference_indexOf, map_app. cbn [map FileNum].
  rewrite (indexOf_app_new fn _ H). cbn [option_map].
  unfold len. now rewrite length_map.
Qed.

(** One [Add], as far as the sizes go: the references [refs1] in which the
    handle's file has its reference, and whether a size was added there. *)
Lemma Add_sizes (vs : state) (tw : RawWriter) (kv : InternalKV) (fo : bool)
      (vs' : state) (tw' : RawWriter) (r : result unit) :
  Add X vs tw kv fo = (vs', tw', r) ->
  exists refs1,
    (refs1 = currReferences vs
     \/ exists fn md, refs1 = currReferences vs ++ [mkBlobReference fn 0 md]) /\
    ((writtenHandleBytes (kv, fo) r = 0 /\
      (forall fn, writtenBytesFor fn (kv, fo) r = 0) /\
      currReferences vs' = refs1 /\ totalValueSize vs' = totalValueSize vs)
     \/
     (exists lv refIdx,
        V kv = BlobValueHandle lv /\ r = Ok tt /\
        findReference refs1 (BlobFileNum (Fetcher lv)) 0 = Some refIdx /\
        currReferences vs'
        = addValueSize refs1 (Z.to_nat refIdx) (u64 (AttributeValueLen (Fetcher lv))) /\
        totalValueSize vs'
        = u64 (totalValueSize vs + u64 (AttributeValueLen (Fetcher lv))))).
Proof.
  unfold Add. intros H.
  assert (Hzero : forall lv, V kv = BlobValueHandle lv -> r <> Ok tt ->
            writtenHandleBytes (kv, fo) r = 0 /\
            forall fn, writtenBytesFor fn (kv, fo) r = 0).
  { intros lv Hv Hr. unfold writtenBytesFor, writtenHandleBytes. cbn [fst]. rewrite Hv.
    destruct r as [[] | e | m]; [congruence | |];
      (split; [reflexivity | intros fn; now destruct (_ =? fn)]). }
  destruct (V kv) as [v | lv0 | lv] eqn:Ev.
  1,2: exists (currReferences vs); split; [now left |]; left;
       unfold writtenBytesFor, writtenHandleBytes; cbn [fst]; rewrite Ev;
       destruct (Value kv) as [v' | e | m]; [cbn in H | |];
       injection H as <- <- <-; repeat split; reflexivity.
  destruct (findReference (currReferences vs) (BlobFileNum (Fetcher lv)) 0)
    as [refIdx |] eqn:Ef.
  - exists (currReferences vs). split; [now left |].
    apply copyHandle_result in H as [(-> & ->) | (Hr & ->)].
    + right. exists lv, refIdx. repeat split. exact Ef.
    + left. destruct (Hzero lv eq_refl Hr) as [Hz1 Hz2]. repeat split; assumption.
  - destruct (findInputBlobMetadata vs (BlobFileNum (Fetcher lv))) as [idx found].
    destruct found; cbn [negb] in H.
    + eexists. split; [right; eexists; eexists; reflexivity |].
      apply copyHandle_result in H as [(-> & ->) | (Hr & ->)].
      * right. exists lv, (len (currReferences vs)).
        cbn [currReferences with_sizes with_references totalValueSize].
        repeat split. now apply findReference_app_new.
      * left. destruct (Hzero lv eq_refl Hr) as [Hz1 Hz2].
        cbn [currReferences with_references totalValueSize]. repeat split; assumption.
    + injection H as <- <- <-. exists (currReferences vs). split; [now left |].
      left. destruct (Hzero lv eq_refl ltac:(discriminate)) as [Hz1 Hz2].
      repeat split; assumption.
Qed.

Lemma valueSizeOf_app_zero (refs : list BlobReference) (fn0 fn : Z)
      (md : option BlobFileMetadata) :
  valueSizeOf fn (refs ++ [mkBlobReference fn0 0 md]) = valueSizeOf fn refs.
Proof.
  induction refs as [| r refs IH]; cbn [app valueSizeOf FileNum ValueSize].
  - now destruct (fn0 =? fn).
  - now rewrite IH.
Qed.

Lemma valueSizeOf_addValueSize (refs : list BlobReference) (fn0 fn n : Z) :
  forall start refIdx,
    findReference refs fn0 start = Some refIdx ->
    valueSizeOf fn (addValueSize refs (Z.to_nat (refIdx - start)) n)
    = if fn0 =? fn then u64 (valueSizeOf fn refs + n) else valueSizeOf fn refs.
Proof.
  induction refs as [| r refs IH]; intros start refIdx H; [discriminate |].
  cbn [findReference] in H.
  destruct (Z.eqb_spec (FileNum r) fn0) as [E | N].
  - injection H as <-. replace (start - start) with 0 by lia.
    cbn [Z.to_nat addValueSize valueSizeOf FileNum ValueSize]. rewrite E.
    now destruct (fn0 =? fn).
  - pose proof (findReference_Some _ _ _ _ H) as (Hr & _).
    replace (Z.to_nat (refIdx - start)) with (S (Z.to_nat (refIdx - (start + 1)))) by lia.
    cbn [addValueSize valueSizeOf]. rewrite (IH _ _ H).
    destruct (Z.eqb_spec (FileNum r) fn) as [E' | N']; [| reflexivity].
    destruct (Z.eqb_spec fn0 fn); [congruence | reflexivity].
Qed.

Lemma valueSizeOf_u64 (fn : Z) (refs : list BlobReference) :
  sizesAreU64 refs -> valueSizeOf fn refs = u64 (valueSizeOf fn refs).
Proof.
  induction 1 as [| r refs Hr _ IH]; cbn [valueSizeOf]; [reflexivity |].
  now destruct (FileNum r =? fn).
Qed.

Lemma addValueSize_u64 (refs : list BlobReference) (idx : nat) (n : Z) :
  sizesAreU64 refs -> sizesAreU64 (addValueSize refs idx n).
Proof.
  intros H. revert idx. induction H as [| r refs Hr Hrest IH]; intros idx; [constructor |].
  destruct idx as [| idx]; cbn [addValueSize]; constructor.
  - cbn [ValueSize]. symmetry. apply u64_idem.
  - exact Hrest.
  - exact Hr.
  - apply IH.
Qed.

Lemma valueSizeOf_In (refs : list BlobReference) (r : BlobReference) :
  NoDup (map FileNum refs) -> In r refs -> valueSizeOf (FileNum r) refs = ValueSize r.
Proof.
  induction refs as [| x refs IH]; intros Hnd Hin; [destruct Hin |].
  cbn [map] in Hnd. inversion Hnd as [| ? ? Hx Hnd']; subst.
  cbn [valueSizeOf]. destruct Hin as [-> | Hin]; [now rewrite Z.eqb_refl |].
  destruct (Z.eqb_spec (FileNum x) (FileNum r)) as [E | _]; [| now apply IH].
  exfalso. apply Hx. rewrite E. now apply in_map.
Qed.

Lemma Add_sizes_count (vs : state) (tw : RawWriter) (kv : InternalKV) (fo : bool)
      (vs' : state) (tw' : RawWriter) (r : result unit) :
  Add X vs tw kv fo = (vs', tw', r) ->
  sizesAreU64 (currReferences vs) ->
  (totalValueSize vs = u64 (totalValueSize vs) ->
   totalValueSize vs' = u64 (totalValueSize vs + writtenHandleBytes (kv, fo) r)) /\
  sizesAreU64 (currReferences vs') /\
  (forall fn, valueSizeOf fn (currReferences vs')
              = u64 (valueSizeOf fn (currReferences vs) + writtenBytesFor fn (kv, fo) r)) /\
  u64 (sumValueSizes (currReferences vs'))
  = u64 (sumValueSizes (currReferences vs) + writtenHandleBytes (kv, fo) r).
Proof.
  intros H Hu.
  apply Add_sizes in H as (refs1 & Hrefs1 & Hcase).
  assert (H1 : sizesAreU64 refs1 /\
               (forall fn, valueSizeOf fn refs1 = valueSizeOf fn (currReferences vs)) /\
               sumValueSizes refs1 = sumValueSizes (currReferences vs)).
  { destruct Hrefs1 as [-> | (fn0 & md & ->)]; [repeat split; assumption |].
    split; [| split].
    - apply Forall_app. split; [exact Hu |]. constructor; [reflexivity | constructor].
    - intros fn. apply valueSizeOf_app_zero.
    - rewrite sumValueSizes_app. cbn. lia. }
  destruct H1 as (Hu1 & Hv1 & Hs1).
  destruct Hcase as [(Hw & Hwf & -> & ->) | (lv & refIdx & Hv & -> & Hf & -> & ->)].
  - rewrite Hw, !Z.add_0_r. split; [auto |]. split; [exact Hu1 |]. split.
    + intros fn. rewrite Hwf, Z.add_0_r, Hv1. now apply valueSizeOf_u64.
    + now rewrite Hs1.
  - assert (Hw : writtenHandleBytes (kv, fo) (Ok tt) = u64 (AttributeValueLen (Fetcher lv))).
    { unfold writtenHandleBytes. cbn [fst]. now rewrite Hv. }
    rewrite Hw. split; [reflexivity |].
    split; [now apply addValueSize_u64 |]. split.
    + intros fn.
      pose proof (valueSizeOf_addValueSize refs1 (BlobFileNum (Fetcher lv)) fn
                    (u64 (AttributeValueLen (Fetcher lv))) 0 refIdx Hf) as Hx.
      replace (refIdx - 0) with refIdx in Hx by lia. rewrite Hx.
      unfold writtenBytesFor. cbn [fst]. rewrite Hv, Hw, Hv1.
      destruct (BlobFileNum (Fetcher lv) =? fn); [reflexivity |].
      rewrite Z.add_0_r. rewrite <- Hv1. now apply valueSizeOf_u64.
    + apply findReference_Some in Hf as (Hr & _).
      rewrite addValueSize_sum by (unfold len in Hr; lia).
      now rewrite Hs1.
Qed.

Lemma sumOver_cons (f : InternalKV * bool -> result unit -> Z) (it : InternalKV * bool)
      (r : result unit) (items : list (InternalKV * bool)) (rs : list (result unit)) :
  sumOver f (it :: items) (r :: rs) = f it r + sumOver f items rs.
Proof. reflexivity. Qed.

(** A run of [Add] calls, as far as the sizes go. *)
Lemma AddAll_sizes_count (items : list (InternalKV * bool)) :
  forall (vs : state) (tw : RawWriter) (vs' : state) (tw' : RawWriter)
         (rs : list (result unit)),
    AddAll X vs tw items = (vs', tw', rs) ->
    sizesAreU64 (currReferences vs) ->
    (totalValueSize vs = u64 (totalValueSize vs) ->
     totalValueSize vs' = u64 (totalValueSize vs + sumOver writtenHandleBytes items rs)) /\
    sizesAreU64 (currReferences vs') /\
    (forall fn, valueSizeOf fn (currReferences vs')
                = u64 (valueSizeOf fn (currReferences vs)
                       + sumOver (writtenBytesFor fn) items rs)) /\
    u64 (sumValueSizes (currReferences vs'))
    = u64 (sumValueSizes (currReferences vs) + sumOver writtenHandleBytes items rs) /\
    (NoDup (map FileNum (currReferences vs)) ->
     NoDup (map FileNum (currReferences vs'))).
Proof.
  induction items as [| [kv fo] rest IH]; intros vs tw vs' tw' rs H Hu.
  - cbn in H. injection H as <- <- <-. unfold sumOver. cbn [combine fold_right].
    rewrite !Z.add_0_r. split; [auto |]. split; [exact Hu |].
    split; [| split; [reflexivity | auto]].
    intros fn. rewrite Z.add_0_r. now apply valueSizeOf_u64.
  - cbn [AddAll] in H.
    destruct (Add X vs tw kv fo) as [[vs1 tw1] r1] eqn:E1.
    destruct (AddAll X vs1 tw1 rest) as [[vs2 tw2] rs2] eqn:E2.
    injection H as <- <- <-.
    pose proof (Add_state X _ _ _ _ _ _ _ E1) as (_ & _ & _ & Hnd1).
    apply Add_sizes_count in E1 as (Ht1 & Hu1 & Hv1 & Hs1); [| exact Hu].
    apply IH in E2 as (Ht2 & Hu2 & Hv2 & Hs2 & Hnd2); [| exact Hu1].
    rewrite !sumOver_cons.
    split; [| split; [exact Hu2 | split; [| split]]].
    + intros Ht. specialize (Ht1 Ht).
      rewrite Ht2 by (rewrite Ht1; symmetry; apply u64_idem).
      rewrite Ht1, u64_add_l. now rewrite Z.add_assoc.
    + intros fn. rewrite sumOver_cons, Hv2, Hv1, u64_add_l. now rewrite Z.add_assoc.
    + rewrite Hs2. rewrite <- u64_add_l, Hs1, u64_add_l. now rewrite Z.add_assoc.
    + auto.
Qed.

(** X14.  [EstimatedReferenceSize] counts the handles written: over any run
    of [Add] calls it grows, in uint64, by the value lengths of exactly those
    blob handles whose [Add] returned no error.  Values written in place and
    handles the sstable writer refused add nothing. *)
Theorem EstimatedReferenceSize_counts_written_handles (vs : state) (tw : RawWriter)
        (items : list (InternalKV * bool)) (vs' : state) (tw' : RawWriter)
        (rs : list (result unit)) :
  reachable X vs ->
  AddAll X vs tw items = (vs', tw', rs) ->
  EstimatedReferenceSize vs'
  = u64 (EstimatedReferenceSize vs + sumOver writtenHandleBytes items rs).
Proof.
  intros Hr H.
  assert (Hinv : sizesAreU64 (currReferences vs) /\
                 totalValueSize vs = u64 (totalValueSize vs)).
  { clear H. induction Hr as [inputs depth | vs0 tw0 kv fo _ IH | vs0 _ IH].
    - split; [constructor | reflexivity].
    - destruct IH as [Hu Ht].
      destruct (Add X vs0 tw0 kv fo) as [[vs1 tw1] r1] eqn:E. cbn [fst].
      apply Add_sizes_count in E as (Ht1 & Hu1 & _); [| exact Hu].
      split; [exact Hu1 |]. rewrite (Ht1 Ht). symmetry. apply u64_idem.
    - destruct IH as [_ Ht]. split; [constructor | exact Ht]. }
  destruct Hinv as [Hu Ht].
  unfold EstimatedReferenceSize.
  now apply (AddAll_sizes_count items vs tw vs' tw' rs H Hu).
Qed.

(** X15.  For an output that starts with no current reference, the metadata
    [FinishOutput] returns after a run of [Add] calls accounts for the handles
    written, file by file: the value size of each reference is the summed
    length, in uint64, of the handles into its blob file whose [Add] returned
    no error, and the reference size is that sum over all files. *)
Theorem FinishOutput_value_sizes (vs : state) (tw : RawWriter)
        (items : list (InternalKV * bool)) (vs' : state) (tw' : RawWriter)
        (rs : list (result unit)) :
  currReferences vs = [] ->
  AddAll X vs tw items = (vs', tw', rs) ->
  exists md,
    snd (FinishOutput vs') = Ok md /\
    BlobReferenceSize md = u64 (sumOver writtenHandleBytes items rs) /\
    forall r, In r (BlobReferences md) ->
              ValueSize r = u64 (sumOver (writtenBytesFor (FileNum r)) items rs).
Proof.
  intros Hempty H.
  rewrite FinishOutput_eq. eexists. split; [reflexivity |].
  cbn [BlobReferenceSize BlobReferences].
  assert (Hu : sizesAreU64 (currReferences vs)) by (rewrite Hempty; constructor).
  apply AddAll_sizes_count in H as (_ & Hu2 & Hv2 & Hs2 & Hnd2); [| exact Hu].
  rewrite Hempty in Hv2, Hs2, Hnd2. cbn [valueSizeOf sumValueSizes fold_right] in Hv2, Hs2.
  split.
  - rewrite referenceSize_sum. exact Hs2.
  - intros r Hin. rewrite <- (valueSizeOf_In _ r (Hnd2 ltac:(constructor)) Hin).
    apply Hv2.
Qed.

(** X16.  [Add] is not all or nothing.  When the first handle into a blob
    file of the inputs fails to be written (the sstable writer refuses it),
    the reference appended for that file stays behind, with value size 0 and
    the file's metadata, while the running total is as before; it is then
    among the references [FinishOutput] returns. *)
Theorem Add_refused_first_handle_leaves_reference (vs : state) (tw : RawWriter)
        (kv : InternalKV) (lv : LazyValue) (fo : bool) (vs' : state) (tw' : RawWriter)
        (r : result unit) :
  reachable X vs ->
  sortedByFileNum (inputBlobMetadatas vs) = true ->
  V kv = BlobValueHandle lv ->
  In (BlobFileNum (Fetcher lv)) (map bmFileNum (inputBlobMetadatas vs)) ->
  ~ In (BlobFileNum (Fetcher lv)) (map FileNum (currReferences vs)) ->
  Add X vs tw kv fo = (vs', tw', r) ->
  r <> Ok tt ->
  exists md,
    bmFileNum md = BlobFileNum (Fetcher lv) /\ In md (inputBlobMetadatas vs) /\
    currReferences vs'
    = currReferences vs ++ [mkBlobReference (BlobFileNum (Fetcher lv)) 0 (Some md)] /\
    totalValueSize vs' = totalValueSize vs /\
    exists out, snd (FinishOutput vs') = Ok out /\
                In (mkBlobReference (BlobFileNum (Fetcher lv)) 0 (Some md))
                   (BlobReferences out).
Proof.
  intros Hr Hs Hv Hin Hnew H Hfail. apply reachable_referencesOfInputs in Hr.
  rewrite (Add_blob_handle vs tw kv lv fo Hr Hv) in H.
  unfold referenceFor in H.
  rewrite (findReference_absent _ _ Hnew) in H.
  pose proof (findInputBlobMetadata_sorted vs (BlobFileNum (Fetcher lv)) Hs)
    as (Hidx & _ & _ & Hfound & Hat).
  destruct (findInputBlobMetadata vs (BlobFileNum (Fetcher lv))) as [idx found] eqn:Ef.
  cbn [fst snd] in Hidx, Hfound, Hat.
  apply Hfound in Hin. subst found.
  apply findInputBlobMetadata_found in Ef as [Hrange _].
  unfold forwardHandle in H.
  destruct (refuses tw (calls tw) _) as [err |].
  2:{ injection H as _ _ <-. now contradiction Hfail. }
  injection H as <- _ _.
  exists (nth (Z.to_nat idx) (inputBlobMetadatas vs) zeroBlobFileMetadata).
  cbn [currReferences with_references totalValueSize BlobReferences].
  split; [now apply Hat |].
  split; [apply nth_In; unfold len in Hrange; lia |].
  split; [reflexivity |]. split; [reflexivity |].
  rewrite FinishOutput_eq. eexists. split; [reflexivity |].
  cbn [BlobReferences currReferences with_references].
  apply in_or_app. right. now left.
Qed.

End PreserveInvariants.

(** *** The concrete compaction again *)

(** The policy after one handle into blob file 7 has been added. *)
Definition demoPreserveAfterAdd : preserveBlobReferences.state :=
  fst (fst (preserveBlobReferences.Add demoExternals demoPreserve demoWriter
              (blobKV 1 7 10) false)).

(** A pair whose value sits in a value block that cannot be fetched. *)
Definition unfetchableKV : InternalKV :=
  mkInternalKV (demoKey 4)
    (ValueBlockValue (mkLazyValue [] (mkLazyFetcher 0 0 0 (Panic "value block gone")))).

(** An sstable writer that refuses every call. *)
Definition refusingWriter : RawWriter :=
  mkRawWriter [] (fun _ _ => Some (ExternalError "sstable writer closed")).

Lemma FinishOutput_references_of_inputs_witness :
  exists md,
    snd (preserveBlobReferences.FinishOutput demoPreserveAfterAdd) = Ok md /\
    NoDup (map FileNum (BlobReferences md)) /\
    Forall (referenceOfInput (preserveBlobReferences.inputBlobMetadatas demoPreserveAfterAdd))
           (BlobReferences md).
Proof.
  apply (FinishOutput_references_of_inputs demoExternals).
  apply preserveBlobReferences.reach_Add. apply preserveBlobReferences.reach_new.
Defined.

Lemma Add_panics_only_in_fetch_witness :
  IsBlobValueHandle (V unfetchableKV) = false /\
  Value unfetchableKV = Panic "value block gone".
Proof.
  apply (Add_panics_only_in_fetch demoExternals demoPreserve demoWriter unfetchableKV false).
  - apply preserveBlobReferences.reach_new.
  - reflexivity.
Defined.

Lemma Add_unknown_blob_file_witness :
  preserveBlobReferences.Add demoExternals demoPreserve demoWriter (blobKV 1 6 10) false
  = (demoPreserve, demoWriter,
     Err (AssertionFailed "pebble: blob file not found among input sstables")).
Proof.
  apply (Add_unknown_blob_file demoExternals demoPreserve demoWriter (blobKV 1 6 10)
           (mkLazyValue [3; 4] (mkLazyFetcher 6 10 0 (Ok [])))).
  - apply preserveBlobReferences.reach_new.
  - reflexivity.
  - reflexivity.
  - cbn. intros [C | [C | [C | []]]]; discriminate.
Defined.


Lemma EstimatedReferenceSize_counts_written_handles_witness :
  let '(vs', tw', rs) :=
    preserveBlobReferences.AddAll demoExternals demoPreserve demoWriter demoItems in
  preserveBlobReferences.EstimatedReferenceSize vs'
  = u64 (0 + sumOver writtenHandleBytes demoItems rs).
Proof.
  destruct (preserveBlobReferences.AddAll demoExternals demoPreserve demoWriter demoItems)
    as [[vs' tw'] rs] eqn:E.
  apply (EstimatedReferenceSize_counts_written_handles demoExternals demoPreserve
           demoWriter demoItems vs' tw' rs).
  - apply preserveBlobReferences.reach_new.
  - exact E.
Defined.

Lemma FinishOutput_value_sizes_witness :
  let '(vs', tw', rs) :=
    preserveBlobReferences.AddAll demoExternals demoPreserve demoWriter demoItems in
  exists md,
    snd (preserveBlobReferences.FinishOutput vs') = Ok md /\
    BlobReferenceSize md = u64 (sumOver writtenHandleBytes demoItems rs) /\
    forall r, In r (BlobReferences md) ->
              ValueSize r = u64 (sumOver (writtenBytesFor (FileNum r)) demoItems rs).
Proof.
  destruct (preserveBlobReferences.AddAll demoExternals demoPreserve demoWriter demoItems)
    as [[vs' tw'] rs] eqn:E.
  apply (FinishOutput_value_sizes demoExternals demoPreserve demoWriter demoItems
           vs' tw' rs).
  - reflexivity.
  - exact E.
Defined.

Lemma Add_refused_first_handle_leaves_reference_witness :
  let '(vs', tw', r) :=
    preserveBlobReferences.Add demoExternals demoPreserve refusingWriter
      (blobKV 1 7 10) false in
  exists md,
    bmFileNum md = 7 /\ In md demoInputs /\
    preserveBlobReferences.currReferences vs' = [mkBlobReference 7 0 (Some md)] /\
    preserveBlobReferences.totalValueSize vs' = 0 /\
    exists out, snd (preserveBlobReferences.FinishOutput vs') = Ok out /\
                In (mkBlobReference 7 0 (Some md)) (BlobReferences out).
Proof.
  destruct (preserveBlobReferences.Add demoExternals demoPreserve refusingWriter
              (blobKV 1 7 10) false) as [[vs' tw'] r] eqn:E.
  apply (Add_refused_first_handle_leaves_reference demoExternals demoPreserve
           refusingWriter (blobKV 1 7 10)
           (mkLazyValue [3; 4] (mkLazyFetcher 7 10 0 (Ok []))) false vs' tw' r).
  - apply preserveBlobReferences.reach_new.
  - reflexivity.
  - reflexivity.
  - vm_compute. auto.
  - vm_compute. auto.
  - exact E.
  - vm_compute in E. injection E as _ _ <-. discriminate.
Defined.

(** * Further properties of the policy that writes new blob files *)

Section WriteNewFacts.

Import writeNewBlobFiles.

Variable X : Externals.

(** The values the open blob file holds, none without a writer. *)
Definition blobValues (vs : state) : list bytes :=
  match writer vs with
  | Some w => fwValues w
  | None => []
  end.

(** The fields [Add] decides by. *)
Definition sameConfiguration (a b : state) : Prop :=
  comparer a = comparer b /\ minimumSize a = minimumSize b /\
  shortAttrExtractor a = shortAttrExtractor b /\ newBlobObject a = newBlobObject b.

Lemma staysInline_fields (a b : state) (kv : InternalKV) (v : bytes) :
  comparer a = comparer b -> minimumSize a = minimumSize b ->
  requiredInPlaceValueBound a = requiredInPlaceValueBound b ->
  staysInline a kv v = staysInline b kv v.
Proof.
  intros Hc Hm Hb. unfold staysInline, withinBound. now rewrite Hc, Hm, Hb.
Qed.

Lemma afterBoundCheck_bound (vs : state) (kv : InternalKV) :
  requiredInPlaceValueBound (afterBoundCheck vs kv) = requiredInPlaceValueBound vs
  \/ requiredInPlaceValueBound (afterBoundCheck vs kv) = noBound.
Proof. unfold afterBoundCheck. destruct (_ && _); [now right | now left]. Qed.

(** What an [Add] that returns no error has done. *)
Lemma Add_Ok_step (vs : state) (tw : RawWriter) (kv : InternalKV) (fo : bool)
      (vs' : state) (tw' : RawWriter) :
  Add X vs tw kv fo = (vs', tw', Ok tt) ->
  exists v,
    Value kv = Ok v /\
    ((staysInline vs kv v = true /\
      calls tw' = calls tw ++ [(CallAdd (K kv) v fo, None)] /\ vs' = vs)
     \/
     (staysInline vs kv v = false /\
      exists attr w0,
        calls tw'
        = calls tw
          ++ [(CallAddWithBlobHandle (K kv)
                 (mkInlineHandle 0 (u32 (len v)) (blob_place X w0 v)) attr fo, None)] /\
        writer vs' = Some (mkFileWriter (fwFileNum w0) (fwValues w0 ++ [v])) /\
        sameConfiguration vs' vs /\
        requiredInPlaceValueBound vs'
        = requiredInPlaceValueBound (afterBoundCheck vs kv) /\
        ((writer vs = Some w0 /\ objectsRequested vs' = objectsRequested vs /\
          objMeta vs' = objMeta vs)
         \/
         (writer vs = None /\ fwValues w0 = [] /\
          objectsRequested vs' = S (objectsRequested vs) /\
          newBlobObject vs (objectsRequested vs) = Ok (objMeta vs') /\
          fwFileNum w0 = DiskFileNum (objMeta vs'))))).
Proof.
  intros H.
  destruct (Value kv) as [v | e | m] eqn:Hv;
    [| unfold Add in H; rewrite Hv in H; discriminate ..].
  exists v. split; [reflexivity |].
  rewrite (Add_decision X vs tw kv fo v Hv) in H.
  destruct (staysInline vs kv v) eqn:Hs.
  - left. rewrite writeInline_eq in H.
    destruct (refuses tw (calls tw) _) eqn:Er; [discriminate |].
    injection H as <- <-. cbn [calls]. repeat split; reflexivity.
  - right. split; [reflexivity |].
    destruct (afterBoundCheck_fields vs kv) as (Ec & Ex & Ew & En & Er & Eo & Em).
    apply separate_cases in H
      as [(_ & _ & _ & C & _) | (vs1 & w0 & attr & _ & Hop & -> & Hcalls & Hr)];
      [now contradiction C |].
    cbv zeta in Hcalls, Hr.
    destruct (refuses tw (calls tw) _) eqn:Eref; [discriminate |].
    subst tw'. exists attr, w0. cbn [calls writer with_writer].
    split; [reflexivity |]. split; [reflexivity |].
    apply openWriter_cases in Hop as [(Hw & ->) | (Hw & om & Hn & -> & ->)].
    + cbn [comparer minimumSize shortAttrExtractor newBlobObject
             requiredInPlaceValueBound objectsRequested objMeta with_writer].
      split; [unfold sameConfiguration; cbn [comparer minimumSize shortAttrExtractor
                newBlobObject with_writer]; repeat split; assumption |].
      split; [reflexivity |]. left. rewrite <- Ew. repeat split; assumption.
    + cbn [comparer minimumSize shortAttrExtractor newBlobObject
             requiredInPlaceValueBound objectsRequested objMeta with_writer
             with_object with_request].
      split; [unfold sameConfiguration; cbn [comparer minimumSize shortAttrExtractor
                newBlobObject with_writer with_object with_request];
              repeat split; assumption |].
      split; [reflexivity |]. right. rewrite <- Ew.
      split; [exact Hw |]. split; [reflexivity |]. split; [now rewrite Er |].
      split; [rewrite <- En, <- Er; exact Hn | reflexivity].
Qed.

(** With a blob writer open, [Add] keeps it open and asks for no blob
    object, whatever it returns. *)
Lemma Add_writer_open (vs : state) (tw : RawWriter) (kv : InternalKV) (fo : bool)
      (vs' : state) (tw' : RawWriter) (r : result unit) (w : FileWriter) :
  writer vs = Some w ->
  Add X vs tw kv fo = (vs', tw', r) ->
  (exists w', writer vs' = Some w') /\
  objectsRequested vs' = objectsRequested vs /\ objMeta vs' = objMeta vs.
Proof.
  intros Hw H.
  destruct (Value kv) as [v | e | m] eqn:Hv.
  2,3: unfold Add in H; rewrite Hv in H; injection H as <- <- <-;
       split; [now exists w | split; reflexivity].
  rewrite (Add_decision X vs tw kv fo v Hv) in H.
  destruct (staysInline vs kv v).
  - rewrite writeInline_eq in H. injection H as <- <- <-.
    split; [now exists w | split; reflexivity].
  - destruct (afterBoundCheck_fields vs kv) as (_ & _ & Ew & _ & Er & Eo & _).
    unfold separate in H.
    destruct (extractShortAttr (afterBoundCheck vs kv) kv v) as [attr | e | m].
    2,3: injection H as <- <- <-; rewrite Ew, Er, Eo;
         split; [now exists w | split; reflexivity].
    unfold openWriter in H. rewrite Ew, Hw in H. cbn in H.
    injection H as <- <- <-. cbn [writer objectsRequested objMeta with_writer].
    split; [eexists; reflexivity | split; assumption].
Qed.

(** ** Every pair is written once *)

(** The values of the pairs that were answered by a blob handle, in
    order. *)
Fixpoint separatedValues (items : list (InternalKV * bool))
         (new : list (WriterCall * option error)) : list bytes :=
  match items, new with
  | it :: items', c :: new' =>
      match fst c, Value (fst it) with
      | CallAddWithBlobHandle _ _ _ _, Ok v => v :: separatedValues items' new'
      | _, _ => separatedValues items' new'
      end
  | _, _ => []
  end.

(** The call that answers a pair: the key with its value, or the key with a
    handle of reference index 0 that has the length of the value; the sstable
    writer took it. *)
Definition writtenOnce (it : InternalKV * bool) (c : WriterCall * option error) : Prop :=
  snd c = None /\
  exists v,
    Value (fst it) = Ok v /\
    (fst c = CallAdd (K (fst it)) v (snd it)
     \/ exists h attr,
          fst c = CallAddWithBlobHandle (K (fst it)) h attr (snd it) /\
          ReferenceIndex h = 0 /\ ValueLen h = u32 (len v)).

(** X17.  Nothing is lost and nothing is written twice.  Over a run of [Add]
    calls none of which returns an error, the sstable writer is called once
    per pair, in order, with the pair's key and either its value or a handle
    with the value's length; and the blob file has grown by exactly the values
    of the pairs answered by a handle, in that order. *)
Theorem AddAll_writes_every_pair_once (items : list (InternalKV * bool)) (vs : state)
        (tw : RawWriter) (vs' : state) (tw' : RawWriter) (rs : list (result unit)) :
  AddAll X vs tw items = (vs', tw', rs) ->
  Forall (fun r => r = Ok tt) rs ->
  exists new,
    calls tw' = calls tw ++ new /\
    Forall2 writtenOnce items new /\
    blobValues vs' = blobValues vs ++ separatedValues items new.
Proof.
  revert vs tw vs' tw' rs.
  induction items as [| [kv fo] rest IH]; intros vs tw vs' tw' rs H Hok.
  - cbn in H. injection H as <- <- <-. exists [].
    rewrite !app_nil_r. repeat split. constructor.
  - cbn [AddAll] in H.
    destruct (Add X vs tw kv fo) as [[vs1 tw1] r1] eqn:E1.
    destruct (AddAll X vs1 tw1 rest) as [[vs2 tw2] rs2] eqn:E2.
    injection H as <- <- <-.
    inversion Hok as [| ? ? Hr1 Hrs]; subst.
    apply IH in E2 as (new & Hc2 & Hall & Hb2); [| exact Hrs].
    apply Add_Ok_step in E1
      as (v & Hv & [(_ & Hc1 & ->) | (_ & attr & w0 & Hc1 & Hw1 & _ & _ & Hor)]).
    + eexists. rewrite Hc2, Hc1, <- app_assoc. split; [reflexivity |].
      split.
      * constructor; [| exact Hall]. split; [reflexivity |].
        exists v. split; [exact Hv |]. left. reflexivity.
      * cbn [separatedValues fst app]. exact Hb2.
    + eexists. rewrite Hc2, Hc1, <- app_assoc. split; [reflexivity |].
      split.
      * constructor; [| exact Hall]. split; [reflexivity |].
        exists v. split; [exact Hv |]. right.
        eexists. eexists. split; [reflexivity |]. split; reflexivity.
      * cbn [separatedValues fst app]. rewrite Hv. rewrite Hb2.
        unfold blobValues at 1 2. rewrite Hw1. cbn [fwValues].
        destruct Hor as [(Hw & _) | (Hw & Hnil & _)]; rewrite Hw.
        -- now rewrite <- app_assoc.
        -- rewrite Hnil. reflexivity.
Qed.

(** ** Blob objects asked for *)

(** X18.  A blob object is only asked for while no blob writer is open: a
    run of [Add] calls that starts with a writer open keeps the object it has
    and asks for none.  A run that starts without a writer and in which no
    call returns an error has asked for no object if it ends without a writer,
    and for exactly one if it ends with one; the writer then writes the file
    of that very object. *)
Theorem newBlobObject_once_per_output (items : list (InternalKV * bool)) (vs : state)
        (tw : RawWriter) (vs' : state) (tw' : RawWriter) (rs : list (result unit)) :
  AddAll X vs tw items = (vs', tw', rs) ->
  (forall w, writer vs = Some w ->
     objectsRequested vs' = objectsRequested vs /\ objMeta vs' = objMeta vs) /\
  (writer vs = None -> Forall (fun r => r = Ok tt) rs ->
   match writer vs' with
   | None => objectsRequested vs' = objectsRequested vs
   | Some w' =>
       objectsRequested vs' = S (objectsRequested vs) /\
       newBlobObject vs (objectsRequested vs) = Ok (objMeta vs') /\
       fwFileNum w' = DiskFileNum (objMeta vs')
   end).
Proof.
  assert (Hopen : forall items vs tw vs' tw' rs w,
            AddAll X vs tw items = (vs', tw', rs) -> writer vs = Some w ->
            (exists w', writer vs' = Some w' /\ fwFileNum w' = fwFileNum w) /\
            objectsRequested vs' = objectsRequested vs /\ objMeta vs' = objMeta vs).
  { clear. induction items as [| [kv fo] rest IH]; intros vs tw vs' tw' rs w H Hw.
    - cbn in H. injection H as <- <- <-. split; [now exists w | split; reflexivity].
    - pose proof (AddAll_invariant X _ _ _ _ _ _ H) as (_ & _ & _ & _ & Hs & _).
      destruct (Hs w Hw) as (w' & Hw' & Hf & _).
      cbn [AddAll] in H.
      destruct (Add X vs tw kv fo) as [[vs1 tw1] r1] eqn:E1.
      destruct (AddAll X vs1 tw1 rest) as [[vs2 tw2] rs2] eqn:E2.
      injection H as <- <- <-.
      apply (Add_writer_open _ _ _ _ _ _ _ w Hw) in E1 as ((w1 & Hw1) & Hr1 & Ho1).
      destruct (IH _ _ _ _ _ w1 E2 Hw1) as (_ & Hr2 & Ho2).
      split; [exists w'; now split |]. split; congruence. }
  revert vs tw vs' tw' rs.
  induction items as [| [kv fo] rest IH]; intros vs tw vs' tw' rs H.
  - cbn in H. injection H as <- <- <-. split; [now split |].
    intros Hnone _. now rewrite Hnone.
  - split.
    + intros w Hw. now destruct (Hopen _ _ _ _ _ _ w H Hw) as (_ & Hr & Ho).
    + intros Hnone Hok. cbn [AddAll] in H.
      destruct (Add X vs tw kv fo) as [[vs1 tw1] r1] eqn:E1.
      destruct (AddAll X vs1 tw1 rest) as [[vs2 tw2] rs2] eqn:E2.
      injection H as <- <- <-.
      inversion Hok as [| ? ? Hr1 Hrs]; subst.
      apply Add_Ok_step in E1
        as (v & Hv & [(_ & _ & ->) | (_ & attr & w0 & _ & Hw1 & _ & _ & Hor)]).
      * destruct (IH _ _ _ _ _ E2) as [_ Hn]. exact (Hn Hnone Hrs).
      * destruct Hor as [(Hw & _) | (_ & _ & Hr & Hn & Hf)]; [congruence |].
        destruct (Hopen _ _ _ _ _ _ _ E2 Hw1) as ((w' & Hw' & Hf') & Hr2 & Ho2).
        rewrite Hw'. cbn [fwFileNum] in Hf'.
        split; [congruence |]. split; congruence.
Qed.

(** ** Keys in ascending order *)

Definition keyPrefix (c : Comparer) (it : InternalKV * bool) : bytes :=
  Prefix c (UserKey (K (fst it))).

(** The prefix of every pair is at most that of every later pair. *)
Fixpoint ascendingPrefixes (c : Comparer) (items : list (InternalKV * bool)) : Prop :=
  match items with
  | [] => True
  | it :: rest =>
      Forall (fun it' => Compare c (keyPrefix c it) (keyPrefix c it') <= 0) rest
      /\ ascendingPrefixes c rest
  end.

Definition transitiveCompare (c : Comparer) : Prop :=
  forall k1 k2 k3, Compare c k1 k2 <= 0 -> Compare c k2 k3 <= 0 -> Compare c k1 k3 <= 0.

(** The call that answers a pair is the one the policy [vs0] decides on. *)
Definition routedBy (vs0 : state) (it : InternalKV * bool)
           (c : WriterCall * option error) : Prop :=
  exists v, Value (fst it) = Ok v /\ (staysInline vs0 (fst it) v = true <-> isCallAdd c).

Lemma AddAll_routedBy (vs0 : state) (items : list (InternalKV * bool)) :
  transitiveCompare (comparer vs0) ->
  forall (st : state) (tw : RawWriter) (st' : state) (tw' : RawWriter)
         (rs : list (result unit)),
    comparer st = comparer vs0 ->
    (forall it, In it items ->
       forall v, staysInline st (fst it) v = staysInline vs0 (fst it) v) ->
    ascendingPrefixes (comparer vs0) items ->
    AddAll X st tw items = (st', tw', rs) ->
    Forall (fun r => r = Ok tt) rs ->
    exists new, calls tw' = calls tw ++ new /\ Forall2 (routedBy vs0) items new.
Proof.
  intros Htrans.
  induction items as [| [kv fo] rest IH]; intros st tw st' tw' rs Hc Hdec Hasc H Hok.
  - cbn in H. injection H as <- <- <-. exists []. rewrite app_nil_r. split; constructor.
  - cbn [AddAll] in H.
    destruct (Add X st tw kv fo) as [[st1 tw1] r1] eqn:E1.
    destruct (AddAll X st1 tw1 rest) as [[st2 tw2] rs2] eqn:E2.
    injection H as <- <- <-.
    inversion Hok as [| ? ? Hr1 Hrs]; subst.
    destruct Hasc as [Hhead Hasc].
    pose proof (Hdec (kv, fo) (or_introl eq_refl)) as Hd0. cbn [fst] in Hd0.
    apply Add_Ok_step in E1
      as (v & Hv & [(Hs & Hc1 & ->) | (Hs & attr & w0 & Hc1 & _ & Hcfg & Hb & _)]).
    + apply IH in E2 as (new & Hc2 & Hall);
        [| exact Hc | intros it Hin; apply Hdec; now right | exact Hasc | exact Hrs].
      eexists. rewrite Hc2, Hc1, <- app_assoc. split; [reflexivity |].
      constructor; [| exact Hall].
      exists v. split; [exact Hv |]. rewrite <- Hd0, Hs.
      split; [intros _; exact I | reflexivity].
    + destruct Hcfg as (Ec & Em & _).
      destruct (afterBoundCheck_fields st kv) as (Ec' & _ & _ & _ & _ & _ & Em').
      apply IH in E2 as (new & Hc2 & Hall);
        [| congruence | | exact Hasc | exact Hrs].
      * eexists. rewrite Hc2, Hc1, <- app_assoc. split; [reflexivity |].
        constructor; [| exact Hall].
        exists v. split; [exact Hv |]. rewrite <- Hd0, Hs.
        split; [discriminate | intros []].
      * intros it Hin v'.
        rewrite <- (Hdec it (or_intror Hin) v').
        rewrite (staysInline_fields st1 (afterBoundCheck st kv)) by congruence.
        apply afterBoundCheck_same_decision.
        -- rewrite Hc. exact Htrans.
        -- rewrite Forall_forall in Hhead. specialize (Hhead it Hin).
           rewrite Hc. exact Hhead.
Qed.

(** X19.  Dropping the required-in-place bound is invisible for keys that
    arrive in ascending order.  [Add] clears the bound for good at the first
    separated key whose prefix is at or past its upper end; yet over a run of
    pairs with ascending prefixes (the comparer being transitive, no call
    returning an error) every pair is answered as the policy configured at
    the start decides: in place when it is too small, a merge, or within
    that bound, by a blob handle otherwise. *)
Theorem Add_routes_by_configured_bound (vs : state) (tw : RawWriter)
        (items : list (InternalKV * bool)) (vs' : state) (tw' : RawWriter)
        (rs : list (result unit)) :
  transitiveCompare (comparer vs) ->
  ascendingPrefixes (comparer vs) items ->
  AddAll X vs tw items = (vs', tw', rs) ->
  Forall (fun r => r = Ok tt) rs ->
  exists new, calls tw' = calls tw ++ new /\ Forall2 (routedBy vs) items new.
Proof.
  intros Htrans Hasc H Hok.
  now apply (AddAll_routedBy vs items Htrans vs tw vs' tw' rs).
Qed.

End WriteNewFacts.

(** *** The concrete output again *)

Lemma bytesCompare_transitive : transitiveCompare demoComparer.
Proof.
  unfold transitiveCompare. cbn [Compare demoComparer].
  induction k1 as [| x k1 IH]; intros [| y k2] [| z k3]; cbn [bytesCompare];
    try lia.
  destruct (Z.ltb_spec x y); destruct (Z.ltb_spec y x);
    destruct (Z.ltb_spec y z); destruct (Z.ltb_spec z y);
    destruct (Z.ltb_spec x z); destruct (Z.ltb_spec z x); try lia.
  apply IH.
Qed.

Definition demoOutput : list (InternalKV * bool) :=
  [(boundKV, false); (smallKV, false); (largeKV, false)].

Lemma demoOutput_Ok :
  forall vs' tw' rs,
    writeNewBlobFiles.AddAll demoExternals demoPolicy demoWriter demoOutput = (vs', tw', rs) ->
    Forall (fun r => r = Ok tt) rs.
Proof.
  intros vs' tw' rs E. vm_compute in E. injection E as _ _ <-. repeat constructor.
Qed.

Lemma AddAll_writes_every_pair_once_witness :
  let '(vs', tw', rs) :=
    writeNewBlobFiles.AddAll demoExternals demoPolicy demoWriter demoOutput in
  exists new,
    calls tw' = calls demoWriter ++ new /\
    Forall2 writtenOnce demoOutput new /\
    blobValues vs' = blobValues demoPolicy ++ separatedValues demoOutput new.
Proof.
  destruct (writeNewBlobFiles.AddAll demoExternals demoPolicy demoWriter demoOutput)
    as [[vs' tw'] rs] eqn:E.
  apply (AddAll_writes_every_pair_once demoExternals demoOutput demoPolicy demoWriter
           vs' tw' rs E).
  exact (demoOutput_Ok vs' tw' rs E).
Defined.

Lemma newBlobObject_once_per_output_witness :
  let '(vs', tw', rs) :=
    writeNewBlobFiles.AddAll demoExternals demoPolicy demoWriter demoOutput in
  match writeNewBlobFiles.writer vs' with
  | None => writeNewBlobFiles.objectsRequested vs' = 0%nat
  | Some w' =>
      writeNewBlobFiles.objectsRequested vs' = 1%nat /\
      writeNewBlobFiles.newBlobObject demoPolicy 0 = Ok (writeNewBlobFiles.objMeta vs') /\
      fwFileNum w' = DiskFileNum (writeNewBlobFiles.objMeta vs')
  end.
Proof.
  destruct (writeNewBlobFiles.AddAll demoExternals demoPolicy demoWriter demoOutput)
    as [[vs' tw'] rs] eqn:E.
  exact (proj2 (newBlobObject_once_per_output demoExternals demoOutput demoPolicy
                  demoWriter vs' tw' rs E) eq_refl (demoOutput_Ok vs' tw' rs E)).
Defined.

Lemma Add_routes_by_configured_bound_witness :
  let '(vs', tw', rs) :=
    writeNewBlobFiles.AddAll demoExternals demoPolicy demoWriter demoOutput in
  writeNewBlobFiles.requiredInPlaceValueBound vs' = noBound /\
  exists new, calls tw' = calls demoWriter ++ new /\
              Forall2 (routedBy demoPolicy) demoOutput new.
Proof.
  destruct (writeNewBlobFiles.AddAll demoExternals demoPolicy demoWriter demoOutput)
    as [[vs' tw'] rs] eqn:E.
  split; [vm_compute in E; injection E as <- _ _; reflexivity |].
  apply (Add_routes_by_configured_bound demoExternals demoPolicy demoWriter demoOutput
           vs' tw' rs).
  - exact bytesCompare_transitive.
  - cbn [ascendingPrefixes demoOutput].
    repeat (split || constructor); vm_compute; discriminate.
  - exact E.
  - exact (demoOutput_Ok vs' tw' rs E).
Defined.

(** * The footer of a whole file *)

Lemma parseFooter_handles_Err_corruption (f0 : footer) (buf : bytes) (size : Z)
      (e : error) :
  parseFooter_handles f0 buf size = Err e -> IsCorruptionError e = true.
Proof.
  unfold parseFooter_handles.
  destruct (DecodeHandle buf) as [mBH n1].
  destruct ((n1 =? 0) || _); [intros H; injection H as <-; reflexivity |].
  destruct (DecodeHandle (slice_from buf n1)) as [iBH n2].
  destruct ((n2 =? 0) || _); [intros H; injection H as <-; reflexivity | discriminate].
Qed.

Lemma parseFooter_Err_corruption (buf : bytes) (off size : Z) (e : error) :
  parseFooter buf off size = Err e -> IsCorruptionError e = true.
Proof.
  unfold parseFooter.
  destruct (len buf <? len rocksDBMagic); [discriminate |].
  cbv zeta.
  destruct (bytes_eqb _ levelDBMagic).
  - destruct (len buf <? levelDBFooterLen); [intros H; injection H as <-; reflexivity |].
    apply parseFooter_handles_Err_corruption.
  - destruct (_ || _); [| intros H; injection H as <-; reflexivity].
    destruct (len buf <? rocksDBFooterLen); [intros H; injection H as <-; reflexivity |].
    destruct (ParseTableFormat _ _) as [fmt | e' | msg] eqn:Ep; cbn [bind].
    + destruct (_ =? ChecksumTypeCRC32c); [apply parseFooter_handles_Err_corruption |].
      destruct (_ =? ChecksumTypeXXHash64); [apply parseFooter_handles_Err_corruption |].
      intros H; injection H as <-; reflexivity.
    + intros H. injection H as <-. revert Ep. unfold ParseTableFormat.
      repeat match goal with
             | |- context [if ?c then _ else _] => destruct c
             end; intros Ep; inversion Ep; reflexivity.
    + discriminate.
Qed.

(** X20.  The errors of [readFooter] are of two kinds.  Either the one read
    it issues failed, and the error returned wraps the cause of that failure
    (a corruption error only if the cause is one); or the error is a
    corruption error: a file too small, a bad magic number, a footer too
    short, an unsupported version or checksum type, a bad block handle. *)
Theorem readFooter_error_kinds (f : Readable) (rh : option ReadHandle) (e : error) :
  readFooter f rh = Err e ->
  (exists cause,
     minFooterLen <= Size f /\ readFailure f rh = Some cause /\
     e = Wrapped "pebble/table: invalid table (could not read footer)" cause /\
     IsCorruptionError e = IsCorruptionError cause)
  \/ ((Size f < minFooterLen \/ readFailure f rh = None) /\ IsCorruptionError e = true).
Proof.
  intros H.
  destruct (Z.lt_ge_cases (Size f) minFooterLen) as [Hs | Hs].
  { right. split; [now left |]. unfold readFooter in H.
    destruct (Z.ltb_spec (Size f) minFooterLen); [| lia].
    injection H as <-. reflexivity. }
  rewrite readFooter_window in H by exact Hs.
  destruct (readFailure f rh) as [cause |].
  - left. exists cause. injection H as <-. repeat split; assumption.
  - right. split; [now right |].
    destruct (parseFooter _ _ _) as [f' | e' | msg] eqn:Hp; try discriminate.
    injection H as <-. cbn [IsCorruptionError].
    exact (parseFooter_Err_corruption _ _ _ _ Hp).
Qed.

Lemma readFooter_error_kinds_witness :
  exists cause,
    minFooterLen <= Size (file_of_footer rocksdb_footer_53) /\
    readFailure (file_of_footer rocksdb_footer_53)
      (Some (mkReadHandle (Some (ExternalError "i/o timeout")))) = Some cause /\
    IsCorruptionError
      (Wrapped "pebble/table: invalid table (could not read footer)" cause) = false.
Proof.
  destruct (readFooter_error_kinds (file_of_footer rocksdb_footer_53)
              (Some (mkReadHandle (Some (ExternalError "i/o timeout")))) _ eq_refl)
    as [(cause & Hs & Hr & -> & Hc) | ([Hs | Hr] & _)].
  - exists cause. split; [exact Hs |]. split; [exact Hr |].
    rewrite Hc. cbn in Hr. injection Hr as <-. reflexivity.
  - vm_compute in Hs. discriminate.
  - discriminate.
Defined.

(** What encoding a footer that can be read back gives: the bytes parse, in
    whatever window they end, to the footer encoded, framed by its length. *)
Lemma encoded_footer_parses (f : footer) (scratch pre enc : bytes) (off size : Z) :
  footer_encode f scratch = Ok enc ->
  checksumValidFor (format f) (checksum f) = true ->
  0 <= size < 2 ^ 63 ->
  handleWithin (metaindexBH f) size ->
  handleWithin (indexBH f) size ->
  (len enc = levelDBFooterLen \/ len enc = rocksDBFooterLen) /\
  parseFooter (pre ++ enc) off size
  = Ok (mkFooter (format f) (checksum f) (metaindexBH f) (indexBH f)
          (mkHandle (u64 (u64 (off + (len pre + len enc)) - len enc)) (len enc))).
Proof.
  intros H Hck Hsz Hm Hi.
  destruct f as [fmt c m i fb]. cbn [format checksum metaindexBH indexBH] in *.
  pose proof (EncodeVarints_length m) as Lm. pose proof (EncodeVarints_length i) as Li.
  assert (Hrocks : forall magic version,
    AsTuple fmt = Some (magic, version) ->
    bytes_eqb magic levelDBMagic = false ->
    bytes_eqb magic rocksDBMagic || bytes_eqb magic pebbleDBMagic = true ->
    len magic = 8 ->
    ParseTableFormat magic (LittleEndian_Uint32 (LittleEndian_PutUint32 version)) = Ok fmt ->
    (c =? ChecksumTypeCRC32c) || (c =? ChecksumTypeXXHash64) = true ->
    (len enc = levelDBFooterLen \/ len enc = rocksDBFooterLen) /\
    parseFooter (pre ++ enc) off size
    = Ok (mkFooter fmt c m i
            (mkHandle (u64 (u64 (off + (len pre + len enc)) - len enc)) (len enc)))).
  { intros magic version Ht Hnl Hrp Hlen Hp Hc.
    assert (Hcap : rocksDBFooterLen <= len scratch).
    { unfold footer_encode in H. cbn [format] in H. rewrite Ht, Hnl, Hrp in H.
      destruct (Z.ltb_spec (len scratch) rocksDBFooterLen); [discriminate | assumption]. }
    assert (Hall : (c =? ChecksumTypeNone) || (c =? ChecksumTypeCRC32c)
                   || (c =? ChecksumTypeXXHash) || (c =? ChecksumTypeXXHash64) = true).
    { apply orb_true_iff in Hc as [E | E]; rewrite E;
        repeat rewrite orb_true_r; reflexivity. }
    rewrite (footer_encode_rocksDB (mkFooter fmt c m i fb) scratch magic version
               Ht Hnl Hrp Hall Hcap) in H.
    cbn [checksum metaindexBH indexBH] in H.
    set (body := [c] ++ EncodeVarints m ++ EncodeVarints i
                 ++ padding (length (EncodeVarints m) + length (EncodeVarints i))) in *.
    assert (E : enc = (body ++ LittleEndian_PutUint32 version) ++ magic)
      by (injection H as <-; reflexivity).
    assert (E53 : len enc = 53).
    { rewrite E. unfold body. rewrite !len_app, padding_len, Hlen.
      change (len (LittleEndian_PutUint32 version)) with 4.
      change (len [c]) with 1. unfold len. lia. }
    split; [right; exact E53 |].
    rewrite E53. rewrite E. unfold body.
    rewrite (parseFooter_rocksDB_layout pre magic version c fmt m i) by assumption.
    reflexivity. }
  destruct fmt; cbn [checksumValidFor] in Hck.
  - discriminate.
  - apply Z.eqb_eq in Hck. subst c.
    assert (Hcap : levelDBFooterLen <= len scratch).
    { unfold footer_encode in H. cbn [format AsTuple] in H.
      rewrite bytes_eqb_refl in H.
      destruct (Z.ltb_spec (len scratch) levelDBFooterLen); [discriminate | assumption]. }
    rewrite (footer_encode_levelDB (mkFooter TableFormatLevelDB ChecksumTypeCRC32c m i fb)
               scratch levelDBFormatVersion eq_refl Hcap) in H.
    cbn [metaindexBH indexBH] in H.
    set (body := EncodeVarints m ++ EncodeVarints i
                 ++ padding (length (EncodeVarints m) + length (EncodeVarints i))) in *.
    assert (E : enc = body ++ levelDBMagic) by (injection H as <-; reflexivity).
    assert (E48 : len enc = 48).
    { rewrite E. unfold body. rewrite !len_app, padding_len.
      change (len levelDBMagic) with 8. unfold len. lia. }
    split; [left; exact E48 |].
    rewrite E48. rewrite E. unfold body.
    rewrite (parseFooter_levelDB_layout pre m i) by assumption.
    reflexivity.
  - apply (Hrocks rocksDBMagic rocksDBFormatVersion2); try reflexivity; assumption.
  - apply (Hrocks pebbleDBMagic 1); try reflexivity; assumption.
  - apply (Hrocks pebbleDBMagic 2); try reflexivity; assumption.
  - apply (Hrocks pebbleDBMagic 3); try reflexivity; assumption.
  - apply (Hrocks pebbleDBMagic 4); try reflexivity; assumption.
Qed.

Lemma slice_from_app_l {A : Type} (a b : list A) (n : Z) :
  0 <= n <= len a -> slice_from (a ++ b) n = slice_from a n ++ b.
Proof.
  intros H. unfold slice_from, len in *. rewrite skipn_app.
  replace (Z.to_nat n - length a)%nat with 0%nat by lia. reflexivity.
Qed.

(** X21.  Round trip through a file.  A table file that ends in an encoded
    footer (recognized format, checksum type valid for it, handles within the
    file), however many bytes come before it, is read back by [readFooter] as
    that footer: same table format, checksum type, metaindex and index
    handle, and a footer handle that starts where the encoded footer starts
    and has its length. *)
Theorem readFooter_reads_encoded_footer (f : footer) (scratch body enc : bytes)
        (file : Readable) (rh : option ReadHandle) :
  footer_encode f scratch = Ok enc ->
  checksumValidFor (format f) (checksum f) = true ->
  data file = body ++ enc ->
  readFailure file rh = None ->
  Size file < 2 ^ 63 ->
  handleWithin (metaindexBH f) (Size file) ->
  handleWithin (indexBH f) (Size file) ->
  readFooter file rh
  = Ok (mkFooter (format f) (checksum f) (metaindexBH f) (indexBH f)
          (mkHandle (len body) (len enc))).
Proof.
  intros Henc Hck Hdata Hread Hsz Hm Hi.
  pose proof (len_nonneg body) as Hb. pose proof (len_nonneg enc) as He.
  assert (Hsize : Size file = len body + len enc).
  { unfold Size. now rewrite Hdata, len_app. }
  set (n := footerWindowOffset file).
  destruct (encoded_footer_parses f scratch (slice_from body n) enc n (Size file)
              Henc Hck ltac:(lia) Hm Hi) as [Hlen Hparse].
  change levelDBFooterLen with 48 in Hlen. change rocksDBFooterLen with 53 in Hlen.
  assert (Hn : 0 <= n <= len body).
  { unfold n, footerWindowOffset. change maxFooterLen with 53. lia. }
  rewrite readFooter_window by (change minFooterLen with 48; lia).
  rewrite Hread. unfold footerWindow. fold n.
  rewrite Hdata, slice_from_app_l by exact Hn.
  rewrite Hparse. rewrite len_slice_from by exact Hn.
  replace (n + (len body - n + len enc)) with (Size file) by lia.
  assert (H64 : 2 ^ 63 < 2 ^ 64) by reflexivity.
  rewrite (u64_small (Size file)) by lia.
  replace (Size file - len enc) with (len body) by lia.
  rewrite u64_small by lia.
  reflexivity.
Qed.

Lemma readFooter_reads_encoded_footer_witness :
  exists enc,
    footer_encode wf_footer (repeat 0 53) = Ok enc /\
    readFooter (mkReadable (repeat 7 2000 ++ enc) None) None
    = Ok (mkFooter TableFormatPebblev3 ChecksumTypeXXHash64
            (mkHandle 1000 200) (mkHandle 1300 77) (mkHandle 2000 53)).
Proof.
  eexists. split; [vm_compute; reflexivity |].
  match goal with
  | |- readFooter (mkReadable (_ ++ ?enc) None) None = _ =>
      refine (readFooter_reads_encoded_footer wf_footer (repeat 0 53) (repeat 7 2000)
                enc (mkReadable (repeat 7 2000 ++ enc) None) None _ _ _ _ _ _ _)
  end.
  - vm_compute. reflexivity.
  - reflexivity.
  - reflexivity.
  - reflexivity.
  - vm_compute. reflexivity.
  - unfold handleWithin. vm_compute. repeat split; discriminate.
  - unfold handleWithin. vm_compute. repeat split; discriminate.
Defined.

(** * The policy that writes new blob files, call by call and run by run *)

Section WriteNewRuns.

Import writeNewBlobFiles.

Variable X : Externals.

(** What [Add] leaves of the policy's configuration: everything but the
    required-in-place bound, which after a pair that does not stay inline is
    the bound [afterBoundCheck] gives, also when the call then fails. *)
Lemma Add_configuration (vs : state) (tw : RawWriter) (kv : InternalKV) (fo : bool)
      (vs' : state) (tw' : RawWriter) (r : result unit) :
  Add X vs tw kv fo = (vs', tw', r) ->
  sameConfiguration vs' vs /\
  (forall v, Value kv = Ok v ->
     requiredInPlaceValueBound vs'
     = if staysInline vs kv v then requiredInPlaceValueBound vs
       else requiredInPlaceValueBound (afterBoundCheck vs kv)).
Proof.
  intros H.
  assert (Hrefl : sameConfiguration vs vs) by (repeat split).
  destruct (Value kv) as [v | e | m] eqn:Hv.
  2,3: unfold Add in H; rewrite Hv in H; injection H as <- <- <-;
       split; [exact Hrefl | intros v C; discriminate].
  rewrite (Add_decision X vs tw kv fo v Hv) in H.
  assert (Hgoal : sameConfiguration vs' vs /\
                  requiredInPlaceValueBound vs'
                  = if staysInline vs kv v then requiredInPlaceValueBound vs
                    else requiredInPlaceValueBound (afterBoundCheck vs kv)).
  { destruct (staysInline vs kv v).
    - rewrite writeInline_eq in H. injection H as <- <- <-. split; [exact Hrefl | reflexivity].
    - destruct (afterBoundCheck_fields vs kv) as (Ec & Ex & Ew & En & Er & Eo & Em).
      assert (Hcfg : sameConfiguration (afterBoundCheck vs kv) vs)
        by (repeat split; assumption).
      unfold separate in H.
      destruct (extractShortAttr (afterBoundCheck vs kv) kv v) as [attr | e | m].
      2,3: injection H as <- <- <-; split; [exact Hcfg | reflexivity].
      destruct (openWriter (afterBoundCheck vs kv)) as [[vs1 w0] | e | m] eqn:Eo'.
      2,3: injection H as <- <- <-; split; [exact Hcfg | reflexivity].
      cbn in H. injection H as <- <- <-.
      apply openWriter_cases in Eo' as [(_ & ->) | (_ & om & _ & _ & ->)];
        (split; [exact Hcfg | reflexivity]). }
  destruct Hgoal as [Hc Hb]. split; [exact Hc |].
  intros v' Hv'. injection Hv' as <-. exact Hb.
Qed.

(** One [Add] with no blob writer open: it asks for no blob object, or for
    one that it is refused, or for one that it gets, whose file the writer it
    then holds writes. *)
Lemma Add_creation (vs : state) (tw : RawWriter) (kv : InternalKV) (fo : bool)
      (vs' : state) (tw' : RawWriter) (r : result unit) :
  writer vs = None ->
  Add X vs tw kv fo = (vs', tw', r) ->
  (writer vs' = None /\ objectsRequested vs' = objectsRequested vs)
  \/ (writer vs' = None /\ objectsRequested vs' = S (objectsRequested vs) /\
      forall om, newBlobObject vs (objectsRequested vs) <> Ok om)
  \/ (exists w', writer vs' = Some w' /\
                 objectsRequested vs' = S (objectsRequested vs) /\
                 newBlobObject vs (objectsRequested vs) = Ok (objMeta vs') /\
                 fwFileNum w' = DiskFileNum (objMeta vs')).
Proof.
  intros Hw H.
  destruct (Value kv) as [v | e | m] eqn:Hv.
  2,3: unfold Add in H; rewrite Hv in H; injection H as <- <- <-; left; now split.
  rewrite (Add_decision X vs tw kv fo v Hv) in H.
  destruct (staysInline vs kv v).
  - rewrite writeInline_eq in H. injection H as <- <- <-. left. now split.
  - destruct (afterBoundCheck_fields vs kv) as (_ & _ & Ew & En & Er & _ & _).
    unfold separate in H.
    destruct (extractShortAttr (afterBoundCheck vs kv) kv v) as [attr | e | m].
    2,3: injection H as <- <- <-; left; rewrite Ew, Er; now split.
    unfold openWriter in H. rewrite Ew, Hw, En, Er in H.
    destruct (newBlobObject vs (objectsRequested vs)) as [om | e | m] eqn:Eom.
    + cbn in H. injection H as <- <- <-. right. right.
      eexists. cbn [writer objectsRequested objMeta with_writer with_object with_request].
      split; [reflexivity |]. split; [now rewrite Er |]. split; reflexivity.
    + injection H as <- <- <-. right. left.
      cbn [writer objectsRequested with_request]. rewrite Ew, Er.
      split; [exact Hw |]. split; [reflexivity | discriminate].
    + injection H as <- <- <-. right. left.
      cbn [writer objectsRequested with_request]. rewrite Ew, Er.
      split; [exact Hw |]. split; [reflexivity | discriminate].
Qed.

Lemma AddAll_sameConfiguration (items : list (InternalKV * bool)) :
  forall (vs : state) (tw : RawWriter) (vs' : state) (tw' : RawWriter)
         (rs : list (result unit)),
    AddAll X vs tw items = (vs', tw', rs) -> sameConfiguration vs' vs.
Proof.
  induction items as [| [kv fo] rest IH]; intros vs tw vs' tw' rs H.
  - cbn in H. injection H as <- <- <-. repeat split.
  - cbn [AddAll] in H.
    destruct (Add X vs tw kv fo) as [[vs1 tw1] r1] eqn:E1.
    destruct (AddAll X vs1 tw1 rest) as [[vs2 tw2] rs2] eqn:E2.
    injection H as <- <- <-.
    apply Add_configuration in E1 as [(A1 & A2 & A3 & A4) _].
    apply IH in E2 as (B1 & B2 & B3 & B4).
    repeat split; congruence.
Qed.

(** With a blob writer open, a run keeps writing the same file and asks for
    no blob object. *)
Lemma AddAll_writer_open (items : list (InternalKV * bool)) :
  forall (vs : state) (tw : RawWriter) (vs' : state) (tw' : RawWriter)
         (rs : list (result unit)) (w : FileWriter),
    AddAll X vs tw items = (vs', tw', rs) ->
    writer vs = Some w ->
    exists w', writer vs' = Some w' /\ fwFileNum w' = fwFileNum w /\
               objectsRequested vs' = objectsRequested vs /\ objMeta vs' = objMeta vs.
Proof.
  induction items as [| [kv fo] rest IH]; intros vs tw vs' tw' rs w H Hw.
  - cbn in H. injection H as <- <- <-. exists w. repeat split. exact Hw.
  - pose proof (AddAll_invariant X _ _ _ _ _ _ H) as (_ & _ & _ & _ & Hs & _).
    destruct (Hs w Hw) as (w' & Hw' & Hf & _).
    cbn [AddAll] in H.
    destruct (Add X vs tw kv fo) as [[vs1 tw1] r1] eqn:E1.
    destruct (AddAll X vs1 tw1 rest) as [[vs2 tw2] rs2] eqn:E2.
    injection H as <- <- <-.
    apply (Add_writer_open X _ _ _ _ _ _ _ w Hw) in E1 as ((w1 & Hw1) & Hr1 & Ho1).
    destruct (IH _ _ _ _ _ w1 E2 Hw1) as (w2 & Hw2 & _ & Hr2 & Ho2).
    exists w'. split; [exact Hw' |]. split; [exact Hf |]. split; congruence.
Qed.

(** The requests for a blob object from the [a]-th to just before the
    [b]-th all failed. *)
Definition requestsFailed (vs : state) (a b : nat) : Prop :=
  forall j om, (a <= j < b)%nat -> newBlobObject vs j <> Ok om.

(** A run that starts with no blob writer open: every blob object asked
    for was refused, but for the last one when the run ends with a writer,
    and that writer writes the file of that object. *)
Lemma AddAll_creation (items : list (InternalKV * bool)) :
  forall (vs : state) (tw : RawWriter) (vs' : state) (tw' : RawWriter)
         (rs : list (result unit)),
    AddAll X vs tw items = (vs', tw', rs) ->
    writer vs = None ->
    match writer vs' with
    | None =>
        (objectsRequested vs <= objectsRequested vs')%nat /\
        requestsFailed vs (objectsRequested vs) (objectsRequested vs')
    | Some w' =>
        exists k,
          objectsRequested vs' = S k /\ (objectsRequested vs <= k)%nat /\
          requestsFailed vs (objectsRequested vs) k /\
          newBlobObject vs k = Ok (objMeta vs') /\
          fwFileNum w' = DiskFileNum (objMeta vs')
    end.
Proof.
  induction items as [| [kv fo] rest IH]; intros vs tw vs' tw' rs H Hw.
  - cbn in H. injection H as <- <- <-. rewrite Hw.
    split; [lia |]. intros j om Hj. lia.
  - cbn [AddAll] in H.
    destruct (Add X vs tw kv fo) as [[vs1 tw1] r1] eqn:E1.
    destruct (AddAll X vs1 tw1 rest) as [[vs2 tw2] rs2] eqn:E2.
    injection H as <- <- <-.
    pose proof (Add_configuration _ _ _ _ _ _ _ E1) as [(_ & _ & _ & En) _].
    apply (Add_creation _ _ _ _ _ _ _ Hw) in E1
      as [(Hw1 & Hr1) | [(Hw1 & Hr1 & Hfail) | (w1 & Hw1 & Hr1 & Hom & Hf1)]].
    + specialize (IH _ _ _ _ _ E2 Hw1). rewrite Hr1 in IH.
      unfold requestsFailed in *. rewrite En in IH. exact IH.
    + specialize (IH _ _ _ _ _ E2 Hw1). rewrite Hr1 in IH.
      unfold requestsFailed in *. rewrite En in IH.
      assert (Hstep : forall b,
                (forall j om, (S (objectsRequested vs) <= j < b)%nat ->
                              newBlobObject vs j <> Ok om) ->
                forall j om, (objectsRequested vs <= j < b)%nat ->
                             newBlobObject vs j <> Ok om).
      { intros b Hb j om Hj.
        destruct (Nat.eq_dec j (objectsRequested vs)) as [-> | Hne];
          [apply Hfail | apply Hb; lia]. }
      destruct (writer vs2) as [w2 |].
      * destruct IH as (k & Hk & Hle & Hfk & Hok & Hf2).
        exists k. split; [exact Hk |]. split; [lia |].
        split; [now apply Hstep |]. now split.
      * destruct IH as [Hle Hfk]. split; [lia |]. now apply Hstep.
    + destruct (AddAll_writer_open _ _ _ _ _ _ w1 E2 Hw1) as (w2 & Hw2 & Hf2 & Hr2 & Ho2).
      rewrite Hw2. exists (objectsRequested vs).
      split; [congruence |]. split; [lia |].
      split; [intros j om Hj; lia |]. split; congruence.
Qed.

(** The blob files the policy has open: one or none. *)
Definition blobFilesOpen (vs : state) : nat :=
  match writer vs with
  | Some _ => 1%nat
  | None => 0%nat
  end.

(** A run in which no call returns an error: the calls that answer the
    pairs, the values that went to the blob file, and the blob objects asked
    for. *)
Lemma AddAll_Ok_run (items : list (InternalKV * bool)) :
  forall (vs : state) (tw : RawWriter) (vs' : state) (tw' : RawWriter)
         (rs : list (result unit)),
    AddAll X vs tw items = (vs', tw', rs) ->
    Forall (fun r => r = Ok tt) rs ->
    exists new,
      calls tw' = calls tw ++ new /\
      Forall2 writtenOnce items new /\
      blobValues vs' = blobValues vs ++ separatedValues items new /\
      (objectsRequested vs' + blobFilesOpen vs
       = objectsRequested vs + blobFilesOpen vs')%nat.
Proof.
  induction items as [| [kv fo] rest IH]; intros vs tw vs' tw' rs H Hok.
  - cbn in H. injection H as <- <- <-. exists [].
    rewrite !app_nil_r. repeat split. constructor.
  - cbn [AddAll] in H.
    destruct (Add X vs tw kv fo) as [[vs1 tw1] r1] eqn:E1.
    destruct (AddAll X vs1 tw1 rest) as [[vs2 tw2] rs2] eqn:E2.
    injection H as <- <- <-.
    inversion Hok as [| ? ? Hr1 Hrs]; subst.
    apply IH in E2 as (new & Hc2 & Hall & Hb2 & Hn2); [| exact Hrs].
    apply (Add_Ok_step X) in E1
      as (v & Hv & [(_ & Hc1 & ->) | (_ & attr & w0 & Hc1 & Hw1 & _ & _ & Hor)]).
    + eexists. rewrite Hc2, Hc1, <- app_assoc. split; [reflexivity |].
      split; [| split; [cbn [separatedValues fst app]; exact Hb2 | exact Hn2]].
      constructor; [| exact Hall]. split; [reflexivity |].
      exists v. split; [exact Hv |]. left. reflexivity.
    + eexists. rewrite Hc2, Hc1, <- app_assoc. split; [reflexivity |].
      split; [| split].
      * constructor; [| exact Hall]. split; [reflexivity |].
        exists v. split; [exact Hv |]. right.
        eexists. eexists. split; [reflexivity |]. split; reflexivity.
      * cbn [separatedValues fst app]. rewrite Hv. rewrite Hb2.
        unfold blobValues at 1 2. rewrite Hw1. cbn [fwValues].
        destruct Hor as [(Hw & _) | (Hw & Hnil & _)]; rewrite Hw.
        -- now rewrite <- app_assoc.
        -- rewrite Hnil. reflexivity.
      * unfold blobFilesOpen in *. rewrite Hw1 in Hn2.
        destruct Hor as [(Hw & Hr & _) | (Hw & _ & Hr & _)]; rewrite Hw; lia.
Qed.

Lemma Forall2_conj {A B : Type} (P Q : A -> B -> Prop) (l : list A) (l' : list B) :
  Forall2 P l l' -> Forall2 Q l l' -> Forall2 (fun a b => P a b /\ Q a b) l l'.
Proof.
  intros HP. induction HP as [| a b l l' Hab _ IH]; intros HQ.
  - constructor.
  - inversion HQ; subst. constructor; [now split | now apply IH].
Qed.

(** C1.  Call by call: with the value [v] of the pair in hand, [Add] writes
    it inline through the writer's [Add] exactly when it is shorter than the
    minimum size, or the key is a merge key, or the key's prefix lies within
    the required-in-place bound the policy holds; then nothing else changes.
    In every other case the policy keeps its configuration but for the bound,
    which is dropped exactly when the key's prefix is at or past its upper
    end and is otherwise as it was; and, the short attribute extracted and a
    blob writer at hand (open already, or created now), [v] is appended to
    the blob file and the sstable is handed a handle instead of the value.

    Run by run: for pairs that arrive with ascending key prefixes (the
    comparer being transitive, no call returning an error) every pair is
    answered by one call, its value inline exactly when the policy as
    configured at the start of the run keeps it in place (too small, a merge,
    or within the configured bound), and otherwise a handle with the value's
    length, the value being appended to the blob file. *)
Theorem Add_inline_exactly_when :
  (forall (vs : state) (tw : RawWriter) (kv : InternalKV) (fo : bool) (v : bytes)
          (vs' : state) (tw' : RawWriter) (r : result unit),
     Value kv = Ok v ->
     Add X vs tw kv fo = (vs', tw', r) ->
     let inlineCall := CallAdd (K kv) v fo in
     let b := requiredInPlaceValueBound vs in
     (staysInline vs kv v = true
      <-> calls tw' = calls tw ++ [(inlineCall, refuses tw (calls tw) inlineCall)])
     /\
     (staysInline vs kv v = true ->
      vs' = vs /\ r = errorResult (refuses tw (calls tw) inlineCall))
     /\
     (staysInline vs kv v = false ->
      sameConfiguration vs' vs /\
      requiredInPlaceValueBound vs'
      = (if negb (IsEmpty b)
            && (Compare (comparer vs) (Upper b) (Prefix (comparer vs) (UserKey (K kv)))
                <=? 0)
         then noBound else b) /\
      forall attr w0,
        extractShortAttr vs kv v = Ok attr ->
        blobWriterAtHand vs w0 ->
        let handle := mkInlineHandle 0 (u32 (len v)) (blob_place X w0 v) in
        let blobCall := CallAddWithBlobHandle (K kv) handle attr fo in
        writer vs' = Some (mkFileWriter (fwFileNum w0) (fwValues w0 ++ [v])) /\
        calls tw' = calls tw ++ [(blobCall, refuses tw (calls tw) blobCall)] /\
        r = errorResult (refuses tw (calls tw) blobCall)))
  /\
  (forall (vs : state) (tw : RawWriter) (items : list (InternalKV * bool))
          (vs' : state) (tw' : RawWriter) (rs : list (result unit)),
     transitiveCompare (comparer vs) ->
     ascendingPrefixes (comparer vs) items ->
     AddAll X vs tw items = (vs', tw', rs) ->
     Forall (fun r => r = Ok tt) rs ->
     exists new,
       calls tw' = calls tw ++ new /\
       Forall2 (fun it c => routedBy vs it c /\ writtenOnce it c) items new /\
       blobValues vs' = blobValues vs ++ separatedValues items new).
Proof.
  split.
  - intros vs tw kv fo v vs' tw' r Hv H inlineCall b.
    pose proof (Add_decides_by_held_bound X vs tw kv fo v vs' tw' r Hv H)
      as (Hiff & Hin & Hout).
    pose proof (Add_configuration vs tw kv fo vs' tw' r H) as [Hcfg Hbound].
    split; [exact Hiff |]. split; [exact Hin |].
    intros Hs. split; [exact Hcfg |]. split.
    + rewrite (Hbound v Hv), Hs. unfold afterBoundCheck. fold b.
      destruct (negb (IsEmpty b) && _); reflexivity.
    + exact (Hout Hs).
  - intros vs tw items vs' tw' rs Htrans Hasc H Hok.
    destruct (AddAll_routedBy X vs items Htrans vs tw vs' tw' rs eq_refl
                ltac:(reflexivity) Hasc H Hok) as (new1 & Hc1 & Hroute).
    destruct (AddAll_Ok_run items vs tw vs' tw' rs H Hok) as (new & Hc & Honce & Hvals & _).
    assert (new1 = new) by (rewrite Hc in Hc1; now apply app_inv_head in Hc1).
    subst new1. exists new. split; [exact Hc |]. split; [| exact Hvals].
    now apply Forall2_conj.
Qed.

(** C7.  Over a run of [Add] calls that starts with no blob writer open,
    whatever the calls return: every blob handle written carries reference
    index 0; a blob writer exists at the end exactly when some value was
    separated; every blob object asked for was refused, but for the last one
    when the run ends with a writer, so that at most one blob object is
    created, the writer writes the file of that object, and no object was
    even asked for when every value was written inline.  When no call returns
    an error, every pair is answered by one call, the one blob file holds
    exactly the values answered by a handle, and the run has asked for one
    blob object if it ends with a writer and for none otherwise.
    [FinishOutput] then returns the empty metadata and no error when no
    writer exists, and otherwise, the blob file closing well, exactly one
    blob reference, to the file of the one object created, with
    blob-reference depth 1. *)
Theorem one_blob_file_per_output (vs : state) (tw : RawWriter)
        (items : list (InternalKV * bool)) (vs' : state) (tw' : RawWriter)
        (rs : list (result unit)) :
  writer vs = None ->
  AddAll X vs tw items = (vs', tw', rs) ->
  exists new,
    calls tw' = calls tw ++ new /\
    Forall handleIndexZero new /\
    (writer vs' = None <-> Forall isCallAdd new) /\
    (length new = length items -> Forall isCallAdd new ->
     objectsRequested vs' = objectsRequested vs) /\
    match writer vs' with
    | None =>
        (objectsRequested vs <= objectsRequested vs')%nat /\
        requestsFailed vs (objectsRequested vs) (objectsRequested vs')
    | Some w' =>
        exists k,
          objectsRequested vs' = S k /\ (objectsRequested vs <= k)%nat /\
          requestsFailed vs (objectsRequested vs) k /\
          newBlobObject vs k = Ok (objMeta vs') /\
          fwFileNum w' = DiskFileNum (objMeta vs')
    end /\
    (Forall (fun r => r = Ok tt) rs ->
     Forall2 writtenOnce items new /\
     blobValues vs' = separatedValues items new /\
     objectsRequested vs' = (objectsRequested vs + blobFilesOpen vs')%nat) /\
    (writer vs' = None -> FinishOutput X vs' = (vs', Ok emptyMetadata)) /\
    (forall w stats,
       writer vs' = Some w -> blob_Close X w = Ok stats ->
       Exists isBlobCall new /\
       exists md,
         FinishOutput X vs' = (with_writer vs' None, Ok md) /\
         BlobReferences md
         = [mkBlobReference (DiskFileNum (objMeta vs')) (UncompressedValueBytes stats) None] /\
         BlobReferenceSize md = UncompressedValueBytes stats /\
         BlobReferenceDepth md = 1 /\
         BlobFileObject md = objMeta vs' /\
         fwFileNum w = DiskFileNum (objMeta vs')).
Proof.
  intros Hnone H.
  destruct (AddAll_blob_writer_invariants X vs tw items vs' tw' rs Hnone H)
    as (new & Hc & Hz & Hiff & Hq & Hfin0 & Hfin1).
  pose proof (AddAll_creation items vs tw vs' tw' rs H Hnone) as Hcreate.
  exists new.
  split; [exact Hc |]. split; [exact Hz |]. split; [exact Hiff |].
  split; [exact Hq |]. split; [exact Hcreate |].
  split; [| split; [exact Hfin0 |]].
  - intros Hok.
    destruct (AddAll_Ok_run items vs tw vs' tw' rs H Hok)
      as (new1 & Hc1 & Honce & Hvals & Hcount).
    assert (new1 = new) by (rewrite Hc in Hc1; now apply app_inv_head in Hc1).
    subst new1. split; [exact Honce |]. split.
    + rewrite Hvals. unfold blobValues. now rewrite Hnone.
    + unfold blobFilesOpen in Hcount at 1. rewrite Hnone in Hcount. lia.
  - intros w stats Hw Hclose.
    destruct (Hfin1 w stats Hw Hclose) as (Hex & md & Hfin & Hrefs & Hsize & Hdepth).
    rewrite Hw in Hcreate. destruct Hcreate as (k & _ & _ & _ & _ & Hfile).
    split; [exact Hex |]. exists md.
    split; [exact Hfin |]. split; [now rewrite <- Hfile |].
    split; [exact Hsize |]. split; [exact Hdepth |]. split; [| exact Hfile].
    unfold FinishOutput in Hfin. rewrite Hw, Hclose in Hfin.
    injection Hfin as <-. reflexivity.
Qed.

End WriteNewRuns.

Lemma Add_inline_exactly_when_witness :
  (Value largeKV = Ok [1; 2; 3; 4] /\
   writeNewBlobFiles.staysInline demoPolicy largeKV [1; 2; 3; 4] = false /\
   let '(vs', tw', r) :=
     writeNewBlobFiles.Add demoExternals demoPolicy demoWriter largeKV false in
   writeNewBlobFiles.requiredInPlaceValueBound vs' = noBound /\
   writeNewBlobFiles.writer vs' = Some (mkFileWriter 100 [[1; 2; 3; 4]]) /\
   r = Ok tt)
  /\
  (let '(vs', tw', rs) :=
     writeNewBlobFiles.AddAll demoExternals demoPolicy demoWriter demoOutput in
   exists new,
     calls tw' = calls demoWriter ++ new /\
     Forall2 (fun it c => routedBy demoPolicy it c /\ writtenOnce it c) demoOutput new /\
     blobValues vs' = blobValues demoPolicy ++ separatedValues demoOutput new).
Proof.
  split.
  - split; [reflexivity |]. split; [reflexivity |].
    destruct (writeNewBlobFiles.Add demoExternals demoPolicy demoWriter largeKV false)
      as [[vs' tw'] r] eqn:E.
    destruct (proj1 (Add_inline_exactly_when demoExternals) demoPolicy demoWriter largeKV
                false [1; 2; 3; 4] vs' tw' r eq_refl E) as (_ & _ & H).
    destruct (H eq_refl) as (_ & Hb & Hrest).
    destruct (Hrest 0 (writeNewBlobFiles.NewFileWriter 100) eq_refl) as (Hw & _ & Hr).
    + right. split; [reflexivity |]. exists (mkObjectMetadata 100). split; reflexivity.
    + split; [exact Hb |]. split; [exact Hw | exact Hr].
  - destruct (writeNewBlobFiles.AddAll demoExternals demoPolicy demoWriter demoOutput)
      as [[vs' tw'] rs] eqn:E.
    apply (proj2 (Add_inline_exactly_when demoExternals) demoPolicy demoWriter demoOutput
             vs' tw' rs).
    + exact bytesCompare_transitive.
    + cbn [ascendingPrefixes demoOutput].
      repeat (split || constructor); vm_compute; discriminate.
    + exact E.
    + exact (demoOutput_Ok vs' tw' rs E).
Defined.

Lemma one_blob_file_per_output_witness :
  let '(vs', tw', rs) :=
    writeNewBlobFiles.AddAll demoExternals demoPolicy demoWriter demoOutput in
  exists new,
    calls tw' = calls demoWriter ++ new /\
    Forall writeNewBlobFiles.handleIndexZero new /\
    (writeNewBlobFiles.writer vs' = None <-> Forall writeNewBlobFiles.isCallAdd new) /\
    Forall2 writtenOnce demoOutput new /\
    blobValues vs' = separatedValues demoOutput new /\
    writeNewBlobFiles.objectsRequested vs' = (0 + blobFilesOpen vs')%nat.
Proof.
  destruct (writeNewBlobFiles.AddAll demoExternals demoPolicy demoWriter demoOutput)
    as [[vs' tw'] rs] eqn:E.
  destruct (one_blob_file_per_output demoExternals demoPolicy demoWriter demoOutput
              vs' tw' rs eq_refl E) as (new & H1 & H2 & H3 & _ & _ & H4 & _).
  destruct (H4 (demoOutput_Ok vs' tw' rs E)) as (H5 & H6 & H7).
  exists new. repeat split; try assumption; apply H3.
Defined.
